(** * master-crawl: URL canonicalisation, bounded crawl frontier and
      sitemap tree reconstruction

    A shallow embedding of the crawl core of the repository:
    - [Playwright.normalizeUrl], [Playwright.sameDomain], [Playwright.crawlPage]
      and [Playwright.crawlWebsite], the crawler the queue worker imports;
    - [Puppeteer.normalizeUrl] and the loop of the Puppeteer [crawlWebsite],
      the second crawler of the repository;
    - [buildSitemapStructure] of the queue worker;
    - [SitemapGenerator]: [escapeXML], [generateXMLSitemap],
      [generateJSONSitemap], [generateTreeDiagram] and
      [buildTreeTextFromNode] of the sitemap generator;
    - [AiProcessor]: [compressSitemap], [chunkSitemap],
      [extractRecommendations] and [processSitemap] of the AI processor.

    Strings are [string]; depths, status codes and the page limit are [Z];
    [null] and [undefined] are [None]; a JS [Set] or [Map] is a list in
    insertion order.  The browser and the database are parameters of the
    traversal ([World]); the language model is a parameter of the AI
    processor ([Oracle]); the clock, the floating-point [calculatePriority]
    and the box-drawing strings are parameters of the generators.  Loops
    and recursions that the source does not bound take fuel.

    The file has three parts: the embedding, the vocabulary of the
    statements, and the properties. *)

From Stdlib Require Import String Ascii List ZArith Bool Lia Permutation.
From Stdlib Require Import DecimalString.
Import ListNotations.

Local Open Scope string_scope.
Local Open Scope list_scope.

(** * The embedding *)

(** ** JavaScript string primitives used by the sources *)

Module JsString.

(** [s.startsWith(p)] *)
Fixpoint startsWith (s p : string) {struct p} : bool :=
  match p, s with
  | EmptyString, _ => true
  | String _ _, EmptyString => false
  | String b p', String a s' => if Ascii.eqb a b then startsWith s' p' else false
  end.

(** [s.includes(p)] *)
Fixpoint includes (s p : string) : bool :=
  startsWith s p ||
  match s with
  | EmptyString => false
  | String _ s' => includes s' p
  end.

(** [s.endsWith(String c "")], for a one-character suffix. *)
Fixpoint endsWithChar (s : string) (c : ascii) : bool :=
  match s with
  | EmptyString => false
  | String a EmptyString => Ascii.eqb a c
  | String _ s' => endsWithChar s' c
  end.

(** [s.replace(/\/$/, '')]: one slash at the very end of the string is
    removed, nothing else changes. *)
Fixpoint dropTrailingSlash (s : string) : string :=
  match s with
  | EmptyString => EmptyString
  | String a EmptyString => if Ascii.eqb a "/" then EmptyString else s
  | String a s' => String a (dropTrailingSlash s')
  end.

(** Cut [s] at the first occurrence of [c]: the text before it and, when
    [c] occurs, the text after it. *)
Fixpoint cut (c : ascii) (s : string) : string * option string :=
  match s with
  | EmptyString => (EmptyString, None)
  | String a s' =>
      if Ascii.eqb a c then (EmptyString, Some s')
      else let (l, r) := cut c s' in (String a l, r)
  end.

(** [s.split(c)] for a one-character separator. *)
Fixpoint split (c : ascii) (s : string) : list string :=
  match s with
  | EmptyString => [EmptyString]
  | String a s' =>
      if Ascii.eqb a c then EmptyString :: split c s'
      else match split c s' with
           | [] => [String a EmptyString]
           | x :: xs => String a x :: xs
           end
  end.

(** No character of [s] is [c]. *)
Fixpoint lacks (c : ascii) (s : string) : bool :=
  match s with
  | EmptyString => true
  | String a s' => negb (Ascii.eqb a c) && lacks c s'
  end.

Definition isEmpty (s : string) : bool :=
  match s with EmptyString => true | _ => false end.

(** Truthiness of a JS string. *)
Definition truthy (s : string) : bool := negb (isEmpty s).

Fixpoint drop (n : nat) (s : string) : string :=
  match n, s with
  | O, _ => s
  | S n', String _ s' => drop n' s'
  | S _, EmptyString => EmptyString
  end.

(** [\w] of JS regular expressions. *)
Definition isWordChar (a : ascii) : bool :=
  let n := nat_of_ascii a in
  (((48 <=? n) && (n <=? 57)) || ((65 <=? n) && (n <=? 90)) ||
   ((97 <=? n) && (n <=? 122)) || (n =? 95))%nat.

Definition toUpperChar (a : ascii) : ascii :=
  let n := nat_of_ascii a in
  if ((97 <=? n) && (n <=? 122))%nat then ascii_of_nat (n - 32) else a.

(** [s.replace(/-/g, ' ')] *)
Fixpoint hyphensToSpaces (s : string) : string :=
  match s with
  | EmptyString => EmptyString
  | String a s' =>
      String (if Ascii.eqb a "-" then " "%char else a) (hyphensToSpaces s')
  end.

(** [s.replace(/\b\w/g, l => l.toUpperCase())]: [prevWord] tells whether the
    character before the current position is a word character. *)
Fixpoint capitalizeFrom (prevWord : bool) (s : string) : string :=
  match s with
  | EmptyString => EmptyString
  | String a s' =>
      let w := isWordChar a in
      String (if w && negb prevWord then toUpperChar a else a)
             (capitalizeFrom w s')
  end.

Definition capitalizeWords (s : string) : string := capitalizeFrom false s.

End JsString.

Import JsString.

(** ** The platform's URL class

    [new URL(s)] is modelled on absolute URLs in serialized form: scheme
    [http] or [https], [://], a host that is a lower-case domain name, then
    an optional path, an optional [?query] and an optional [#fragment].  An
    empty path is the root path [/].  The characters of the path, the query
    and the fragment are kept as they are (the platform escapes some and
    resolves dot segments).  Ports, user info, other schemes, upper-case
    and numeric hosts are outside the model: on such a string, as on every
    string the platform rejects, the result is [None], the [TypeError] of
    the constructor. *)

Module Url.

Record URL : Type := mkURL {
  scheme : string;             (* without the colon *)
  hostname : string;
  pathname : string;
  query : option string;       (* null, or the text after [?] *)
  fragment : option string     (* null, or the text after [#] *)
}.

Definition isHostChar (a : ascii) : bool :=
  let n := nat_of_ascii a in
  (((97 <=? n) && (n <=? 122)) || ((48 <=? n) && (n <=? 57)) ||
   (n =? 46) || (n =? 45))%nat.

Fixpoint allHostChars (s : string) : bool :=
  match s with
  | EmptyString => true
  | String a s' => isHostChar a && allHostChars s'
  end.

Definition isLowerAlpha (a : ascii) : bool :=
  let n := nat_of_ascii a in ((97 <=? n) && (n <=? 122))%nat.

(** The last label begins with a letter, so the host is a name and not an
    IPv4 number. *)
Definition lastLabelIsName (h : string) : bool :=
  match last (split "." h) "" with
  | String a _ => isLowerAlpha a
  | EmptyString => false
  end.

(** A host the model accepts: a non-empty lower-case name without punycode
    labels. *)
Definition validHost (h : string) : bool :=
  truthy h && allHostChars h && lastLabelIsName h
  && negb (includes h "xn--").

(** The scheme and what follows [://]. *)
Definition splitScheme (s : string) : option (string * string) :=
  if startsWith s "https://" then Some ("https", drop 8 s)
  else if startsWith s "http://" then Some ("http", drop 7 s)
  else None.

(** [new URL(s)]; [None] when the constructor throws. *)
Definition parse (s : string) : option URL :=
  let (s1, frag) := cut "#" s in
  let (s2, qry) := cut "?" s1 in
  match splitScheme s2 with
  | None => None
  | Some (sch, rest) =>
      let (h, p) := cut "/" rest in
      if validHost h then
        Some {| scheme := sch;
                hostname := h;
                pathname := match p with
                            | None => "/"
                            | Some p' => String "/" p'
                            end;
                query := qry;
                fragment := frag |}
      else None
  end.

(** The [hash] getter: empty for a null or empty fragment. *)
Definition hash (u : URL) : string :=
  match fragment u with
  | None | Some EmptyString => ""
  | Some f => String "#" f
  end.

(** [u.hash = ''] *)
Definition clearHash (u : URL) : URL :=
  {| scheme := scheme u; hostname := hostname u; pathname := pathname u;
     query := query u; fragment := None |}.

(** [u.search = ''] *)
Definition clearSearch (u : URL) : URL :=
  {| scheme := scheme u; hostname := hostname u; pathname := pathname u;
     query := None; fragment := fragment u |}.

Definition origin (u : URL) : string := scheme u ++ "://" ++ hostname u.

(** The [href] getter (the URL serializer). *)
Definition href (u : URL) : string :=
  origin u ++ pathname u ++
  match query u with None => "" | Some q => String "?" q end ++
  match fragment u with None => "" | Some f => String "#" f end.

End Url.

(** ** Helpers shared by the crawler and the tree builder *)

(** [a || b] on strings. *)
Definition orElse (a b : string) : string := if truthy a then a else b.

(** [s.replace(/-/g, ' ').replace(/\b\w/g, l => l.toUpperCase())] *)
Definition humanize (s : string) : string :=
  capitalizeWords (hyphensToSpaces s).

(** The body of the [try] that derives a title from the URL; ['Page'] is
    the [catch] branch. *)
Definition titleFromUrl (url : string) : string :=
  match Url.parse url with
  | None => "Page"
  | Some urlObj =>
      let hash := drop 1 (Url.hash urlObj) in
      let pathParts := filter truthy (split "/" (Url.pathname urlObj)) in
      if truthy hash && startsWith hash "/" then
        orElse (humanize (last (split "/" (drop 1 hash)) "")) "Page"
      else if truthy hash then
        orElse (humanize hash) "Page"
      else
        match pathParts with
        | [] => "Home"
        | _ => humanize (last pathParts "")
        end
  end.

(** A page as [crawlWebsite] returns it.  A missing ([null], [undefined])
    id or title is the empty string, which JS treats as falsy alike. *)
Record PageRecord : Type := mkPage {
  page_id : string;
  page_url : string;
  page_depth : Z;
  page_parentUrl : option string;
  page_title : string
}.

(** ** The Playwright crawler *)

Module Playwright.

(** [normalizeUrl(url, preserveHash)]; [None] is the [null] of the [catch]
    branch. *)
Definition normalizeUrl (url : string) (preserveHash : bool) : option string :=
  match Url.parse url with
  | None => None
  | Some u =>
      let u1 :=
        if negb preserveHash || negb (truthy (Url.hash u))
           || negb (startsWith (Url.hash u) "#/")
        then Url.clearHash u else u in
      let u2 := Url.clearSearch u1 in
      Some (dropTrailingSlash (Url.href u2))
  end.

(** The canonical form the traversal uses, at dispatch and for every link:
    [normalizeUrl(raw, raw.includes('#/'))]. *)
Definition normalize (raw : string) : option string :=
  normalizeUrl raw (includes raw "#/").

(** [sameDomain(a, b)] *)
Definition sameDomain (a b : string) : bool :=
  match Url.parse a, Url.parse b with
  | Some ua, Some ub => String.eqb (Url.hostname ua) (Url.hostname ub)
  | _, _ => false
  end.

(** *** The traversal *)

Record QueueItem : Type := mkItem {
  item_url : string;
  item_depth : Z;
  item_parentUrl : option string
}.

(** A row of the [pages] table, as the [INSERT] writes it. *)
Record PageRow : Type := mkRow {
  row_url : string;
  row_depth : Z;
  row_parentUrl : option string;
  row_title : string;
  row_statusCode : Z
}.

(** What the browser does with one URL: the page loads and yields a title
    and links, or some step of the [try] in [crawlPage] throws. *)
Inductive Navigation : Type :=
| Loaded (title : string) (links : list string)
| Failed (message : string).

(** The environment of a job: the web as the browser sees it, and the
    database ([Some id] for the returned row id, [None] for a query that
    throws).  A canonical URL is fetched and stored at most once per job,
    so functions of the URL and of the row cover every behaviour. *)
Record World : Type := mkWorld {
  navigate : string -> Navigation;
  insertPage : PageRow -> option string
}.

(** [crawlPage(context, url)] *)
Definition crawlPage (w : World) (url : string) : string * list string :=
  match navigate w url with
  | Loaded title links => (title, links)
  | Failed _ => ("Untitled", [])
  end.

(** The JS [Set] of visited URLs, in insertion order. *)
Definition setHas (s : list string) (x : string) : bool :=
  existsb (String.eqb x) s.

Definition setAdd (s : list string) (x : string) : list string :=
  if setHas s x then s else s ++ [x].

Record CrawlState : Type := mkState {
  visited : list string;
  queue : list QueueItem;
  pages : list PageRecord;
  rows : list PageRow
}.

Definition CONCURRENCY : nat := 6.

(** The part of the batch callback before its first [await]: [batch.map]
    runs it for every item of the batch, in order, before any page is
    fetched.  An item that passes is marked visited and its fetch starts. *)
Definition dispatch (maxDepth : Z)
    (acc : list string * list (QueueItem * string)) (item : QueueItem)
  : list string * list (QueueItem * string) :=
  let (visited, started) := acc in
  let hasHashRoute := includes (item_url item) "#/" in
  match normalizeUrl (item_url item) hasHashRoute with
  | None => acc
  | Some url =>
      if negb (truthy url) || setHas visited url
         || (maxDepth <? item_depth item)%Z
      then acc
      else (setAdd visited url, started ++ [(item, url)])
  end.

Definition needsTitle (title : string) : bool :=
  negb (truthy title) || String.eqb title "ERROR: Error"
  || String.eqb title "Error" || String.eqb title "ERROR".

(** One turn of the [for (const link of links)] loop. *)
Definition processLink (maxDepth : Z) (baseUrl : string) (item : QueueItem)
    (url : string) (st : CrawlState) (link : string) : CrawlState :=
  let isHashRoute := includes link "#/" in
  match normalizeUrl link isHashRoute with
  | None => st
  | Some normalizedLink =>
      if truthy normalizedLink
         && negb (setHas (visited st) normalizedLink)
         && sameDomain normalizedLink baseUrl
         && (item_depth item <? maxDepth)%Z
      then {| visited := visited st;
              queue := queue st ++
                       [{| item_url := normalizedLink;
                           item_depth := item_depth item + 1;
                           item_parentUrl := Some url |}];
              pages := pages st;
              rows := rows st |}
      else st
  end.

(** The rest of the batch callback, from [await crawlPage] on.  The
    callbacks of a batch are resumed here in the order of the batch; the
    claims below do not depend on that order. *)
Definition finish (w : World) (maxDepth : Z) (baseUrl : string)
    (st : CrawlState) (job : QueueItem * string) : CrawlState :=
  let (item, url) := job in
  let (title, links) := crawlPage w url in
  let cleanedTitle := if needsTitle title then titleFromUrl url else title in
  let row := {| row_url := url; row_depth := item_depth item;
                row_parentUrl := item_parentUrl item;
                row_title := cleanedTitle; row_statusCode := 200 |} in
  let st1 :=
    match insertPage w row with
    | Some id =>
        {| visited := visited st;
           queue := queue st;
           pages := pages st ++
                    [{| page_id := id; page_url := url;
                        page_depth := item_depth item;
                        page_parentUrl := item_parentUrl item;
                        page_title := cleanedTitle |}];
           rows := rows st ++ [row] |}
    | None => st
    end in
  fold_left (processLink maxDepth baseUrl item url) links st1.

(** The loop test. *)
Definition continues (maxPages : Z) (st : CrawlState) : bool :=
  (0 <? length (queue st))%nat
  && (Z.of_nat (length (visited st)) <? maxPages)%Z.

(** One turn of the [while] loop: a batch of up to [CONCURRENCY] items. *)
Definition iteration (w : World) (maxDepth : Z) (baseUrl : string)
    (st : CrawlState) : CrawlState :=
  let batch := firstn CONCURRENCY (queue st) in
  let rest := skipn CONCURRENCY (queue st) in
  let (visited', started) :=
    fold_left (dispatch maxDepth) batch (visited st, []) in
  fold_left (finish w maxDepth baseUrl) started
    {| visited := visited'; queue := rest;
       pages := pages st; rows := rows st |}.

(** The [while] loop; [None] when [fuel] turns were not enough. *)
Fixpoint crawlLoop (fuel : nat) (w : World) (maxDepth maxPages : Z)
    (baseUrl : string) (st : CrawlState) : option CrawlState :=
  if continues maxPages st then
    match fuel with
    | O => None
    | S fuel' =>
        crawlLoop fuel' w maxDepth maxPages baseUrl
                  (iteration w maxDepth baseUrl st)
    end
  else Some st.

Record Job : Type := mkJob {
  domain : string;
  maxDepth : Z;
  maxPages : Z
}.

Definition baseUrlOf (job : Job) : string :=
  if startsWith (domain job) "http" then domain job
  else ("https://" ++ domain job)%string.

Definition initialState (job : Job) : CrawlState :=
  {| visited := [];
     queue := [{| item_url := baseUrlOf job; item_depth := 0;
                  item_parentUrl := None |}];
     pages := []; rows := [] |}.

(** The result of a job. *)
Inductive Outcome (A : Type) : Type :=
| Returned (result : A)
| Thrown
| OutOfFuel.
Arguments Returned {A} result.
Arguments Thrown {A}.
Arguments OutOfFuel {A}.

(** The state in which the loop of [crawlWebsite] ends.  [new URL(baseUrl)]
    throws on a seed that does not parse. *)
Definition crawlFinal (fuel : nat) (w : World) (job : Job)
  : Outcome CrawlState :=
  match Url.parse (baseUrlOf job) with
  | None => Thrown
  | Some _ =>
      match crawlLoop fuel w (maxDepth job) (maxPages job) (baseUrlOf job)
                      (initialState job) with
      | Some st => Returned st
      | None => OutOfFuel
      end
  end.

(** [crawlWebsite({ jobId, domain, maxDepth, maxPages })] *)
Definition crawlWebsite (fuel : nat) (w : World) (job : Job)
  : Outcome (list PageRecord) :=
  match crawlFinal fuel w job with
  | Returned st => Returned (pages st)
  | Thrown => Thrown
  | OutOfFuel => OutOfFuel
  end.

(** The states at the head of the loop. *)
Inductive reachable (w : World) (job : Job) : CrawlState -> Prop :=
| reach_init : reachable w job (initialState job)
| reach_step : forall st,
    reachable w job st ->
    continues (maxPages job) st = true ->
    reachable w job (iteration w (maxDepth job) (baseUrlOf job) st).

End Playwright.

(** ** The Puppeteer crawler *)

Module Puppeteer.

(** [normalizeUrl(url)]: the query goes, the hash stays; the [catch] branch
    cuts the string by hand and still returns a string. *)
Definition normalizeUrl (url : string) : string :=
  match Url.parse url with
  | Some urlObj => Url.href (Url.clearSearch urlObj)
  | None =>
      if includes url "#" then
        let parts := split "#" url in
        let base := hd "" (split "?" (hd "" parts)) in
        let hash := match nth_error parts 1 with
                    | Some p1 => if truthy p1 then ("#" ++ p1)%string else ""
                    | None => ""
                    end in
        (base ++ hash)%string
      else hd "" (split "?" url)
  end.

(** The domain test of the link loop:
    [linkDomain === baseDomain || linkDomain === `www.${baseDomain}` ||
     `www.${linkDomain}` === baseDomain]. *)
Definition isSameDomain (linkDomain baseDomain : string) : bool :=
  String.eqb linkDomain baseDomain
  || String.eqb linkDomain ("www." ++ baseDomain)%string
  || String.eqb ("www." ++ linkDomain)%string baseDomain.

Record QueueItem : Type := mkItem {
  item_url : string;
  item_depth : Z;
  item_parentUrl : option string
}.

Record PageRow : Type := mkRow {
  row_url : string;
  row_depth : Z;
  row_parentUrl : option string;
  row_title : string;
  row_statusCode : Z
}.

(** An exception: [error.name] and [error.message]. *)
Record JsError : Type := mkError {
  error_name : string;
  error_message : string
}.

(** What the browser part of the [try] block does with one URL. *)
Inductive Fetch : Type :=
| Fetched (title : string) (links : list string)
| Threw (error : JsError).

Inductive Insert : Type :=
| Inserted (id : string)
| Rejected (error : JsError).

(** The environment of a job: robots.txt ([None] when it could not be
    loaded), the web, the database. *)
Record World : Type := mkWorld {
  robots : option (string -> bool);
  fetch : string -> Fetch;
  insertPage : PageRow -> Insert
}.

Definition setHas (s : list string) (x : string) : bool :=
  existsb (String.eqb x) s.

Definition setAdd (s : list string) (x : string) : list string :=
  if setHas s x then s else s ++ [x].

(** [[...new Set(links)]] *)
Definition unique (links : list string) : list string :=
  fold_left setAdd links [].

Record CrawlState : Type := mkState {
  visited : list string;
  queue : list QueueItem;
  pages : list PageRecord;
  rows : list PageRow
}.

(** The status code stored for a failed page:
    [isBlocked ? 403 : isTimeout ? 408 : 0]. *)
Definition errorStatus (error : JsError) : Z :=
  let errorMessage := orElse (error_message error) "Unknown error" in
  let isTimeout :=
    includes errorMessage "timeout" || includes errorMessage "Timeout" in
  let isBlocked :=
    includes errorMessage "blocked" || includes errorMessage "Blocked"
    || includes errorMessage "Access Denied"
    || includes errorMessage "Cloudflare" in
  if isBlocked then 403%Z else if isTimeout then 408%Z else 0%Z.

(** The [catch] block of one page: the failed page is stored with its error
    title and status; a failure of that query is ignored. *)
Definition onError (w : World) (item : QueueItem) (normalizedUrl : string)
    (error : JsError) (st : CrawlState) : CrawlState :=
  let errorType := orElse (error_name error) "UnknownError" in
  let row := {| row_url := normalizedUrl; row_depth := item_depth item;
                row_parentUrl := item_parentUrl item;
                row_title := ("ERROR: " ++ errorType)%string;
                row_statusCode := errorStatus error |} in
  match insertPage w row with
  | Inserted _ =>
      {| visited := visited st; queue := queue st; pages := pages st;
         rows := rows st ++ [row] |}
  | Rejected _ => st
  end.

(** One turn of the link loop.  [new URL(link, baseUrl)] is modelled for
    absolute links; a link that does not parse is skipped by the [catch]. *)
Definition processLink (maxDepth : Z) (baseDomain : string) (item : QueueItem)
    (normalizedUrl : string) (st : CrawlState) (link : string) : CrawlState :=
  match Url.parse link with
  | None => st
  | Some linkUrl =>
      if isSameDomain (Url.hostname linkUrl) baseDomain then
        let normalizedLink := normalizeUrl (Url.href linkUrl) in
        if negb (setHas (visited st) normalizedLink)
           && (item_depth item <? maxDepth)%Z
        then {| visited := visited st;
                queue := queue st ++
                         [{| item_url := normalizedLink;
                             item_depth := item_depth item + 1;
                             item_parentUrl := Some normalizedUrl |}];
                pages := pages st;
                rows := rows st |}
        else st
      else st
  end.

(** The body of the [while] loop for the item taken off the queue. *)
Definition visit (w : World) (maxDepth : Z) (baseDomain : string)
    (item : QueueItem) (st : CrawlState) : CrawlState :=
  let url := item_url item in
  if (maxDepth <? item_depth item)%Z then st
  else if setHas (visited st) url then st
  else if match robots w with
          | Some isAllowed => negb (isAllowed url)
          | None => false
          end then st
  else
    let normalizedUrl := normalizeUrl url in
    if setHas (visited st) normalizedUrl then st
    else
      let st1 := {| visited := setAdd (setAdd (visited st) normalizedUrl) url;
                    queue := queue st; pages := pages st;
                    rows := rows st |} in
      match fetch w url with
      | Threw error => onError w item normalizedUrl error st1
      | Fetched title links =>
          let uniqueLinks := unique links in
          let row := {| row_url := normalizedUrl;
                        row_depth := item_depth item;
                        row_parentUrl := item_parentUrl item;
                        row_title := title; row_statusCode := 200 |} in
          match insertPage w row with
          | Rejected error => onError w item normalizedUrl error st1
          | Inserted id =>
              let st2 :=
                {| visited := visited st1;
                   queue := queue st1;
                   pages := pages st1 ++
                            [{| page_id := id; page_url := normalizedUrl;
                                page_depth := item_depth item;
                                page_parentUrl := item_parentUrl item;
                                page_title := title |}];
                   rows := rows st1 ++ [row] |} in
              fold_left (processLink maxDepth baseDomain item normalizedUrl)
                        uniqueLinks st2
          end
      end.

(** The loop test. *)
Definition continues (maxPages : Z) (st : CrawlState) : bool :=
  (0 <? length (queue st))%nat
  && (Z.of_nat (length (pages st)) <? maxPages)%Z.

(** One turn of the [while] loop: [queue.shift()] and the body. *)
Definition iteration (w : World) (maxDepth : Z) (baseDomain : string)
    (st : CrawlState) : CrawlState :=
  match queue st with
  | [] => st
  | item :: rest =>
      visit w maxDepth baseDomain item
            {| visited := visited st; queue := rest;
               pages := pages st; rows := rows st |}
  end.

Definition baseUrlOf (domain : string) : string :=
  if startsWith domain "http" then domain else ("https://" ++ domain)%string.

Definition initialState (domain : string) : CrawlState :=
  {| visited := [];
     queue := [{| item_url := baseUrlOf domain; item_depth := 0;
                  item_parentUrl := None |}];
     pages := []; rows := [] |}.

(** The states at the head of the loop of [crawlWebsite], for a seed whose
    host name is [baseDomain]. *)
Inductive reachable (w : World) (domain : string) (maxDepth maxPages : Z)
  : CrawlState -> Prop :=
| reach_init : reachable w domain maxDepth maxPages (initialState domain)
| reach_step : forall st u,
    reachable w domain maxDepth maxPages st ->
    Url.parse (baseUrlOf domain) = Some u ->
    continues maxPages st = true ->
    reachable w domain maxDepth maxPages
              (iteration w maxDepth (Url.hostname u) st).

(** The [while] loop; [None] when [fuel] turns were not enough. *)
Fixpoint crawlLoop (fuel : nat) (w : World) (maxDepth maxPages : Z)
    (baseDomain : string) (st : CrawlState) : option CrawlState :=
  if continues maxPages st then
    match fuel with
    | O => None
    | S fuel' =>
        crawlLoop fuel' w maxDepth maxPages baseDomain
                  (iteration w maxDepth baseDomain st)
    end
  else Some st.

(** The state in which the loop of [crawlWebsite] ends.  [new URL(baseUrl)]
    throws on a seed that does not parse. *)
Definition crawlFinal (fuel : nat) (w : World) (domain : string)
    (maxDepth maxPages : Z) : Playwright.Outcome CrawlState :=
  match Url.parse (baseUrlOf domain) with
  | None => Playwright.Thrown
  | Some u =>
      match crawlLoop fuel w maxDepth maxPages (Url.hostname u)
                      (initialState domain) with
      | Some st => Playwright.Returned st
      | None => Playwright.OutOfFuel
      end
  end.

(** [crawlWebsite({ jobId, domain, maxDepth, maxPages })] *)
Definition crawlWebsite (fuel : nat) (w : World) (domain : string)
    (maxDepth maxPages : Z) : Playwright.Outcome (list PageRecord) :=
  match crawlFinal fuel w domain maxDepth maxPages with
  | Playwright.Returned st => Playwright.Returned (pages st)
  | Playwright.Thrown => Playwright.Thrown
  | Playwright.OutOfFuel => Playwright.OutOfFuel
  end.

End Puppeteer.

(** ** The sitemap tree builder (queue worker) *)

(** An element of [cleanedPages]. *)
Record CleanPage : Type := mkClean {
  clean_id : string;
  clean_url : string;
  clean_title : string;
  clean_depth : Z;
  clean_parentUrl : option string;
  clean_status : string
}.

(** A value of [pageMap]: the cleaned page and its [children] array.  The
    array holds references to other values of [pageMap]; a reference is the
    key (the URL) under which the referenced node is stored. *)
Record PageNode : Type := mkPageNode {
  node_page : CleanPage;
  node_children : list string
}.

(** The node type of the returned tree.  [buildNode] sets [children] only
    when there are some, so the property may be absent ([None]). *)
#[local] Unset Elimination Schemes.
Inductive SitemapNode : Type :=
| Node (id url title : string) (depth : Z) (status : string)
       (children : option (list SitemapNode)).

#[local] Set Elimination Schemes.

Definition sn_id (n : SitemapNode) : string :=
  match n with Node i _ _ _ _ _ => i end.
Definition sn_url (n : SitemapNode) : string :=
  match n with Node _ u _ _ _ _ => u end.
Definition sn_title (n : SitemapNode) : string :=
  match n with Node _ _ t _ _ _ => t end.
Definition sn_depth (n : SitemapNode) : Z :=
  match n with Node _ _ _ d _ _ => d end.
Definition sn_status (n : SitemapNode) : string :=
  match n with Node _ _ _ _ s _ => s end.
Definition sn_children (n : SitemapNode) : list SitemapNode :=
  match n with
  | Node _ _ _ _ _ (Some l) => l
  | Node _ _ _ _ _ None => []
  end.

(** The URLs of a tree, in preorder. *)
Fixpoint tree_urls (n : SitemapNode) : list string :=
  match n with
  | Node _ u _ _ _ ch =>
      u :: match ch with
           | None => []
           | Some l => flat_map tree_urls l
           end
  end.

Definition isErrorTitle (title : string) : bool :=
  negb (truthy title) || String.eqb title "ERROR: Error"
  || String.eqb title "Error" || String.eqb title "ERROR"
  || startsWith title "ERROR:".

Definition natToString (n : nat) : string :=
  NilEmpty.string_of_uint (Nat.to_uint n).

Definition cleanPage (page : PageRecord) (index : nat) : CleanPage :=
  {| clean_id := orElse (page_id page) ("page-" ++ natToString index);
     clean_url := page_url page;
     clean_title := if isErrorTitle (page_title page)
                    then titleFromUrl (page_url page)
                    else page_title page;
     clean_depth := page_depth page;
     clean_parentUrl := page_parentUrl page;
     clean_status := "ok" |}.

(** [pages.map((page, index) => ...)], from index [i] on. *)
Fixpoint cleanPagesFrom (i : nat) (pages : list PageRecord) : list CleanPage :=
  match pages with
  | [] => []
  | p :: ps => cleanPage p i :: cleanPagesFrom (S i) ps
  end.

Definition cleanPages (pages : list PageRecord) : list CleanPage :=
  cleanPagesFrom 0 pages.

(** The predicate of [cleanedPages.find]: the path is the root and there is
    no hash. *)
Definition isHomepage (p : CleanPage) : bool :=
  match Url.parse (clean_url p) with
  | None => false
  | Some u =>
      (String.eqb (Url.pathname u) "/" || String.eqb (Url.pathname u) "")
      && (negb (truthy (Url.hash u)) || String.eqb (Url.hash u) ""
          || String.eqb (Url.hash u) "#")
  end.

(** [cleanedPages.find(...) || cleanedPages[0]]; [None] is [undefined]. *)
Definition findRootPage (cleanedPages : list CleanPage) : option CleanPage :=
  match find isHomepage cleanedPages with
  | Some p => Some p
  | None => hd_error cleanedPages
  end.

(** *** [pageMap], a JS [Map] in insertion order *)

Definition PageMap : Type := list (string * PageNode).

Fixpoint mapGet (m : PageMap) (k : string) : option PageNode :=
  match m with
  | [] => None
  | (k', v) :: m' => if String.eqb k k' then Some v else mapGet m' k
  end.

Definition mapHas (m : PageMap) (k : string) : bool :=
  match mapGet m k with Some _ => true | None => false end.

(** [m.set(k, v)]: an existing key keeps its place and takes the new value. *)
Fixpoint mapSet (m : PageMap) (k : string) (v : PageNode) : PageMap :=
  match m with
  | [] => [(k, v)]
  | (k', v') :: m' =>
      if String.eqb k k' then (k', v) :: m' else (k', v') :: mapSet m' k v
  end.

(** [m.get(k).children.push(c)]: the node stored under [k] is mutated in
    place. *)
Fixpoint pushChild (m : PageMap) (k c : string) : PageMap :=
  match m with
  | [] => []
  | (k', v) :: m' =>
      if String.eqb k k'
      then (k', {| node_page := node_page v;
                   node_children := node_children v ++ [c] |}) :: m'
      else (k', v) :: pushChild m' k c
  end.

(** The first [forEach]: one fresh node with no children per page. *)
Definition buildPageMap (cleanedPages : list CleanPage) : PageMap :=
  fold_left
    (fun m page =>
       mapSet m (clean_url page)
              {| node_page := page; node_children := [] |})
    cleanedPages [].

(** One step of the second [forEach], on [pageMap] and [rootNodes]. *)
Definition attach (rootPage : option CleanPage)
    (acc : PageMap * list string) (page : CleanPage) : PageMap * list string :=
  let (pageMap, rootNodes) := acc in
  let node := clean_url page in
  match clean_parentUrl page with
  | Some parentUrl =>
      if truthy parentUrl && mapHas pageMap parentUrl then
        (pushChild pageMap parentUrl node, rootNodes)
      else if match rootPage with
              | Some r => String.eqb (clean_url page) (clean_url r)
              | None => false
              end
              || (negb (truthy parentUrl) && (clean_depth page =? 0)%Z) then
        (pageMap, rootNodes ++ [node])
      else
        (pageMap, rootNodes ++ [node])
  | None =>
      if match rootPage with
         | Some r => String.eqb (clean_url page) (clean_url r)
         | None => false
         end
         || (clean_depth page =? 0)%Z then
        (pageMap, rootNodes ++ [node])
      else
        (pageMap, rootNodes ++ [node])
  end.

(** Both [forEach] passes and the fallback when no root node was found. *)
Definition attachAll (cleanedPages : list CleanPage) : PageMap * list string :=
  let rootPage := findRootPage cleanedPages in
  let (pageMap, rootNodes) :=
    fold_left (attach rootPage) cleanedPages (buildPageMap cleanedPages, []) in
  match rootNodes, cleanedPages with
  | [], p :: _ => (pageMap, [clean_url p])
  | _, _ => (pageMap, rootNodes)
  end.

(** All results, or [None] if one is missing. *)
Fixpoint sequence {A : Type} (l : list (option A)) : option (list A) :=
  match l with
  | [] => Some []
  | None :: _ => None
  | Some x :: l' =>
      match sequence l' with
      | Some xs => Some (x :: xs)
      | None => None
      end
  end.

(** [buildNode(pageNode)], the node given by its key.  The recursion follows
    the [children] arrays, which may be cyclic; [fuel] bounds its depth and
    [None] is a recursion that did not finish within it. *)
Fixpoint buildNode (fuel : nat) (pageMap : PageMap) (ref : string)
  : option SitemapNode :=
  match fuel with
  | O => None
  | S fuel' =>
      match mapGet pageMap ref with
      | None => None
      | Some pageNode =>
          let p := node_page pageNode in
          let mk := Node (clean_id p) (clean_url p)
                         (orElse (clean_title p) (clean_url p))
                         (clean_depth p) (orElse (clean_status p) "ok") in
          match node_children pageNode with
          | [] => Some (mk None)
          | kids =>
              match sequence (map (buildNode fuel' pageMap) kids) with
              | Some ks => Some (mk (Some ks))
              | None => None
              end
          end
      end
  end.

Definition emptyRoot : SitemapNode :=
  Node "root" "" "Root" 0 "ok" (Some []).

(** [buildSitemapStructure(pages)]; a missing argument is [None]. *)
Definition buildSitemapStructure (fuel : nat) (pages : option (list PageRecord))
  : option SitemapNode :=
  match pages with
  | None | Some [] => Some emptyRoot
  | Some pages =>
      let cleanedPages := cleanPages pages in
      let rootPage := findRootPage cleanedPages in
      let (pageMap, rootNodes) := attachAll cleanedPages in
      match rootNodes with
      | [r] => buildNode fuel pageMap r
      | _ =>
          match sequence (map (buildNode fuel pageMap) rootNodes) with
          | Some ks =>
              Some (Node "root"
                      (match rootPage with
                       | Some r => orElse (clean_url r)
                                     (match cleanedPages with
                                      | p :: _ => orElse (clean_url p) ""
                                      | [] => ""
                                      end)
                       | None => match cleanedPages with
                                 | p :: _ => orElse (clean_url p) ""
                                 | [] => ""
                                 end
                       end)
                      "Root" 0 "ok" (Some ks))
          | None => None
          end
      end
  end.

(** ** The sitemap generator ([utils/sitemapGenerator]) *)

Module SitemapGenerator.

(** The double quote and the line feed, as one-character strings. *)
Definition quote : string := String "034" EmptyString.
Definition newline : string := String "010" EmptyString.

(** [s.replace(/c/g, r)] for a one-character pattern. *)
Fixpoint replaceAll (c : ascii) (r : string) (s : string) : string :=
  match s with
  | EmptyString => EmptyString
  | String a s' =>
      ((if Ascii.eqb a c then r else String a EmptyString)
       ++ replaceAll c r s')%string
  end.

(** [escapeXML(str)] *)
Definition escapeXML (str : string) : string :=
  if negb (truthy str) then ""
  else
    replaceAll "'" "&apos;"
      (replaceAll "034" "&quot;"
         (replaceAll ">" "&gt;"
            (replaceAll "<" "&lt;"
               (replaceAll "&" "&amp;" str)))).

(** A page as [getSitemap] reads it from the [pages] table is a
    [PageRecord] without an id. *)

Section Generated.

(** The day of the call, [new Date().toISOString().split('T')[0]], and the
    time of the call, [new Date().toISOString()]. *)
Variable today : string.
Variable now : string.

(** [calculatePriority(depth)], a floating-point computation printed by
    [toFixed(1)]. *)
Variable calculatePriority : Z -> string.

(** [generateXMLSitemap(pages, baseUrl)]; [None] when [new URL(baseUrl)]
    throws. *)
Definition generateXMLSitemap (pages : list PageRecord) (baseUrl : string)
  : option string :=
  match Url.parse baseUrl with
  | None => None
  | Some url =>
      let xml :=
        ("<?xml version=" ++ quote ++ "1.0" ++ quote ++ " encoding="
         ++ quote ++ "UTF-8" ++ quote ++ "?>" ++ newline)%string in
      let xml :=
        (xml ++ "<urlset xmlns=" ++ quote
         ++ "http://www.sitemaps.org/schemas/sitemap/0.9" ++ quote ++ ">"
         ++ newline)%string in
      let xml :=
        fold_left
          (fun xml page =>
             let xml := (xml ++ "  <url>" ++ newline)%string in
             let xml := (xml ++ "    <loc>" ++ escapeXML (page_url page)
                         ++ "</loc>" ++ newline)%string in
             let xml := (xml ++ "    <lastmod>" ++ today ++ "</lastmod>"
                         ++ newline)%string in
             let xml := (xml ++ "    <changefreq>weekly</changefreq>"
                         ++ newline)%string in
             let xml := (xml ++ "    <priority>"
                         ++ calculatePriority (page_depth page)
                         ++ "</priority>" ++ newline)%string in
             (xml ++ "  </url>" ++ newline)%string)
          pages xml in
      Some (xml ++ "</urlset>")%string
  end.

(** An element of [cleanedPages] in [generateJSONSitemap]. *)
Record JsonPage : Type := mkJsonPage {
  json_url : string;
  json_title : string;
  json_depth : Z;
  json_parentUrl : option string
}.

Record JsonSitemap : Type := mkJsonSitemap {
  json_version : string;
  json_totalPages : nat;
  json_generatedAt : string;
  json_pages : list JsonPage
}.

(** The title [generateJSONSitemap] derives from a URL: the [try] block,
    with ['Page'] as its [catch] branch.  Unlike the crawler it has no case
    for a hash that is not a route. *)
Definition titleOf (url : string) : string :=
  match Url.parse url with
  | None => "Page"
  | Some urlObj =>
      let hash := drop 1 (Url.hash urlObj) in
      let pathParts := filter truthy (split "/" (Url.pathname urlObj)) in
      if truthy hash && startsWith hash "/" then
        orElse (humanize (last (split "/" (drop 1 hash)) "")) "Page"
      else
        match pathParts with
        | [] => "Home"
        | _ => humanize (last pathParts "")
        end
  end.

(** [generateJSONSitemap(pages)] *)
Definition generateJSONSitemap (pages : list PageRecord) : JsonSitemap :=
  let cleanedPages :=
    map (fun page =>
           let title := page_title page in
           let title :=
             if negb (truthy title) || String.eqb title "ERROR: Error"
                || String.eqb title "Error" || String.eqb title "ERROR"
             then titleOf (page_url page) else title in
           {| json_url := page_url page; json_title := title;
              json_depth := page_depth page;
              json_parentUrl := page_parentUrl page |})
        pages in
  {| json_version := "1.0";
     json_totalPages := length cleanedPages;
     json_generatedAt := now;
     json_pages := cleanedPages |}.

End Generated.

Section Diagram.

(** The box-drawing strings of the source: the connector of a last entry,
    the connector of any other entry, the continuation of the prefix below
    an entry that is not the last, and the page symbol. *)
Variable elbow : string.
Variable tee : string.
Variable pipe : string.
Variable icon : string.

(** [{ ...page, children: [] }], the node a page gets in [pageMap]. *)
Definition asNode (page : PageRecord) : CleanPage :=
  {| clean_id := page_id page;
     clean_url := page_url page;
     clean_title := page_title page;
     clean_depth := page_depth page;
     clean_parentUrl := page_parentUrl page;
     clean_status := "" |}.

(** [list.forEach((x, idx) => { output += f(x, idx === list.length - 1) })],
    from the empty output. *)
Fixpoint forEachLast (f : string -> bool -> option string) (l : list string)
  : option string :=
  match l with
  | [] => Some ""
  | k :: rest =>
      match f k (match rest with [] => true | _ => false end) with
      | Some a =>
          match forEachLast f rest with
          | Some b => Some (a ++ b)%string
          | None => None
          end
      | None => None
      end
  end.

(** [buildTreeTextFromNode(node, prefix, isLast)], the node given by its
    key; a missing node gives the empty text.  [fuel] bounds the depth of
    the recursion along the [children] arrays. *)
Fixpoint buildTreeTextFromNode (fuel : nat) (pageMap : PageMap) (ref : string)
    (prefix : string) (isLast : bool) : option string :=
  match fuel with
  | O => None
  | S fuel' =>
      match mapGet pageMap ref with
      | None => Some ""
      | Some node =>
          let p := node_page node in
          let title :=
            if truthy (clean_title p)
               && negb (String.eqb (clean_title p) "ERROR: Error")
               && negb (String.eqb (clean_title p) "Error")
               && negb (String.eqb (clean_title p) "ERROR")
            then clean_title p else titleOf (clean_url p) in
          let connector := if isLast then elbow else tee in
          let output :=
            (prefix ++ connector ++ icon ++ " " ++ title ++ newline)%string in
          let output :=
            (output ++ prefix ++ (if isLast then "    " else pipe)
             ++ "   " ++ clean_url p ++ newline)%string in
          let childPrefix :=
            (prefix ++ (if isLast then "    " else pipe))%string in
          match forEachLast (fun child isLastChild =>
                               buildTreeTextFromNode fuel' pageMap child
                                                     childPrefix isLastChild)
                            (node_children node) with
          | Some below => Some (output ++ below)%string
          | None => None
          end
      end
  end.

(** [generateTreeDiagram(pages, baseUrl)]; a missing argument is [None].
    [Thrown] is the error of [new URL(baseUrl)]. *)
Definition generateTreeDiagram (fuel : nat) (pages : option (list PageRecord))
    (baseUrl : string) : Playwright.Outcome string :=
  match pages with
  | None | Some [] =>
      Playwright.Returned
        (baseUrl ++ newline ++ elbow ++ "(No pages found)")%string
  | Some pages =>
      match Url.parse baseUrl with
      | None => Playwright.Thrown
      | Some url =>
          let base := Url.origin url in
          let (pageMap, rootNodes) := attachAll (map asNode pages) in
          let output := (base ++ newline)%string in
          match forEachLast (fun node isLast =>
                               buildTreeTextFromNode fuel pageMap node ""
                                                     isLast)
                            rootNodes with
          | Some text => Playwright.Returned (output ++ text)%string
          | None => Playwright.OutOfFuel
          end
      end
  end.

End Diagram.

End SitemapGenerator.

(** ** The AI processor ([ai/aiProcessor]) *)

Module AiProcessor.

(** A JavaScript value as [JSON.parse] and the database driver produce it,
    and [undefined].  The fields of an object are in property order and
    have pairwise distinct keys. *)
#[local] Unset Elimination Schemes.
Inductive JsValue : Type :=
| JUndefined
| JNull
| JBool (b : bool)
| JNum (n : Z)
| JStr (s : string)
| JArr (items : list JsValue)
| JObj (fields : list (string * JsValue)).

#[local] Set Elimination Schemes.

(** Truthiness. *)
Definition isTruthy (v : JsValue) : bool :=
  match v with
  | JUndefined | JNull => false
  | JBool b => b
  | JNum n => negb (n =? 0)%Z
  | JStr s => truthy s
  | JArr _ | JObj _ => true
  end.

(** [a || b] *)
Definition orValue (a b : JsValue) : JsValue := if isTruthy a then a else b.

Fixpoint lookup (fields : list (string * JsValue)) (k : string) : JsValue :=
  match fields with
  | [] => JUndefined
  | (k', v) :: fields' => if String.eqb k k' then v else lookup fields' k
  end.

(** [v.k] for a key [k] that is no index, no [length] and no method:
    [None] is the [TypeError] of a property access on [null] or
    [undefined]. *)
Definition getProp (v : JsValue) (k : string) : option JsValue :=
  match v with
  | JUndefined | JNull => None
  | JObj fields => Some (lookup fields k)
  | _ => Some JUndefined
  end.

(** The elements of an array or the characters of a string, under their
    indices from [i] on. *)
Fixpoint indexedFrom {A : Type} (i : nat) (l : list A) : list (string * A) :=
  match l with
  | [] => []
  | x :: l' => (natToString i, x) :: indexedFrom (S i) l'
  end.

Fixpoint chars (s : string) : list JsValue :=
  match s with
  | EmptyString => []
  | String a s' => JStr (String a EmptyString) :: chars s'
  end.

(** [Object.entries(v)]; [None] is the [TypeError] on [null] and
    [undefined].  A string has one entry per character, an array one per
    element, a number or a boolean none. *)
Definition entries (v : JsValue) : option (list (string * JsValue)) :=
  match v with
  | JUndefined | JNull => None
  | JBool _ | JNum _ => Some []
  | JStr s => Some (indexedFrom 0 (chars s))
  | JArr items => Some (indexedFrom 0 items)
  | JObj fields => Some fields
  end.

(** The result of [compressNode]. *)
#[local] Unset Elimination Schemes.
Inductive Compressed : Type :=
| CNode (count depth : JsValue) (children : list (string * Compressed)).

#[local] Set Elimination Schemes.

Definition c_count (c : Compressed) : JsValue :=
  match c with CNode n _ _ => n end.
Definition c_depth (c : Compressed) : JsValue :=
  match c with CNode _ d _ => d end.
Definition c_children (c : Compressed) : list (string * Compressed) :=
  match c with CNode _ _ ch => ch end.

(** The [for] loop of [compressNode] over the entries of the node, with the
    recursive call as [compress]: the first call that does not return ends
    the loop. *)
Fixpoint compressEntries
    (compress : JsValue -> string -> Playwright.Outcome Compressed)
    (path : string) (es : list (string * JsValue))
  : Playwright.Outcome (list (string * Compressed)) :=
  match es with
  | [] => Playwright.Returned []
  | (key, value) :: es' =>
      if startsWith key "_" then compressEntries compress path es'
      else
        let newPath := if truthy path then (path ++ "/" ++ key)%string
                       else ("/" ++ key)%string in
        match compress value newPath with
        | Playwright.Returned c =>
            match compressEntries compress path es' with
            | Playwright.Returned cs => Playwright.Returned ((key, c) :: cs)
            | Playwright.Thrown => Playwright.Thrown
            | Playwright.OutOfFuel => Playwright.OutOfFuel
            end
        | Playwright.Thrown => Playwright.Thrown
        | Playwright.OutOfFuel => Playwright.OutOfFuel
        end
  end.

(** [compressNode(node, path)].  [fuel] is the depth of recursion that the
    call stack allows; [OutOfFuel] is the [RangeError] of a stack that is
    used up, [Thrown] a [TypeError]. *)
Fixpoint compressNode (fuel : nat) (node : JsValue) (path : string)
  : Playwright.Outcome Compressed :=
  match fuel with
  | O => Playwright.OutOfFuel
  | S fuel' =>
      match getProp node "_count", getProp node "_depth", entries node with
      | Some count, Some depth, Some es =>
          match compressEntries (compressNode fuel') path es with
          | Playwright.Returned children =>
              Playwright.Returned
                (CNode (orValue count (JNum 0)) (orValue depth (JNum 0))
                       children)
          | Playwright.Thrown => Playwright.Thrown
          | Playwright.OutOfFuel => Playwright.OutOfFuel
          end
      | _, _, _ => Playwright.Thrown
      end
  end.

(** [compressSitemap(sitemap)] *)
Definition compressSitemap (stack : nat) (sitemap : JsValue)
  : Playwright.Outcome Compressed :=
  compressNode stack sitemap "".

Record Chunk : Type := mkChunk {
  chunk_path : string;
  chunk_structure : Compressed
}.

(** [chunkSitemap(compressed)] *)
Definition chunkSitemap (compressed : Compressed) : list Chunk :=
  let chunks :=
    map (fun entry => {| chunk_path := ("/" ++ fst entry)%string;
                         chunk_structure := snd entry |})
        (c_children compressed) in
  match chunks with
  | [] => [{| chunk_path := "/"; chunk_structure := compressed |}]
  | _ => chunks
  end.

Record Recommendation : Type := mkRecommendation {
  rec_category : JsValue;
  rec_before : JsValue;
  rec_after : JsValue;
  rec_explanation : JsValue
}.

(** What [for (const opt of v)] iterates over; [None] is the [TypeError] of
    a value that is not iterable. *)
Definition iterate (v : JsValue) : option (list JsValue) :=
  match v with
  | JArr items => Some items
  | JStr s => Some (chars s)
  | _ => None
  end.

(** One turn of the loop of [extractRecommendations]. *)
Definition recommend (opt : JsValue) : option Recommendation :=
  match getProp opt "category", getProp opt "before", getProp opt "after",
        getProp opt "explanation" with
  | Some category, Some before, Some after, Some explanation =>
      Some {| rec_category := orValue category (JStr "GENERAL");
              rec_before := before;
              rec_after := after;
              rec_explanation :=
                orValue explanation (JStr "AI-optimized structure") |}
  | _, _, _, _ => None
  end.

(** [extractRecommendations(globalPlan)]; [None] is a [TypeError]. *)
Definition extractRecommendations (globalPlan : JsValue)
  : option (list Recommendation) :=
  match getProp globalPlan "optimizations" with
  | None => None
  | Some optimizations =>
      if isTruthy optimizations then
        match iterate optimizations with
        | None => None
        | Some opts => sequence (map recommend opts)
        end
      else Some []
  end.

(** The two stages that ask the language model.  [analyzeChunk] catches
    every error of its request and always returns a value; [mergeInsights]
    may throw ([None]) before its [try]. *)
Record Oracle : Type := mkOracle {
  analyzeChunk : Chunk -> JsValue;
  mergeInsights : list JsValue -> Compressed -> option JsValue
}.

(** [processSitemap(jobId, sitemap)]: the recommendations of the returned
    object.  Every error of the stages is caught and gives the empty
    list. *)
Definition processSitemap (stack : nat) (ai : Oracle) (sitemap : JsValue)
  : list Recommendation :=
  match compressSitemap stack sitemap with
  | Playwright.Returned compressed =>
      let chunks := chunkSitemap compressed in
      let chunkInsights := map (analyzeChunk ai) chunks in
      match mergeInsights ai chunkInsights compressed with
      | Some globalPlan =>
          match extractRecommendations globalPlan with
          | Some recommendations => recommendations
          | None => []
          end
      | None => []
      end
  | _ => []
  end.

(** The sitemap as the route reads it back from the [sitemaps] table: the
    JSON text of the tree the worker has stored, with the fields in the
    order in which [buildNode] sets them.  The id of a record is a string,
    as in [PageRecord]. *)
Fixpoint toJson (t : SitemapNode) : JsValue :=
  match t with
  | Node id url title depth status children =>
      JObj ([("id", JStr id); ("url", JStr url); ("title", JStr title);
             ("depth", JNum depth); ("status", JStr status)]
            ++ match children with
               | None => []
               | Some kids => [("children", JArr (map toJson kids))]
               end)
  end.

End AiProcessor.

(** * The vocabulary of the statements *)

(** ** URLs *)

Definition knownScheme (sch : string) : Prop := sch = "https" \/ sch = "http".

(** A parsed URL is well formed: a known scheme, a valid host, a path that
    begins with a slash, and no part holds the delimiter of a later part. *)
Record wellFormed (u : Url.URL) : Prop := mkWf {
  wf_scheme : knownScheme (Url.scheme u);
  wf_host : Url.validHost (Url.hostname u) = true;
  wf_path : exists p, Url.pathname u = String "/" p /\
                      lacks "?" p = true /\ lacks "#" p = true;
  wf_query : forall q, Url.query u = Some q -> lacks "#" q = true
}.

(** The parser accepts the string. *)
Definition parses (u : string) : Prop := Url.parse u <> None.

(** ** The input of the tree builder *)

(** Whether the [parentUrl] of a page names a page of the input. *)
Definition hasParent (pages : list PageRecord) (p : PageRecord) : bool :=
  match page_parentUrl p with
  | Some q => truthy q && existsb (String.eqb q) (map page_url pages)
  | None => false
  end.

(** The top-level records: the root candidates and the orphans. *)
Definition topLevel (pages : list PageRecord) : list PageRecord :=
  filter (fun p => negb (hasParent pages p)) pages.

(** The records attached below the URL [k]. *)
Definition attachedTo (pages : list PageRecord) (k : string)
  : list PageRecord :=
  filter (fun p => hasParent pages p &&
                   match page_parentUrl p with
                   | Some q => String.eqb q k
                   | None => false
                   end) pages.

(** The parent references are acyclic: some rank decreases along each. *)
Definition acyclicBy (rank : string -> nat) (pages : list PageRecord) : Prop :=
  forall p q, In p pages -> page_parentUrl p = Some q -> hasParent pages p = true ->
              rank q < rank (page_url p).

(** The record nodes of a returned tree: the tree itself when it is the one
    top-level node, the children of the synthesized root otherwise. *)
Definition recordNodes (pages : list PageRecord) (t : SitemapNode)
  : list SitemapNode :=
  match topLevel pages with
  | [_] => [t]
  | _ => sn_children t
  end.

(** The parent reference of the record stored under a URL. *)
Definition parOf (pages : list PageRecord) (c : string) : option string :=
  match find (fun p => String.eqb (page_url p) c) pages with
  | Some p => if hasParent pages p then page_parentUrl p else None
  | None => None
  end.

(** ** [pageMap] during and after the attachment pass *)

Definition addChildren (cs : list string) (n : PageNode) : PageNode :=
  {| node_page := node_page n; node_children := node_children n ++ cs |}.

Definition childrenOf (m : PageMap) (k : string) : list string :=
  match mapGet m k with
  | Some n => node_children n
  | None => []
  end.

(** The parent of a page as the attachment pass sees it. *)
Definition parentRefIn (m : PageMap) (p : CleanPage) : option string :=
  match clean_parentUrl p with
  | Some q => if truthy q && mapHas m q then Some q else None
  | None => None
  end.

Definition refIs (k : string) (r : option string) : bool :=
  match r with
  | Some q => String.eqb q k
  | None => false
  end.

Definition refNone (r : option string) : bool :=
  match r with
  | Some _ => false
  | None => true
  end.

(** Every node of the fresh map is stored under its own URL and has no
    children yet. *)
Definition freshNodes (m : PageMap) : Prop :=
  forall k n, mapGet m k = Some n ->
              clean_url (node_page n) = k /\ node_children n = [].

(** [pageMap] after both passes. *)
Definition attachedMap (pages : list PageRecord) : PageMap :=
  let cleanedPages := cleanPages pages in
  fst (fold_left (attach (findRootPage cleanedPages)) cleanedPages
                 (buildPageMap cleanedPages, [])).

(** The [url] of the synthesized root. *)
Definition rootUrl (pages : list PageRecord) : string :=
  let cleanedPages := cleanPages pages in
  match findRootPage cleanedPages with
  | Some r => orElse (clean_url r)
                (match cleanedPages with
                 | p :: _ => orElse (clean_url p) ""
                 | [] => ""
                 end)
  | None => match cleanedPages with
            | p :: _ => orElse (clean_url p) ""
            | [] => ""
            end
  end.

(** ** Forests given by parent references

    The [children] arrays after the attachment pass hold, for every key,
    the keys whose parent it is; the top-level keys are those with no
    parent. *)

Section ForestDefs.

Variable kids : string -> list string.

(** The keys a [buildNode] recursion of depth [fuel] meets below [k], in
    preorder. *)
Fixpoint walk (fuel : nat) (k : string) : list string :=
  match fuel with
  | O => []
  | S fuel' => k :: flat_map (walk fuel') (kids k)
  end.

(** The same keys, generation by generation. *)
Fixpoint levels (fuel : nat) (l : list string) : list string :=
  match fuel with
  | O => []
  | S fuel' => l ++ levels fuel' (flat_map kids l)
  end.

Variable ks : list string.
Variable par : string -> option string.
Variable rank : string -> nat.

Definition parIs (k c : string) : bool :=
  match par c with
  | Some q => String.eqb q k
  | None => false
  end.

Definition parIn (l : list string) (c : string) : bool :=
  match par c with
  | Some q => existsb (String.eqb q) l
  | None => false
  end.

Definition isRoot (c : string) : bool :=
  match par c with
  | Some _ => false
  | None => true
  end.

(** The number of parent links above a key, followed for [n] steps. *)
Fixpoint depthWithin (n : nat) (k : string) : nat :=
  match n with
  | O => 0
  | S n' =>
      match par k with
      | None => 0
      | Some q => S (depthWithin n' q)
      end
  end.

Definition depthOf (k : string) : nat := depthWithin (rank k) k.

(** The generations, from the top-level keys down. *)
Fixpoint generation (j : nat) : list string :=
  match j with
  | O => filter isRoot ks
  | S j' => flat_map kids (generation j')
  end.

End ForestDefs.

(** ** The states of the Playwright traversal *)

(** Every URL the state holds is accepted by the parser. *)
Record allParse (st : Playwright.CrawlState) : Prop := mkAllParse {
  ap_visited : Forall parses (Playwright.visited st);
  ap_queue : Forall parses (map Playwright.item_url (Playwright.queue st));
  ap_pages : Forall parses (map page_url (Playwright.pages st));
  ap_rows : Forall parses (map Playwright.row_url (Playwright.rows st))
}.

(** ** Inputs of the examples *)

Definition twoRoots : list PageRecord :=
  [ mkPage "1" "https://a.com" 0 None "Home";
    mkPage "2" "https://a.com/blog" 0 None "Blog";
    mkPage "3" "https://a.com/blog/post" 1 (Some "https://a.com/blog") "Post" ].

Definition smallSite : list PageRecord :=
  [ mkPage "1" "https://a.com" 0 None "Home";
    mkPage "2" "https://a.com/a" 1 (Some "https://a.com") "A";
    mkPage "3" "https://a.com/a/b" 2 (Some "https://a.com/a") "B";
    mkPage "4" "https://a.com/lost" 2 (Some "https://a.com/gone") "Lost" ].

(** A site whose home page links to six pages. *)
Definition fanOutWorld : Playwright.World :=
  {| Playwright.navigate := fun u =>
       if String.eqb u "https://a.com"
       then Playwright.Loaded "Home"
              ["https://a.com/p1"; "https://a.com/p2"; "https://a.com/p3";
               "https://a.com/p4"; "https://a.com/p5"; "https://a.com/p6"]
       else Playwright.Loaded "Page" [];
     Playwright.insertPage := fun r => Some (Playwright.row_url r) |}.

Definition fanOutJob : Playwright.Job :=
  {| Playwright.domain := "a.com"; Playwright.maxDepth := 3;
     Playwright.maxPages := 2 |}.

(** A site on which every navigation times out. *)
Definition timeoutWorld : Playwright.World :=
  {| Playwright.navigate := fun _ =>
       Playwright.Failed "page.goto: Timeout 15000ms exceeded.";
     Playwright.insertPage := fun _ => Some "1" |}.

Definition plainJob : Playwright.Job :=
  {| Playwright.domain := "a.com"; Playwright.maxDepth := 3;
     Playwright.maxPages := 500 |}.

(** The row the Puppeteer [catch] block stores for a failed page. *)
Definition errorRow (item : Puppeteer.QueueItem) (normalizedUrl : string)
    (error : Puppeteer.JsError) : Puppeteer.PageRow :=
  {| Puppeteer.row_url := normalizedUrl;
     Puppeteer.row_depth := Puppeteer.item_depth item;
     Puppeteer.row_parentUrl := Puppeteer.item_parentUrl item;
     Puppeteer.row_title :=
       ("ERROR: " ++ orElse (Puppeteer.error_name error) "UnknownError")%string;
     Puppeteer.row_statusCode := Puppeteer.errorStatus error |}.

(** ** What the Playwright traversal keeps *)

(** The row written for a page record. *)
Definition rowOf (p : PageRecord) : Playwright.PageRow :=
  Playwright.mkRow (page_url p) (page_depth p) (page_parentUrl p)
                   (page_title p) 200.

(** The state is tidy: no URL is visited twice, every page record has its
    own visited URL, a depth within the limit and a title, the stored rows
    are the page records, and no queued item has a negative depth. *)
Record tidy (maxDepth : Z) (st : Playwright.CrawlState) : Prop := mkTidy {
  tidy_visited : NoDup (Playwright.visited st);
  tidy_pages : NoDup (map page_url (Playwright.pages st));
  tidy_incl : incl (map page_url (Playwright.pages st)) (Playwright.visited st);
  tidy_rows : Playwright.rows st = map rowOf (Playwright.pages st);
  tidy_depth :
    Forall (fun p => (0 <= page_depth p <= maxDepth)%Z) (Playwright.pages st);
  tidy_title :
    Forall (fun p => truthy (page_title p) = true) (Playwright.pages st);
  tidy_queue :
    Forall (fun it => (0 <= Playwright.item_depth it)%Z) (Playwright.queue st)
}.

(** The depths are linked: [dm] gives every visited URL the depth at which
    it was dispatched, a page record has the depth of its URL, and a page
    record or queued item lies one level below its parent, or at depth [0]
    when it has none. *)
Record linked (maxDepth : Z) (dm : string -> Z) (st : Playwright.CrawlState)
  : Prop := mkLinked {
  lk_visited : forall u, In u (Playwright.visited st) ->
      (0 <= dm u <= maxDepth)%Z;
  lk_pages : forall p, In p (Playwright.pages st) ->
      dm (page_url p) = page_depth p /\
      match page_parentUrl p with
      | Some q => In q (Playwright.visited st) /\ page_depth p = (dm q + 1)%Z
      | None => page_depth p = 0%Z
      end;
  lk_queue : forall it, In it (Playwright.queue st) ->
      match Playwright.item_parentUrl it with
      | Some q => In q (Playwright.visited st) /\
                  Playwright.item_depth it = (dm q + 1)%Z
      | None => Playwright.item_depth it = 0%Z
      end
}.

(** What the job [j] of a batch contributes: page records for its URL at its
    depth, queue items one level below it. *)
Definition pageOfJob (j : Playwright.QueueItem * string) (p : PageRecord)
  : Prop :=
  page_url p = snd j /\ page_depth p = Playwright.item_depth (fst j) /\
  page_parentUrl p = Playwright.item_parentUrl (fst j) /\
  truthy (page_title p) = true.

Definition itemOfJob (md : Z) (base : string)
    (j : Playwright.QueueItem * string) (it : Playwright.QueueItem) : Prop :=
  Playwright.item_depth it = (Playwright.item_depth (fst j) + 1)%Z /\
  Playwright.item_parentUrl it = Some (snd j) /\
  (Playwright.item_depth (fst j) < md)%Z /\
  Playwright.sameDomain (Playwright.item_url it) base = true.

(** The depth at which a URL was dispatched, after a batch. *)
Definition depthAfter (dm : string -> Z)
    (started : list (Playwright.QueueItem * string)) (u : string) : Z :=
  match find (fun j => String.eqb (snd j) u) started with
  | Some j => Playwright.item_depth (fst j)
  | None => dm u
  end.

(** A URL of the crawled site: it has the host name of the seed. *)
Definition onSite (base : string) (u : string) : Prop :=
  Playwright.sameDomain u base = true.

(** The crawl has stayed on the site: every visited URL has the host name of
    the seed, and so has every queued URL but the seed itself, which is
    parsed when it is dispatched. *)
Record staysOnSite (base : string) (st : Playwright.CrawlState) : Prop :=
  mkStays {
  on_visited : Forall (onSite base) (Playwright.visited st);
  on_queue : Forall (fun it => Playwright.item_url it = base \/
                               onSite base (Playwright.item_url it))
                    (Playwright.queue st)
}.

(** ** The states of the Puppeteer traversal *)

(** The row the Puppeteer loop writes for a page record. *)
Definition storedRow (p : PageRecord) : Puppeteer.PageRow :=
  Puppeteer.mkRow (page_url p) (page_depth p) (page_parentUrl p)
                  (page_title p) 200.

(** The synthetic status codes of the [catch] block. *)
Definition isErrorStatus (code : Z) : Prop :=
  code = 403%Z \/ code = 408%Z \/ code = 0%Z.

Definition isOk (r : Puppeteer.PageRow) : bool :=
  (Puppeteer.row_statusCode r =? 200)%Z.

(** No URL has two page records, every page record has a visited URL and a
    depth within the limit, the rows with status [200] are the page
    records, and every other row has a synthetic status. *)
Record kept (maxDepth : Z) (st : Puppeteer.CrawlState) : Prop := mkKept {
  kept_pages : NoDup (map page_url (Puppeteer.pages st));
  kept_incl : incl (map page_url (Puppeteer.pages st)) (Puppeteer.visited st);
  kept_depth :
    Forall (fun p => (0 <= page_depth p <= maxDepth)%Z) (Puppeteer.pages st);
  kept_queue :
    Forall (fun it => (0 <= Puppeteer.item_depth it)%Z) (Puppeteer.queue st);
  kept_rows :
    filter isOk (Puppeteer.rows st) = map storedRow (Puppeteer.pages st);
  kept_status :
    Forall (fun r => Puppeteer.row_statusCode r = 200%Z \/
                     isErrorStatus (Puppeteer.row_statusCode r))
           (Puppeteer.rows st)
}.

(** A site with a page that times out. *)
Definition patchyWorld : Puppeteer.World :=
  {| Puppeteer.robots := None;
     Puppeteer.fetch := fun u =>
       if String.eqb u "https://a.com"
       then Puppeteer.Fetched "Home" ["https://a.com/x"; "https://a.com/y";
                                      "https://b.org/z"]
       else if String.eqb u "https://a.com/x"
       then Puppeteer.Threw
              (Puppeteer.mkError "TimeoutError"
                 "Navigation timeout of 30000 ms exceeded")
       else Puppeteer.Fetched "Y" ["https://a.com/x"];
     Puppeteer.insertPage := fun r =>
       Puppeteer.Inserted (Puppeteer.row_url r) |}.

(** ** The nodes of a tree *)

(** The nodes of a tree, in preorder. *)
Fixpoint tree_nodes (n : SitemapNode) : list SitemapNode :=
  match n with
  | Node _ _ _ _ _ ch =>
      n :: match ch with
           | None => []
           | Some l => flat_map tree_nodes l
           end
  end.

(** A node is labelled: it has an id, a title and the status ["ok"]. *)
Definition labelled (n : SitemapNode) : Prop :=
  sn_id n <> "" /\ sn_title n <> "" /\ sn_status n = "ok".

(** A node carries a record of the input: its URL and depth, its id when
    it has one, and its title unless that is missing or an error title. *)
Definition carries (pages : list PageRecord) (n : SitemapNode) : Prop :=
  exists p, In p pages /\ sn_url n = page_url p /\
            sn_depth n = page_depth p /\
            (page_id p <> "" -> sn_id n = page_id p) /\
            (isErrorTitle (page_title p) = false ->
             sn_title n = page_title p).

(** ** Cyclic parent references *)

(** The URLs [cyc] are closed under "has a child": every one of them is the
    URL of a record and the parent of a record whose URL is among them. *)
Definition parentCycle (pages : list PageRecord) (cyc : list string) : Prop :=
  forall k, In k cyc ->
    exists p, In p pages /\ In (page_url p) cyc /\
              page_parentUrl p = Some k /\ hasParent pages p = true.

(** Two records that name each other as parent. *)
Definition mutualPages : list PageRecord :=
  [ mkPage "1" "https://a.com/a" 1 (Some "https://a.com/b") "A";
    mkPage "2" "https://a.com/b" 1 (Some "https://a.com/a") "B" ].

(** ** The text of the XML sitemap *)

(** The entity, or the character itself, that stands for a character. *)
Definition escapeChar (a : ascii) : string :=
  if Ascii.eqb a "&" then "&amp;"
  else if Ascii.eqb a "<" then "&lt;"
  else if Ascii.eqb a ">" then "&gt;"
  else if Ascii.eqb a "034" then "&quot;"
  else if Ascii.eqb a "'" then "&apos;"
  else String a EmptyString.

(** Every character replaced by what stands for it. *)
Fixpoint escapeEach (s : string) : string :=
  match s with
  | EmptyString => EmptyString
  | String a s' => (escapeChar a ++ escapeEach s')%string
  end.

(** How often a character occurs in a string. *)
Fixpoint countChar (c : ascii) (s : string) : nat :=
  match s with
  | EmptyString => 0
  | String a s' => (if Ascii.eqb a c then 1 else 0) + countChar c s'
  end.

(** ** The input of the AI processor *)

(** A directory tree: an object whose fields, those with an underscore key
    apart, are directory trees. *)
Fixpoint isDirectory (v : AiProcessor.JsValue) : bool :=
  match v with
  | AiProcessor.JObj fields =>
      forallb (fun kv : string * AiProcessor.JsValue => let (k, x) := kv in
                         startsWith k "_" || isDirectory x) fields
  | _ => false
  end.

(** The depth of nesting of a value. *)
Fixpoint height (v : AiProcessor.JsValue) : nat :=
  match v with
  | AiProcessor.JObj fields =>
      S (list_max (map (fun kv : string * AiProcessor.JsValue =>
                          let (k, x) := kv in height x) fields))
  | _ => 0
  end.

(** The keys that [compressNode] follows. *)
Definition subdirectories (v : AiProcessor.JsValue) : list string :=
  match v with
  | AiProcessor.JObj fields =>
      filter (fun k => negb (startsWith k "_")) (map fst fields)
  | _ => []
  end.

(** A sitemap in the directory format. *)
Definition directorySitemap : AiProcessor.JsValue :=
  AiProcessor.JObj
    [("_count", AiProcessor.JNum 4); ("_depth", AiProcessor.JNum 0);
     ("blog", AiProcessor.JObj
                [("_count", AiProcessor.JNum 2);
                 ("_depth", AiProcessor.JNum 1);
                 ("posts", AiProcessor.JObj
                             [("_count", AiProcessor.JNum 1);
                              ("_depth", AiProcessor.JNum 2)])]);
     ("about", AiProcessor.JObj [("_count", AiProcessor.JNum 1);
                                 ("_depth", AiProcessor.JNum 1)])].

(** ** The tree diagram *)

(** [pageMap] of [generateTreeDiagram] after both passes. *)
Definition diagramMap (pages : list PageRecord) : PageMap :=
  let nodes := map SitemapGenerator.asNode pages in
  fst (fold_left (attach (findRootPage nodes)) nodes
                 (buildPageMap nodes, [])).

(** The line of the diagram that shows a URL, without its prefix. *)
Definition urlLine (u : string) : string :=
  ("   " ++ u ++ SitemapGenerator.newline)%string.

(** ** The shape of a returned tree *)

(** A node shows its record: it carries a record of the input, it is
    labelled, and its children are the records attached to its URL, in the
    order of the input. *)
Definition nodeOf (pages : list PageRecord) (n : SitemapNode) : Prop :=
  carries pages n /\ labelled n /\
  map sn_url (sn_children n) = map page_url (attachedTo pages (sn_url n)).

(** [rootNodes] when the tree is built: the top-level records or, when
    there is none, the first record. *)
Definition startUrls (pages : list PageRecord) : list string :=
  match map page_url (topLevel pages), pages with
  | [], p :: _ => [page_url p]
  | l, _ => l
  end.

(** The URLs [buildNode] is called on: those of [rootNodes] and of the
    records attached below them. *)
Inductive reached (pages : list PageRecord) : string -> Prop :=
| reached_top : forall k,
    In k (startUrls pages) -> reached pages k
| reached_child : forall k p,
    reached pages k -> In p (attachedTo pages k) ->
    reached pages (page_url p).

(** The records below [rootNodes] are well founded: some rank decreases
    from every reached URL to every record attached to it. *)
Definition descends (rank : string -> nat) (pages : list PageRecord) : Prop :=
  forall k p, reached pages k -> In p (attachedTo pages k) ->
              rank (page_url p) < rank k.

(** The number of levels of a tree. *)
Fixpoint tree_height (t : SitemapNode) : nat :=
  match t with
  | Node _ _ _ _ _ ch =>
      S (match ch with
         | None => 0
         | Some l => list_max (map tree_height l)
         end)
  end.

(** [d] parent links lead from [k] to a key without parent. *)
Fixpoint rootAt (par : string -> option string) (d : nat) (k : string)
  : Prop :=
  match d with
  | O => par k = None
  | S d' => exists q, par k = Some q /\ rootAt par d' q
  end.

(** The key [k] and up to [d] keys above it. *)
Fixpoint chainUp (par : string -> option string) (d : nat) (k : string)
  : list string :=
  k :: match d with
       | O => []
       | S d' => match par k with
                 | Some q => chainUp par d' q
                 | None => []
                 end
       end.

(** A home page and two records that name each other as parent. *)
Definition sideLoop : list PageRecord :=
  [ mkPage "1" "https://a.com" 0 None "Home";
    mkPage "2" "https://b.com/a" 1 (Some "https://b.com/b") "A";
    mkPage "3" "https://b.com/b" 1 (Some "https://b.com/a") "B" ].

(** No record is top-level, and the first record hangs below a cycle. *)
Definition belowLoop : list PageRecord :=
  [ mkPage "1" "https://a.com/c" 2 (Some "https://a.com/a") "C";
    mkPage "2" "https://a.com/a" 1 (Some "https://a.com/b") "A";
    mkPage "3" "https://a.com/b" 1 (Some "https://a.com/a") "B" ].

(** A URL met twice, the second time as its own parent. *)
Definition repeatedUrl : list PageRecord :=
  [ mkPage "1" "https://a.com" 0 None "Home";
    mkPage "2" "https://a.com/x" 1 (Some "https://a.com") "X";
    mkPage "3" "https://a.com/x" 2 (Some "https://a.com/x") "X" ].

(** ** Malformed URL strings *)









(** * Properties *)

(** ** Strings *)

Section StringFacts.

Local Open Scope string_scope.

Lemma append_empty_r (s : string) : s ++ "" = s.
Proof. induction s as [|a s IH]; simpl; [reflexivity | now rewrite IH]. Qed.

Lemma append_assoc' (a b c : string) : (a ++ b) ++ c = a ++ b ++ c.
Proof. induction a as [|x a IH]; simpl; [reflexivity | now rewrite IH]. Qed.

Lemma append_nonempty_r (a b : string) : b <> "" -> a ++ b <> "".
Proof. destruct a; simpl; [tauto | discriminate]. Qed.

Lemma startsWith_app (s p : string) : startsWith (p ++ s) p = true.
Proof.
  induction p as [|b p IH]; simpl; [reflexivity |].
  now rewrite Ascii.eqb_refl.
Qed.

Lemma startsWith_drop (s p : string) :
  startsWith s p = true -> s = p ++ drop (String.length p) s.
Proof.
  revert s; induction p as [|b p IH]; intros s H; simpl in *; [reflexivity |].
  destruct s as [|a s]; [discriminate |].
  destruct (Ascii.eqb_spec a b) as [->|]; [| discriminate].
  now rewrite <- IH.
Qed.

Lemma includes_app_r (a b p : string) :
  includes b p = true -> includes (a ++ b) p = true.
Proof.
  intros H; induction a as [|x a IH]; simpl; [exact H |].
  rewrite IH. apply orb_true_r.
Qed.

Lemma includes_startsWith (s p : string) :
  startsWith s p = true -> includes s p = true.
Proof. intros H; destruct s; cbn [includes]; rewrite H; reflexivity. Qed.

Lemma lacks_app (c : ascii) (a b : string) :
  lacks c (a ++ b) = lacks c a && lacks c b.
Proof.
  induction a as [|x a IH]; simpl; [reflexivity |].
  now rewrite IH, andb_assoc.
Qed.

Lemma cut_lacks (c : ascii) (s : string) :
  lacks c s = true -> cut c s = (s, None).
Proof.
  induction s as [|a s IH]; simpl; [reflexivity |].
  intros H; apply andb_true_iff in H as [Ha Hs].
  apply negb_true_iff in Ha; rewrite Ha, (IH Hs); reflexivity.
Qed.

Lemma cut_app (c : ascii) (a b : string) :
  lacks c a = true -> cut c (a ++ String c b) = (a, Some b).
Proof.
  induction a as [|x a IH]; simpl.
  - intros _; now rewrite Ascii.eqb_refl.
  - intros H; apply andb_true_iff in H as [Hx Ha].
    apply negb_true_iff in Hx; rewrite Hx, (IH Ha); reflexivity.
Qed.

(** What [cut] returns: the part before lacks the separator, and the parts
    put together again are the input. *)
Lemma cut_spec (c : ascii) (s l : string) (r : option string) :
  cut c s = (l, r) ->
  lacks c l = true /\
  s = l ++ match r with None => "" | Some t => String c t end.
Proof.
  revert l r; induction s as [|a s IH]; simpl; intros l r H.
  - inversion H; subst; split; reflexivity.
  - destruct (Ascii.eqb_spec a c) as [->|Hne].
    + inversion H; subst; split; reflexivity.
    + destruct (cut c s) as [l' r'] eqn:E.
      inversion H; subst.
      destruct (IH l' r eq_refl) as [Hl Hs].
      split.
      * simpl. rewrite Hl.
        destruct (Ascii.eqb_spec a c); [contradiction | reflexivity].
      * simpl. now rewrite <- Hs.
Qed.

Lemma dropTrailingSlash_app (a b : string) :
  b <> "" -> dropTrailingSlash (a ++ b) = a ++ dropTrailingSlash b.
Proof.
  intros Hb; induction a as [|x a IH]; [reflexivity |].
  simpl. rewrite <- IH.
  destruct (a ++ b) eqn:E; [| reflexivity].
  exfalso; revert E; now apply append_nonempty_r.
Qed.

Lemma dropTrailingSlash_id (s : string) :
  endsWithChar s "/" = false -> dropTrailingSlash s = s.
Proof.
  induction s as [|a s IH]; [reflexivity |].
  simpl. destruct s as [|b s].
  - intros ->; reflexivity.
  - intros H; now rewrite IH.
Qed.

Lemma endsWithChar_app (a b : string) (c : ascii) :
  b <> "" -> endsWithChar (a ++ b) c = endsWithChar b c.
Proof.
  intros Hb; induction a as [|x a IH]; [reflexivity |].
  simpl. rewrite <- IH.
  destruct (a ++ b) eqn:E; [| reflexivity].
  exfalso; revert E; now apply append_nonempty_r.
Qed.

Lemma lacks_dropTrailingSlash (c : ascii) (s : string) :
  lacks c s = true -> lacks c (dropTrailingSlash s) = true.
Proof.
  induction s as [|a s IH]; [reflexivity |].
  intros H. simpl in H. apply andb_true_iff in H as [Ha Hs].
  destruct s as [|b s].
  - simpl. destruct (Ascii.eqb a "/"); simpl; [reflexivity | now rewrite Ha].
  - change (dropTrailingSlash (String a (String b s)))
      with (String a (dropTrailingSlash (String b s))).
    cbn [lacks]. rewrite Ha. now apply IH.
Qed.

End StringFacts.

(** ** The URL class: what the parser returns and what it accepts *)

Section UrlFacts.

Local Open Scope string_scope.

Lemma isHostChar_not_delim (a : ascii) :
  Url.isHostChar a = true ->
  Ascii.eqb a "/" = false /\ Ascii.eqb a "?" = false /\ Ascii.eqb a "#" = false.
Proof.
  destruct a as [[] [] [] [] [] [] [] []]; cbv; intros H;
    (discriminate H || (repeat split; reflexivity)).
Qed.

Lemma allHostChars_lacks (h : string) :
  Url.allHostChars h = true ->
  lacks "/" h = true /\ lacks "?" h = true /\ lacks "#" h = true.
Proof.
  induction h as [|a h IH]; simpl; [auto |].
  intros H; apply andb_true_iff in H as [Ha Hh].
  destruct (isHostChar_not_delim a Ha) as (E1 & E2 & E3).
  destruct (IH Hh) as (L1 & L2 & L3).
  rewrite E1, E2, E3, L1, L2, L3; auto.
Qed.

Lemma validHost_chars (h : string) :
  Url.validHost h = true -> Url.allHostChars h = true.
Proof.
  unfold Url.validHost. intros H.
  apply andb_true_iff in H as [H _]. apply andb_true_iff in H as [H _].
  now apply andb_true_iff in H as [_ H].
Qed.

Lemma knownScheme_lacks (sch : string) :
  knownScheme sch -> lacks "?" sch = true /\ lacks "#" sch = true.
Proof. intros [-> | ->]; split; reflexivity. Qed.

Lemma splitScheme_app (sch rest : string) :
  knownScheme sch -> Url.splitScheme (sch ++ "://" ++ rest) = Some (sch, rest).
Proof. intros [-> | ->]; reflexivity. Qed.

Lemma splitScheme_inv (s sch rest : string) :
  Url.splitScheme s = Some (sch, rest) ->
  knownScheme sch /\ s = sch ++ "://" ++ rest.
Proof.
  unfold Url.splitScheme.
  destruct (startsWith s "https://") eqn:E1.
  - intros H; inversion H; subst; split; [now left |].
    now apply startsWith_drop in E1.
  - destruct (startsWith s "http://") eqn:E2; [| discriminate].
    intros H; inversion H; subst; split; [now right |].
    now apply startsWith_drop in E2.
Qed.

Lemma parse_wellFormed (s : string) (u : Url.URL) :
  Url.parse s = Some u -> wellFormed u.
Proof.
  unfold Url.parse.
  destruct (cut "#" s) as [s1 frag] eqn:E1.
  destruct (cut "?" s1) as [s2 qry] eqn:E2.
  destruct (Url.splitScheme s2) as [[sch rest]|] eqn:E3; [| discriminate].
  destruct (cut "/" rest) as [h p] eqn:E4.
  destruct (Url.validHost h) eqn:E5; [| discriminate].
  intros H; inversion H; subst; clear H.
  apply cut_spec in E1 as [L1 S1].
  apply cut_spec in E2 as [L2 S2].
  apply splitScheme_inv in E3 as [K S3].
  apply cut_spec in E4 as [L4 S4].
  assert (Hs2 : lacks "#" s2 = true /\
                lacks "#" match qry with None => "" | Some t => String "?" t end
                = true).
  { rewrite S2, lacks_app in L1. now apply andb_true_iff in L1. }
  destruct Hs2 as [Hs2 Hq].
  assert (Hrest : lacks "?" rest = true /\ lacks "#" rest = true).
  { rewrite S3 in L2, Hs2. rewrite !lacks_app in L2, Hs2.
    apply andb_true_iff in L2 as [_ L2]. apply andb_true_iff in L2 as [_ L2].
    apply andb_true_iff in Hs2 as [_ Hs2]. apply andb_true_iff in Hs2 as [_ Hs2].
    now split. }
  destruct Hrest as [R1 R2].
  constructor; simpl.
  - exact K.
  - exact E5.
  - destruct p as [p|].
    + exists p. split; [reflexivity |].
      rewrite S4, lacks_app in R1, R2.
      apply andb_true_iff in R1 as [_ R1]. apply andb_true_iff in R2 as [_ R2].
      simpl in R1, R2. now split.
    + exists "". repeat split.
  - intros q ->. simpl in Hq. exact Hq.
Qed.

(** The parser on a string put together from well-formed parts. *)
Lemma parse_build (sch h p : string) (frag : option string) :
  knownScheme sch -> Url.validHost h = true ->
  lacks "?" p = true -> lacks "#" p = true ->
  Url.parse (sch ++ "://" ++ h ++ String "/" p ++
             match frag with None => "" | Some f => String "#" f end)
  = Some {| Url.scheme := sch; Url.hostname := h;
            Url.pathname := String "/" p;
            Url.query := None; Url.fragment := frag |}.
Proof.
  intros K Hh Hq Hf.
  pose proof (validHost_chars h Hh) as Hc.
  destruct (allHostChars_lacks h Hc) as (H1 & H2 & H3).
  destruct (knownScheme_lacks sch K) as [K2 K3].
  set (body := sch ++ "://" ++ h ++ String "/" p).
  assert (Lh : lacks "#" body = true).
  { unfold body. rewrite !lacks_app. simpl. now rewrite K3, H3, Hf. }
  assert (Lq : lacks "?" body = true).
  { unfold body. rewrite !lacks_app. simpl. now rewrite K2, H2, Hq. }
  assert (E1 : cut "#" (sch ++ "://" ++ h ++ String "/" p ++
                 match frag with None => "" | Some f => String "#" f end)
               = (body, frag)).
  { destruct frag as [f|].
    - replace (sch ++ "://" ++ h ++ String "/" p ++ String "#" f)
        with (body ++ String "#" f).
      + now apply cut_app.
      + unfold body. now rewrite !append_assoc'.
    - rewrite append_empty_r. now apply cut_lacks. }
  unfold Url.parse. rewrite E1.
  rewrite (cut_lacks "?" body Lq).
  unfold body at 1. rewrite (splitScheme_app sch _ K).
  rewrite (cut_app "/" h p H1), Hh. reflexivity.
Qed.

(** The parser on an origin alone: the path is the root. *)
Lemma parse_origin (sch h : string) :
  knownScheme sch -> Url.validHost h = true ->
  Url.parse (sch ++ "://" ++ h)
  = Some {| Url.scheme := sch; Url.hostname := h; Url.pathname := "/";
            Url.query := None; Url.fragment := None |}.
Proof.
  intros K Hh.
  pose proof (validHost_chars h Hh) as Hc.
  destruct (allHostChars_lacks h Hc) as (H1 & H2 & H3).
  destruct (knownScheme_lacks sch K) as [K2 K3].
  unfold Url.parse.
  rewrite (cut_lacks "#" (sch ++ "://" ++ h)),
          (cut_lacks "?" (sch ++ "://" ++ h)).
  - rewrite (splitScheme_app sch _ K), (cut_lacks "/" h H1), Hh. reflexivity.
  - rewrite !lacks_app. simpl. now rewrite K2, H2.
  - rewrite !lacks_app. simpl. now rewrite K3, H3.
Qed.

End UrlFacts.

(** ** The Playwright normaliser *)

Section NormalizeFacts.

Local Open Scope string_scope.

Lemma parse_fragment_includes (s f : string) (u : Url.URL) :
  Url.parse s = Some u -> Url.fragment u = Some (String "/" f) ->
  includes s "#/" = true.
Proof.
  unfold Url.parse.
  destruct (cut "#" s) as [s1 frag] eqn:E1.
  destruct (cut "?" s1) as [s2 qry].
  destruct (Url.splitScheme s2) as [[sch rest]|]; [| discriminate].
  destruct (cut "/" rest) as [h p].
  destruct (Url.validHost h); [| discriminate].
  intros H; inversion H; subst; clear H. simpl. intros ->.
  apply cut_spec in E1 as [_ ->].
  apply includes_app_r, includes_startsWith. reflexivity.
Qed.

Lemma hash_route_fragment (u : Url.URL) :
  startsWith (Url.hash u) "#/" = true ->
  exists f, Url.fragment u = Some (String "/" f).
Proof.
  unfold Url.hash. destruct (Url.fragment u) as [[|a f]|]; simpl;
    try discriminate.
  destruct (Ascii.eqb_spec a "/") as [->|]; [| discriminate].
  intros _. now exists f.
Qed.

(** [normalizeUrl] when the hash goes: the flag is off, or the hash is no
    hash route.  The result is the origin and the path, cut by one final
    slash. *)
Lemma normalizeUrl_plain (s : string) (u : Url.URL) (preserveHash : bool) :
  Url.parse s = Some u ->
  preserveHash = false \/ startsWith (Url.hash u) "#/" = false ->
  Playwright.normalizeUrl s preserveHash
  = Some (Url.origin u ++ dropTrailingSlash (Url.pathname u)).
Proof.
  intros P C. pose proof (parse_wellFormed s u P) as W.
  destruct (wf_path u W) as (p & Ep & _).
  unfold Playwright.normalizeUrl. rewrite P.
  assert (E : negb preserveHash || negb (truthy (Url.hash u))
              || negb (startsWith (Url.hash u) "#/") = true).
  { destruct C as [-> | ->]; [reflexivity | apply orb_true_r]. }
  rewrite E.
  unfold Url.href, Url.clearSearch, Url.clearHash, Url.origin; simpl.
  rewrite !append_empty_r.
  rewrite dropTrailingSlash_app by (rewrite Ep; discriminate).
  reflexivity.
Qed.

(** [normalizeUrl] when the hash stays: the final slash is cut from the
    fragment. *)
Lemma normalizeUrl_route (s f : string) (u : Url.URL) :
  Url.parse s = Some u -> Url.fragment u = Some (String "/" f) ->
  Playwright.normalizeUrl s true
  = Some (Url.origin u ++ Url.pathname u ++
          String "#" (dropTrailingSlash (String "/" f))).
Proof.
  intros P Ef. unfold Playwright.normalizeUrl. rewrite P.
  unfold Url.hash. rewrite Ef. simpl negb. simpl orb. cbv iota.
  unfold Url.href, Url.clearSearch; simpl. rewrite Ef.
  rewrite <- append_assoc'.
  rewrite dropTrailingSlash_app by discriminate.
  rewrite append_assoc'. reflexivity.
Qed.

(** The two results of [normalize]. *)
Lemma normalize_cases (s : string) (u : Url.URL) :
  Url.parse s = Some u ->
  (startsWith (Url.hash u) "#/" = false /\
   Playwright.normalize s
   = Some (Url.origin u ++ dropTrailingSlash (Url.pathname u)))
  \/
  (exists f, Url.fragment u = Some (String "/" f) /\
   Playwright.normalize s
   = Some (Url.origin u ++ Url.pathname u ++
           String "#" (dropTrailingSlash (String "/" f)))).
Proof.
  intros P. unfold Playwright.normalize.
  destruct (startsWith (Url.hash u) "#/") eqn:E.
  - right. destruct (hash_route_fragment u E) as [f Ef]. exists f.
    split; [exact Ef |].
    rewrite (parse_fragment_includes s f u P Ef).
    now apply normalizeUrl_route.
  - left. split; [reflexivity |].
    apply normalizeUrl_plain; auto.
Qed.

End NormalizeFacts.

Section NormalizeTheorems.

Local Open Scope string_scope.

Lemma normalize_some_parse (s v : string) :
  Playwright.normalize s = Some v -> exists u, Url.parse s = Some u.
Proof.
  unfold Playwright.normalize, Playwright.normalizeUrl.
  destruct (Url.parse s) as [u|]; [now exists u | discriminate].
Qed.

Lemma normalize_fixed_plain (sch h p : string) :
  knownScheme sch -> Url.validHost h = true ->
  lacks "?" p = true -> lacks "#" p = true ->
  endsWithChar (String "/" p) "/" = false ->
  Playwright.normalize ((sch ++ "://" ++ h) ++ String "/" p)
  = Some ((sch ++ "://" ++ h) ++ String "/" p).
Proof.
  intros K Hh Lq Lf E.
  pose proof (parse_build sch h p None K Hh Lq Lf) as P.
  cbv iota in P. rewrite append_empty_r in P.
  rewrite !append_assoc'.
  destruct (normalize_cases _ _ P) as [[_ ->] | (f & Ef & _)];
    [| discriminate Ef].
  unfold Url.origin; cbn [Url.scheme Url.hostname Url.pathname].
  rewrite (dropTrailingSlash_id _ E). now rewrite !append_assoc'.
Qed.

Lemma normalize_fixed_origin (sch h : string) :
  knownScheme sch -> Url.validHost h = true ->
  Playwright.normalize (sch ++ "://" ++ h) = Some (sch ++ "://" ++ h).
Proof.
  intros K Hh.
  pose proof (parse_origin sch h K Hh) as P.
  destruct (normalize_cases _ _ P) as [[_ ->] | (f & Ef & _)];
    [| discriminate Ef].
  unfold Url.origin; cbn [Url.scheme Url.hostname Url.pathname].
  cbn [dropTrailingSlash Ascii.eqb Bool.eqb]. now rewrite append_empty_r.
Qed.

Lemma normalize_fixed_route (sch h p g : string) :
  knownScheme sch -> Url.validHost h = true ->
  lacks "?" p = true -> lacks "#" p = true ->
  endsWithChar (String "/" g) "/" = false ->
  Playwright.normalize
    ((sch ++ "://" ++ h) ++ String "/" p ++ String "#" (String "/" g))
  = Some ((sch ++ "://" ++ h) ++ String "/" p ++ String "#" (String "/" g)).
Proof.
  intros K Hh Lq Lf E.
  pose proof (parse_build sch h p (Some (String "/" g)) K Hh Lq Lf) as P.
  cbv iota in P.
  rewrite !append_assoc'.
  destruct (normalize_cases _ _ P) as [[C _] | (f & Ef & ->)];
    [discriminate C |].
  cbn [Url.fragment] in Ef. inversion Ef; subst f.
  unfold Url.origin; cbn [Url.scheme Url.hostname Url.pathname].
  rewrite (dropTrailingSlash_id _ E). now rewrite !append_assoc'.
Qed.

(** C6 (amended). [normalize] is idempotent on every input whose canonical
    form ends neither in a slash nor in a bare [#]: for such [u],
    [normalize (normalize u) = normalize u]. *)
Theorem normalize_idempotent_on_settled (u v : string) :
  Playwright.normalize u = Some v ->
  endsWithChar v "/" = false ->
  endsWithChar v "#" = false ->
  Playwright.normalize v = Some v.
Proof.
  intros N E1 E2.
  destruct (normalize_some_parse u v N) as [r P].
  pose proof (parse_wellFormed u r P) as W.
  destruct W as [K Hh (p & Ep & Lq & Lf) _].
  destruct (normalize_cases u r P) as [[_ N'] | (f & Ef & N')];
    rewrite N in N'; inversion N'; subst v; clear N'; rewrite Ep in *.
  - destruct p as [|a p].
    + cbn [dropTrailingSlash Ascii.eqb Bool.eqb]. rewrite append_empty_r.
      now apply normalize_fixed_origin.
    + change (dropTrailingSlash (String "/" (String a p)))
        with (String "/" (dropTrailingSlash (String a p))) in *.
      rewrite endsWithChar_app in E1 by discriminate.
      apply normalize_fixed_plain; auto using lacks_dropTrailingSlash.
  - destruct f as [|a f].
    + exfalso. cbn [dropTrailingSlash Ascii.eqb Bool.eqb] in E2.
      rewrite !endsWithChar_app in E2 by discriminate. discriminate E2.
    + change (dropTrailingSlash (String "/" (String a f)))
        with (String "/" (dropTrailingSlash (String a f))) in *.
      rewrite !endsWithChar_app in E1 by discriminate.
      apply normalize_fixed_route; auto.
Qed.

(** [parse_build] and [parse_origin] on strings that begin with an origin. *)
Lemma parse_plain (sch h p : string) :
  knownScheme sch -> Url.validHost h = true ->
  lacks "?" p = true -> lacks "#" p = true ->
  Url.parse ((sch ++ "://" ++ h) ++ String "/" p)
  = Some (Url.mkURL sch h (String "/" p) None None).
Proof.
  intros K Hh Lq Lf.
  pose proof (parse_build sch h p None K Hh Lq Lf) as P.
  cbv iota in P. rewrite append_empty_r in P.
  now rewrite !append_assoc'.
Qed.

Lemma parse_route (sch h p f : string) :
  knownScheme sch -> Url.validHost h = true ->
  lacks "?" p = true -> lacks "#" p = true ->
  Url.parse ((sch ++ "://" ++ h) ++ String "/" p ++ String "#" f)
  = Some (Url.mkURL sch h (String "/" p) None (Some f)).
Proof.
  intros K Hh Lq Lf.
  pose proof (parse_build sch h p (Some f) K Hh Lq Lf) as P.
  cbv iota in P. now rewrite !append_assoc'.
Qed.

(** The canonical form is itself accepted by the parser. *)
Lemma normalize_parses (s v : string) :
  Playwright.normalize s = Some v -> exists u, Url.parse v = Some u.
Proof.
  intros N.
  destruct (normalize_some_parse s v N) as [r P].
  destruct (parse_wellFormed s r P) as [K Hh (p & Ep & Lq & Lf) _].
  destruct (normalize_cases s r P) as [[_ N'] | (f & Ef & N')];
    rewrite N in N'; inversion N'; subst v; clear N'; rewrite Ep.
  - destruct p as [|a p].
    + cbn [dropTrailingSlash Ascii.eqb Bool.eqb]. rewrite append_empty_r.
      eexists. now apply parse_origin.
    + change (dropTrailingSlash (String "/" (String a p)))
        with (String "/" (dropTrailingSlash (String a p))).
      eexists. apply parse_plain; auto using lacks_dropTrailingSlash.
  - eexists. apply parse_route; auto.
Qed.

(** C6, counterexample.  A path that ends in two slashes loses one of them
    per pass, whatever the flag; and the hash route [#/] is cut to a bare
    [#], which the next pass removes. *)
Lemma normalize_not_idempotent :
  Playwright.normalize "https://a.com/x//" = Some "https://a.com/x/" /\
  Playwright.normalize "https://a.com/x/" = Some "https://a.com/x" /\
  Playwright.normalize "https://a.com/x/" <> Some "https://a.com/x/" /\
  Playwright.normalizeUrl "https://a.com/x//" false = Some "https://a.com/x/" /\
  Playwright.normalizeUrl "https://a.com/x/" false = Some "https://a.com/x" /\
  Playwright.normalizeUrl "https://a.com/x//" true = Some "https://a.com/x/" /\
  Playwright.normalizeUrl "https://a.com/x/" true = Some "https://a.com/x" /\
  Playwright.normalize "https://a.com/#/" = Some "https://a.com/#" /\
  Playwright.normalize "https://a.com/#" = Some "https://a.com".
Proof. repeat split; try reflexivity. discriminate. Qed.

Lemma normalize_idempotent_on_settled_witness :
  Playwright.normalize "https://a.com/x/?q=1#top" = Some "https://a.com/x" /\
  Playwright.normalize "https://a.com/x" = Some "https://a.com/x".
Proof.
  split; [reflexivity |].
  apply (normalize_idempotent_on_settled
           "https://a.com/x/?q=1#top" "https://a.com/x"); reflexivity.
Defined.

(** C8, counterexample.  The root path is cut as well: the canonical form
    of [https://a.com/] does not end in a slash. *)
Lemma normalize_root_loses_slash :
  option_map Url.pathname (Url.parse "https://a.com/") = Some "/" /\
  Playwright.normalizeUrl "https://a.com/" false = Some "https://a.com" /\
  Playwright.normalizeUrl "https://a.com/" true = Some "https://a.com" /\
  Playwright.normalize "https://a.com/" = Some "https://a.com" /\
  endsWithChar "https://a.com" "/" = false.
Proof. repeat split. Qed.

Lemma dropTrailingSlash_snoc (w : string) :
  dropTrailingSlash (w ++ "/") = w.
Proof.
  rewrite dropTrailingSlash_app by discriminate.
  simpl. apply append_empty_r.
Qed.

Lemma length_append (a b : string) :
  String.length (a ++ b) = String.length a + String.length b.
Proof. induction a as [|x a IH]; simpl; [reflexivity | now rewrite IH]. Qed.

Lemma append_cancel_r (a b c : string) : a ++ c = b ++ c -> a = b.
Proof.
  revert b; induction a as [|x a IH]; intros [|y b]; simpl; intros E.
  - reflexivity.
  - apply (f_equal String.length) in E. simpl in E.
    rewrite length_append in E. lia.
  - apply (f_equal String.length) in E. simpl in E.
    rewrite length_append in E. lia.
  - inversion E; subst. f_equal. now apply IH.
Qed.

Lemma endsWithChar_inv (s : string) (c : ascii) :
  endsWithChar s c = true -> exists w, s = w ++ String c "".
Proof.
  induction s as [|a s IH]; [discriminate |].
  simpl. destruct s as [|b s].
  - intros E. apply Ascii.eqb_eq in E as ->. now exists "".
  - intros E. destruct (IH E) as [w ->]. now exists (String a w).
Qed.

Lemma lacks_endsWithChar (c : ascii) (s : string) :
  lacks c s = true -> endsWithChar s c = false.
Proof.
  induction s as [|a s IH]; [reflexivity |].
  simpl. destruct (Ascii.eqb a c) eqn:E; [discriminate |].
  simpl. destruct s as [|b s]; auto.
Qed.

(** The serialized URL once hash and search are cleared ends with the
    path. *)
Lemma href_served (u : Url.URL) :
  Url.href (Url.clearSearch (Url.clearHash u)) = Url.origin u ++ Url.pathname u.
Proof.
  unfold Url.href, Url.clearSearch, Url.clearHash, Url.origin; simpl.
  now rewrite !append_empty_r.
Qed.

Lemma origin_no_final_slash (u : Url.URL) :
  wellFormed u -> endsWithChar (Url.origin u) "/" = false.
Proof.
  intros [K Hh _ _]. unfold Url.origin.
  assert (Hn : Url.hostname u <> "").
  { intros E. rewrite E in Hh. discriminate. }
  rewrite endsWithChar_app.
  2:{ simpl. discriminate. }
  change ("://" ++ Url.hostname u)
    with (String ":" (String "/" (String "/" (Url.hostname u)))).
  destruct (Url.hostname u) as [|a h] eqn:E; [congruence |].
  change (endsWithChar (String a h) "/" = false).
  apply lacks_endsWithChar.
  now destruct (allHostChars_lacks _ (validHost_chars _ Hh)) as (L & _).
Qed.

(** C8 (amended).  [normalizeUrl] cuts one final slash from the serialized
    URL ([href]), whatever the path.  Let [served] be the [href] of the
    parsed URL once its hash and its search are cleared, as the code reads
    it when no hash route is kept (the flag is off or the hash does not
    begin with [#/]).  The result [v] is [served] less its last character
    when that is a slash, and [served] itself otherwise.  [served] ends with
    the path; when the path ends in a slash, [v] is what precedes the path
    followed by the path less that slash; and for the root path no final
    slash is left. *)
Theorem normalize_strips_final_slash (s : string) (u : Url.URL)
    (preserveHash : bool) :
  Url.parse s = Some u ->
  preserveHash = false \/ startsWith (Url.hash u) "#/" = false ->
  let served := Url.href (Url.clearSearch (Url.clearHash u)) in
  exists v,
    Playwright.normalizeUrl s preserveHash = Some v /\
    (endsWithChar served "/" = true -> served = v ++ "/") /\
    (endsWithChar served "/" = false -> served = v) /\
    (exists pre, served = pre ++ Url.pathname u /\
       forall q, Url.pathname u = q ++ "/" -> v = pre ++ q) /\
    (Url.pathname u = "/" -> endsWithChar v "/" = false).
Proof.
  intros P H served.
  pose proof (parse_wellFormed s u P) as W.
  destruct (wf_path u W) as (p & Ep & _).
  assert (Es : served = Url.origin u ++ Url.pathname u)
    by apply href_served.
  exists (dropTrailingSlash served). split; [| split; [| split; [| split]]].
  - rewrite (normalizeUrl_plain s u preserveHash P H), Es.
    now rewrite dropTrailingSlash_app by (rewrite Ep; discriminate).
  - intros E. destruct (endsWithChar_inv _ _ E) as [w ->].
    now rewrite dropTrailingSlash_snoc.
  - intros E. symmetry. now apply dropTrailingSlash_id.
  - exists (Url.origin u). split; [exact Es |].
    intros q Eq. rewrite Es, Eq, <- append_assoc'.
    apply dropTrailingSlash_snoc.
  - intros E. rewrite Es, E.
    rewrite dropTrailingSlash_snoc. now apply origin_no_final_slash.
Qed.

Lemma normalize_strips_final_slash_witness :
  Playwright.normalizeUrl "https://a.com/x/" true = Some "https://a.com/x" /\
  Playwright.normalizeUrl "https://a.com/" false = Some "https://a.com".
Proof.
  split.
  - destruct (normalize_strips_final_slash "https://a.com/x/"
                (Url.mkURL "https" "a.com" "/x/" None None) true)
      as (v & N & A & _); [reflexivity | now right |].
    rewrite N. f_equal.
    specialize (A eq_refl).
    change ("https://a.com/x/" = v ++ "/") in A.
    apply (append_cancel_r v "https://a.com/x" "/"). now symmetry.
  - destruct (normalize_strips_final_slash "https://a.com/"
                (Url.mkURL "https" "a.com" "/" None None) false)
      as (v & N & A & _); [reflexivity | now left |].
    rewrite N. f_equal.
    specialize (A eq_refl).
    change ("https://a.com/" = v ++ "/") in A.
    apply (append_cancel_r v "https://a.com" "/"). now symmetry.
Defined.

(** C2, at the failing input.  The fragment [#/] begins with [#/], yet the
    canonical form has an empty fragment: the final-slash cut is applied to
    the whole serialized URL, whose last character here belongs to the
    fragment.  A longer hash route that ends in a slash is clipped the same
    way.  The two examples of the claim hold. *)
Theorem normalize_clips_hash_route :
  option_map Url.hash (Url.parse "https://a.com/#/") = Some "#/" /\
  Playwright.normalizeUrl "https://a.com/#/" true = Some "https://a.com/#" /\
  Playwright.normalize "https://a.com/#/" = Some "https://a.com/#" /\
  option_map Url.hash (Url.parse "https://a.com/#") = Some "" /\
  Playwright.normalize "https://a.com/#/products/"
  = Some "https://a.com/#/products" /\
  Playwright.normalize "https://a.com/#/products"
  = Some "https://a.com/#/products" /\
  Playwright.normalize "https://a.com/page#section" = Some "https://a.com/page".
Proof. repeat split. Qed.

(** X26.  A fragment that is not a hash route is removed, and so is every
    query: the canonical form parses to a URL with no query, and with no
    fragment unless the input had a hash route. *)
Lemma normalize_strips_query_and_anchor (s v : string) (u : Url.URL) :
  Url.parse s = Some u -> Playwright.normalize s = Some v ->
  exists u', Url.parse v = Some u' /\ Url.query u' = None /\
             (startsWith (Url.hash u) "#/" = false -> Url.fragment u' = None).
Proof.
  intros P N.
  destruct (parse_wellFormed s u P) as [K Hh (p & Ep & Lq & Lf) _].
  destruct (normalize_cases s u P) as [[C N'] | (f & Ef & N')];
    rewrite N in N'; inversion N'; subst v; clear N'; rewrite Ep.
  - destruct p as [|a p].
    + cbn [dropTrailingSlash Ascii.eqb Bool.eqb]. rewrite append_empty_r.
      eexists. split; [now apply parse_origin | split; reflexivity].
    + change (dropTrailingSlash (String "/" (String a p)))
        with (String "/" (dropTrailingSlash (String a p))).
      eexists. split.
      { apply parse_plain; auto using lacks_dropTrailingSlash. }
      split; reflexivity.
  - eexists. split; [apply parse_route; auto |].
    split; [reflexivity |].
    intros C. unfold Url.hash in C. rewrite Ef in C. discriminate C.
Qed.

(** X27.  A hash route that does not end in a slash is kept as it is. *)
Lemma normalize_keeps_settled_route (s f : string) (u : Url.URL) :
  Url.parse s = Some u -> Url.fragment u = Some (String "/" f) ->
  endsWithChar (String "/" f) "/" = false ->
  exists v u', Playwright.normalize s = Some v /\ Url.parse v = Some u' /\
               Url.fragment u' = Some (String "/" f).
Proof.
  intros P Ef E.
  destruct (parse_wellFormed s u P) as [K Hh (p & Ep & Lq & Lf) _].
  destruct (normalize_cases s u P) as [[C _] | (f' & Ef' & N)].
  - unfold Url.hash in C. rewrite Ef in C. discriminate C.
  - rewrite Ef in Ef'. inversion Ef'; subst f'.
    rewrite (dropTrailingSlash_id _ E) in N.
    eexists. eexists. split; [exact N |].
    rewrite Ep.
    split; [apply parse_route; auto | reflexivity].
Qed.

(** C7, at the failing input.  [sameDomain] compares the two host names as
    they are: a [www.] prefix on one side makes them differ. *)
Theorem sameDomain_www_differs :
  Playwright.sameDomain "https://a.com" "https://www.a.com" = false /\
  Playwright.sameDomain "https://www.a.com" "https://a.com" = false /\
  Playwright.sameDomain "https://a.com" "https://b.com" = false /\
  Playwright.sameDomain "https://a.com/x" "https://a.com" = true.
Proof. repeat split. Qed.


(** The Puppeteer link loop is the path that accepts a [www.] prefix on
    either side. *)
Lemma isSameDomain_iff (l b : string) :
  Puppeteer.isSameDomain l b = true <->
  l = b \/ l = ("www." ++ b)%string \/ ("www." ++ l)%string = b.
Proof.
  unfold Puppeteer.isSameDomain.
  rewrite !orb_true_iff, !String.eqb_eq. tauto.
Qed.

Example isSameDomain_www :
  Puppeteer.isSameDomain "a.com" "www.a.com" = true /\
  Puppeteer.isSameDomain "www.a.com" "a.com" = true /\
  Puppeteer.isSameDomain "a.com" "b.com" = false.
Proof. repeat split. Qed.

End NormalizeTheorems.

(** ** Lists *)

Section ListFacts.

Context {A : Type}.

Lemma filter_none (l : list A) : filter (fun _ => false) l = [].
Proof. induction l; simpl; auto. Qed.

(** Two exclusive tests split what their disjunction keeps. *)
Lemma filter_split (p q r : A -> bool) (l : list A) :
  (forall x, In x l -> r x = p x || q x) ->
  (forall x, In x l -> p x && q x = false) ->
  Permutation (filter p l ++ filter q l) (filter r l).
Proof.
  induction l as [|x l IH]; intros Hr Hx; simpl; [constructor |].
  assert (IH' : Permutation (filter p l ++ filter q l) (filter r l)).
  { apply IH; intros y Hy; [apply Hr | apply Hx]; now right. }
  specialize (Hr x (or_introl eq_refl)).
  specialize (Hx x (or_introl eq_refl)).
  rewrite Hr.
  destruct (p x), (q x); simpl in *; try discriminate.
  - now constructor.
  - rewrite <- IH'. symmetry. apply Permutation_middle.
  - exact IH'.
Qed.

Lemma flat_map_nil {B : Type} (l : list A) :
  flat_map (fun _ : A => @nil B) l = [].
Proof. induction l; simpl; auto. Qed.

Lemma flat_map_flat_map {B C : Type} (g : B -> list C) (h : A -> list B)
    (l : list A) :
  flat_map g (flat_map h l) = flat_map (fun k => flat_map g (h k)) l.
Proof.
  induction l as [|x l IH]; simpl; [reflexivity |].
  now rewrite flat_map_app, IH.
Qed.

Lemma flat_map_cons_perm (g : A -> list A) (l : list A) :
  Permutation (flat_map (fun k => k :: g k) l) (l ++ flat_map g l).
Proof.
  induction l as [|x l IH]; simpl; [constructor |].
  constructor. rewrite IH. apply Permutation_app_swap_app.
Qed.

Lemma sequence_map_some {B : Type} (g : A -> option B) (l : list A)
    (ys : list B) :
  sequence (map g l) = Some ys -> Forall2 (fun x y => g x = Some y) l ys.
Proof.
  revert ys; induction l as [|x l IH]; simpl; intros ys H.
  - inversion H. constructor.
  - destruct (g x) as [y|] eqn:E; [| discriminate].
    destruct (sequence (map g l)) as [ys'|]; [| discriminate].
    inversion H; subst. constructor; auto.
Qed.

Lemma sequence_map_total {B : Type} (g : A -> option B) (l : list A) :
  (forall x, In x l -> exists y, g x = Some y) ->
  exists ys, sequence (map g l) = Some ys.
Proof.
  induction l as [|x l IH]; simpl; intros H; [now exists [] |].
  destruct (H x (or_introl eq_refl)) as [y ->].
  destruct IH as [ys ->]; [intros z Hz; apply H; now right |].
  now exists (y :: ys).
Qed.

Lemma map_filter_comm {B : Type} (f : A -> B) (P : B -> bool) (l : list A) :
  map f (filter (fun x => P (f x)) l) = filter P (map f l).
Proof.
  induction l as [|x l IH]; simpl; [reflexivity |].
  destruct (P (f x)); simpl; now rewrite IH.
Qed.

End ListFacts.

(** ** Forests given by parent references

    When the parent references are acyclic, walking the children from the
    top-level keys meets every key exactly once. *)

Section Forest.

Variable kids : string -> list string.

Lemma walk_levels (fuel : nat) (l : list string) :
  Permutation (flat_map (walk kids fuel) l) (levels kids fuel l).
Proof.
  revert l; induction fuel as [|fuel IH]; intros l; simpl.
  - now rewrite flat_map_nil.
  - rewrite flat_map_cons_perm.
    apply Permutation_app_head.
    rewrite <- flat_map_flat_map. apply IH.
Qed.

Variable ks : list string.
Variable par : string -> option string.
Variable rank : string -> nat.

Hypothesis ks_nodup : NoDup ks.
Hypothesis kids_spec : forall k, kids k = filter (parIs par k) ks.
Hypothesis par_acyclic :
  forall c q, In c ks -> par c = Some q -> In q ks /\ rank q < rank c.

Lemma depthWithin_stable (n m : nat) (k : string) :
  In k ks -> rank k <= n -> rank k <= m -> depthWithin par n k = depthWithin par m k.
Proof.
  revert m k; induction n as [|n IH]; intros m k Hk Hn Hm.
  - destruct m as [|m]; simpl; [reflexivity |].
    destruct (par k) as [q|] eqn:E; [| reflexivity].
    destruct (par_acyclic k q Hk E); lia.
  - simpl. destruct (par k) as [q|] eqn:E.
    + destruct (par_acyclic k q Hk E) as [Hq Hr].
      destruct m as [|m]; [lia |].
      simpl. rewrite E. f_equal. apply IH; [exact Hq | lia | lia].
    + destruct m; simpl; [reflexivity | now rewrite E].
Qed.

Lemma depthOf_root (k : string) : par k = None -> depthOf par rank k = 0.
Proof.
  intros E. unfold depthOf. destruct (rank k); simpl; [| rewrite E]; reflexivity.
Qed.

Lemma depthOf_child (k q : string) :
  In k ks -> par k = Some q -> depthOf par rank k = S (depthOf par rank q).
Proof.
  intros Hk E. destruct (par_acyclic k q Hk E) as [Hq Hr].
  unfold depthOf. destruct (rank k) as [|r] eqn:R; [lia |].
  simpl. rewrite E. f_equal. apply depthWithin_stable; [exact Hq | lia | lia].
Qed.

Lemma depthWithin_le (n : nat) (k : string) : depthWithin par n k <= n.
Proof.
  revert k; induction n as [|n IH]; intros k; simpl; [lia |].
  destruct (par k) as [q|]; [| lia]. specialize (IH q). lia.
Qed.

Lemma kids_of_list (l : list string) :
  NoDup l -> Permutation (flat_map kids l) (filter (parIn par l) ks).
Proof.
  induction 1 as [|a l Ha Hl IH]; simpl.
  - rewrite (filter_ext (parIn par []) (fun _ => false)), filter_none;
      [constructor |].
    intros c. unfold parIn. now destruct (par c).
  - rewrite kids_spec, IH.
    apply filter_split; intros c _; unfold parIs, parIn;
      destruct (par c) as [q|]; simpl; try reflexivity.
    destruct (String.eqb_spec q a) as [->|]; [| reflexivity].
    simpl. apply not_true_is_false. intros H.
    apply existsb_exists in H as (x & Hx & Ex).
    apply String.eqb_eq in Ex. subst x. contradiction.
Qed.

Lemma generation_depth (j : nat) :
  Permutation (generation kids ks par j) (filter (fun k => (depthOf par rank k =? j)%nat) ks).
Proof.
  induction j as [|j IH]; simpl.
  - erewrite filter_ext_in; [reflexivity |].
    intros k Hk. unfold isRoot. destruct (par k) as [q|] eqn:E.
    + now rewrite (depthOf_child k q Hk E).
    + now rewrite (depthOf_root k E).
  - rewrite IH, kids_of_list by (apply NoDup_filter, ks_nodup).
    erewrite filter_ext_in; [reflexivity |].
    intros c Hc. unfold parIn. destruct (par c) as [q|] eqn:E.
    + destruct (par_acyclic c q Hc E) as [Hq _].
      rewrite (depthOf_child c q Hc E). simpl.
      destruct (depthOf par rank q =? j)%nat eqn:D.
      * apply existsb_exists. exists q. split; [| apply String.eqb_refl].
        apply filter_In. now split.
      * apply not_true_is_false. intros H.
        apply existsb_exists in H as (x & Hx & Ex).
        apply String.eqb_eq in Ex. subst x.
        apply filter_In in Hx as [_ Hx]. congruence.
    + now rewrite (depthOf_root c E).
Qed.

Lemma levels_generation (fuel j : nat) :
  Permutation (levels kids fuel (generation kids ks par j))
    (filter (fun k => ((j <=? depthOf par rank k) && (depthOf par rank k <? j + fuel))%nat) ks).
Proof.
  revert j; induction fuel as [|fuel IH]; intros j; simpl.
  - rewrite (filter_ext_in _ (fun _ => false)), filter_none; [constructor |].
    intros k _. destruct (Nat.leb_spec j (depthOf par rank k));
      destruct (Nat.ltb_spec (depthOf par rank k) (j + 0)); simpl; auto; lia.
  - change (flat_map kids (generation kids ks par j)) with (generation kids ks par (S j)).
    rewrite IH, generation_depth.
    apply filter_split; intros k _.
    + destruct (Nat.eqb_spec (depthOf par rank k) j);
        destruct (Nat.leb_spec j (depthOf par rank k));
        destruct (Nat.leb_spec (S j) (depthOf par rank k));
        destruct (Nat.ltb_spec (depthOf par rank k) (S j + fuel));
        destruct (Nat.ltb_spec (depthOf par rank k) (j + S fuel)); simpl; auto; lia.
    + destruct (Nat.eqb_spec (depthOf par rank k) j);
        destruct (Nat.leb_spec (S j) (depthOf par rank k)); simpl; auto; lia.
Qed.

(** Walking down from the top-level keys, with enough fuel for the
    longest chain of parents, meets every key exactly once. *)
Lemma walk_roots_all (fuel : nat) :
  (forall k, In k ks -> rank k < fuel) ->
  Permutation (flat_map (walk kids fuel) (filter (isRoot par) ks)) ks.
Proof.
  intros Hf.
  rewrite walk_levels.
  change (filter (isRoot par) ks) with (generation kids ks par 0).
  rewrite levels_generation.
  rewrite (filter_ext_in _ (fun _ => true)).
  - clear. induction ks as [|x l IH]; simpl; [constructor | now constructor].
  - intros k Hk. specialize (Hf k Hk).
    pose proof (depthWithin_le (rank k) k) as Hd. fold (depthOf par rank k) in Hd.
    destruct (Nat.ltb_spec (depthOf par rank k) (0 + fuel)); simpl; auto; lia.
Qed.

End Forest.

(** ** The tree builder: [pageMap] and the attachment pass *)

Section PageMapFacts.

Lemma mapGet_mapSet (m : PageMap) (k k' : string) (v : PageNode) :
  mapGet (mapSet m k v) k' = if String.eqb k' k then Some v else mapGet m k'.
Proof.
  induction m as [|[k0 v0] m IH]; simpl; [reflexivity |].
  destruct (String.eqb_spec k k0) as [->|Hne]; simpl.
  - now destruct (String.eqb k' k0).
  - rewrite IH.
    destruct (String.eqb_spec k' k0) as [->|];
      destruct (String.eqb_spec k0 k); try reflexivity; congruence.
Qed.

Lemma mapGet_pushChild (m : PageMap) (k c k' : string) :
  mapGet (pushChild m k c) k'
  = if String.eqb k' k then option_map (addChildren [c]) (mapGet m k')
    else mapGet m k'.
Proof.
  induction m as [|[k0 v0] m IH]; simpl.
  - now destruct (String.eqb k' k).
  - destruct (String.eqb_spec k k0) as [->|Hne]; simpl.
    + now destruct (String.eqb k' k0).
    + rewrite IH.
      destruct (String.eqb_spec k' k0) as [->|]; [| reflexivity].
      destruct (String.eqb_spec k0 k); [congruence | reflexivity].
Qed.

Lemma mapHas_pushChild (m : PageMap) (k c k' : string) :
  mapHas (pushChild m k c) k' = mapHas m k'.
Proof.
  unfold mapHas. rewrite mapGet_pushChild.
  destruct (String.eqb k' k); [| reflexivity].
  now destruct (mapGet m k').
Qed.

Lemma buildPageMap_from (l : list CleanPage) (m : PageMap) :
  freshNodes m ->
  let m' := fold_left
              (fun m page => mapSet m (clean_url page)
                               {| node_page := page; node_children := [] |})
              l m in
  freshNodes m' /\
  forall k, mapHas m' k
            = existsb (String.eqb k) (map clean_url l) || mapHas m k.
Proof.
  revert m; induction l as [|p l IH]; intros m Hm; simpl.
  - split; [exact Hm | reflexivity].
  - destruct (IH (mapSet m (clean_url p)
                    {| node_page := p; node_children := [] |})) as [F H].
    + intros k n. rewrite mapGet_mapSet.
      destruct (String.eqb_spec k (clean_url p)) as [->|].
      * intros E; inversion E; subst; simpl; auto.
      * apply Hm.
    + split; [exact F |].
      intros k. rewrite H. unfold mapHas. rewrite mapGet_mapSet.
      destruct (String.eqb k (clean_url p)); simpl.
      * now rewrite orb_true_r.
      * reflexivity.
Qed.

Lemma buildPageMap_fresh (l : list CleanPage) : freshNodes (buildPageMap l).
Proof.
  apply (buildPageMap_from l []). intros k n E. discriminate E.
Qed.

Lemma buildPageMap_has (l : list CleanPage) (k : string) :
  mapHas (buildPageMap l) k = existsb (String.eqb k) (map clean_url l).
Proof.
  destruct (buildPageMap_from l []) as [_ H].
  - intros k' n E. discriminate E.
  - unfold buildPageMap. rewrite H. simpl. apply orb_false_r.
Qed.

(** One step of the attachment pass, by the parent reference. *)
Lemma attach_by_ref (rp : option CleanPage) (m : PageMap) (rn : list string)
    (p : CleanPage) :
  attach rp (m, rn) p
  = match parentRefIn m p with
    | Some q => (pushChild m q (clean_url p), rn)
    | None => (m, rn ++ [clean_url p])
    end.
Proof.
  unfold attach, parentRefIn.
  destruct (clean_parentUrl p) as [q|].
  - destruct (truthy q && mapHas m q); [reflexivity |].
    now destruct (_ || _).
  - now destruct (_ || _).
Qed.

Lemma parentRefIn_pushChild (m : PageMap) (k c : string) (p : CleanPage) :
  parentRefIn (pushChild m k c) p = parentRefIn m p.
Proof.
  unfold parentRefIn. destruct (clean_parentUrl p) as [q|]; [| reflexivity].
  now rewrite mapHas_pushChild.
Qed.

(** The attachment pass: the top-level list grows by the pages with no
    parent in the map, in order; the [children] array of every node grows
    by the pages whose parent it is, in order. *)
Lemma attach_fold (rp : option CleanPage) (l : list CleanPage) (m : PageMap)
    (rn : list string) :
  let r := fold_left (attach rp) l (m, rn) in
  snd r = rn ++ map clean_url (filter (fun p => refNone (parentRefIn m p)) l)
  /\
  forall k, mapGet (fst r) k
            = option_map
                (addChildren
                   (map clean_url
                        (filter (fun p => refIs k (parentRefIn m p)) l)))
                (mapGet m k).
Proof.
  revert m rn; induction l as [|p l IH]; intros m rn.
  - simpl. split; [now rewrite app_nil_r |].
    intros k. destruct (mapGet m k) as [n|]; [| reflexivity].
    simpl. unfold addChildren. rewrite app_nil_r. now destruct n.
  - cbn [fold_left filter]. rewrite attach_by_ref.
    destruct (parentRefIn m p) as [q|] eqn:E; cbn [refNone refIs].
    + destruct (IH (pushChild m q (clean_url p)) rn) as [H1 H2].
      split.
      * rewrite H1. do 2 f_equal. apply filter_ext.
        intros x. now rewrite parentRefIn_pushChild.
      * intros k. rewrite H2, mapGet_pushChild.
        rewrite (filter_ext
                   (fun x => refIs k (parentRefIn (pushChild m q (clean_url p)) x))
                   (fun x => refIs k (parentRefIn m x)))
          by (intros x; now rewrite parentRefIn_pushChild).
        rewrite (String.eqb_sym k q).
        destruct (String.eqb q k); [| reflexivity].
        destruct (mapGet m k) as [n|]; [| reflexivity].
        simpl. unfold addChildren. simpl. now rewrite <- app_assoc.
    + destruct (IH m (rn ++ [clean_url p])) as [H1 H2].
      split; [| exact H2].
      rewrite H1, <- app_assoc. reflexivity.
Qed.

End PageMapFacts.

(** ** The tree builder: [buildNode] *)

Section BuildNodeFacts.

Variable pageMap : PageMap.

(** One step of [buildNode]: the children are built first; the [children]
    property is set when there are some. *)
Lemma buildNode_step (fuel : nat) (k : string) :
  buildNode (S fuel) pageMap k
  = match mapGet pageMap k with
    | None => None
    | Some n =>
        let p := node_page n in
        option_map
          (fun ks => Node (clean_id p) (clean_url p)
                          (orElse (clean_title p) (clean_url p))
                          (clean_depth p) (orElse (clean_status p) "ok")
                          (match ks with [] => None | _ => Some ks end))
          (sequence (map (buildNode fuel pageMap) (node_children n)))
    end.
Proof.
  cbn [buildNode].
  destruct (mapGet pageMap k) as [n|]; [| reflexivity].
  destruct (node_children n) as [|c cs]; [reflexivity |].
  cbv zeta.
  destruct (sequence (map (buildNode fuel pageMap) (c :: cs))) as [ks|] eqn:S;
    [| reflexivity].
  destruct ks as [|y ys]; [| reflexivity].
  apply sequence_map_some in S. inversion S.
Qed.

Lemma sn_children_optional (i u t : string) (d : Z) (s : string)
    (ks : list SitemapNode) :
  sn_children (Node i u t d s (match ks with [] => None | _ => Some ks end))
  = ks.
Proof. now destruct ks. Qed.

(** Every node is stored under its own URL. *)
Hypothesis keyed :
  forall k n, mapGet pageMap k = Some n -> clean_url (node_page n) = k.

Lemma buildNode_url (fuel : nat) (k : string) (t : SitemapNode) :
  buildNode fuel pageMap k = Some t -> sn_url t = k.
Proof.
  destruct fuel as [|fuel]; [discriminate |].
  rewrite buildNode_step.
  destruct (mapGet pageMap k) as [n|] eqn:E; [| discriminate].
  pose proof (keyed k n E) as U. cbv zeta.
  destruct (sequence _); [| discriminate].
  intros [= <-]; exact U.
Qed.

Lemma buildNode_children (fuel : nat) (k : string) (t : SitemapNode) :
  buildNode fuel pageMap k = Some t ->
  map sn_url (sn_children t) = childrenOf pageMap k.
Proof.
  destruct fuel as [|fuel]; [discriminate |].
  rewrite buildNode_step. unfold childrenOf.
  destruct (mapGet pageMap k) as [n|] eqn:E; [| discriminate].
  cbv zeta.
  destruct (sequence _) as [ys|] eqn:S; [| discriminate].
  intros [= <-]. rewrite sn_children_optional.
  apply sequence_map_some in S.
  induction S as [|x y l l' Hxy _ IH]; simpl; [reflexivity |].
  now rewrite (buildNode_url _ _ _ Hxy), IH.
Qed.

(** The URLs of a built node are the keys its recursion meets. *)
Lemma buildNode_walk (fuel : nat) (k : string) (t : SitemapNode) :
  buildNode fuel pageMap k = Some t ->
  tree_urls t = walk (childrenOf pageMap) fuel k.
Proof.
  revert k t; induction fuel as [|fuel IH]; intros k t; [discriminate |].
  rewrite buildNode_step. cbn [walk].
  destruct (mapGet pageMap k) as [n|] eqn:E; [| discriminate].
  assert (Ck : childrenOf pageMap k = node_children n)
    by (unfold childrenOf; now rewrite E).
  rewrite Ck. clear Ck.
  pose proof (keyed k n E) as U. cbv zeta.
  destruct (sequence _) as [ys|] eqn:S; [| discriminate].
  intros [= <-]. cbn [tree_urls]. rewrite U. f_equal.
  apply sequence_map_some in S.
  assert (F : flat_map tree_urls ys
              = flat_map (walk (childrenOf pageMap) fuel) (node_children n)).
  { induction S as [|x y l l' Hxy _ IHS]; simpl; [reflexivity |].
    now rewrite (IH _ _ Hxy), IHS. }
  rewrite <- F. now destruct ys.
Qed.

Variable rank : string -> nat.
Variable bound : nat.

Hypothesis rank_bound : forall k, mapHas pageMap k = true -> rank k <= bound.
Hypothesis children_deeper :
  forall k c, In c (childrenOf pageMap k) ->
              mapHas pageMap c = true /\ rank k < rank c.

(** With acyclic [children] arrays the recursion ends: fuel above the
    longest chain is enough. *)
Lemma buildNode_total (fuel : nat) (k : string) :
  mapHas pageMap k = true -> bound < fuel + rank k ->
  exists t, buildNode fuel pageMap k = Some t.
Proof.
  revert k; induction fuel as [|fuel IH]; intros k Hk Hf.
  - specialize (rank_bound k Hk). lia.
  - rewrite buildNode_step.
    pose proof (children_deeper k) as Hc. unfold childrenOf in Hc.
    unfold mapHas in Hk.
    destruct (mapGet pageMap k) as [n|]; [| discriminate].
    cbv zeta.
    destruct (sequence_map_total (buildNode fuel pageMap) (node_children n))
      as [ys ->]; [| simpl; eauto].
    intros x Hx. destruct (Hc x Hx) as [Hm Hr].
    apply IH; [exact Hm | lia].
Qed.

End BuildNodeFacts.

(** ** The tree builder: from the input list to the returned tree *)

Section BuilderFacts.

Lemma cleanPagesFrom_urls (i : nat) (pages : list PageRecord) :
  map clean_url (cleanPagesFrom i pages) = map page_url pages.
Proof.
  revert i; induction pages as [|p ps IH]; intros i; simpl;
    [reflexivity | now rewrite IH].
Qed.

Lemma cleanPagesFrom_filter (P' : CleanPage -> bool) (P : PageRecord -> bool)
    (i : nat) (pages : list PageRecord) :
  (forall p j, P' (cleanPage p j) = P p) ->
  map clean_url (filter P' (cleanPagesFrom i pages))
  = map page_url (filter P pages).
Proof.
  intros H. revert i; induction pages as [|p ps IH]; intros i; simpl;
    [reflexivity |].
  rewrite H. destruct (P p); simpl; now rewrite IH.
Qed.

Lemma parentRefIn_clean (pages : list PageRecord) (p : PageRecord) (j : nat) :
  parentRefIn (buildPageMap (cleanPages pages)) (cleanPage p j)
  = if hasParent pages p then page_parentUrl p else None.
Proof.
  unfold parentRefIn, hasParent. simpl.
  destruct (page_parentUrl p) as [q|]; [| reflexivity].
  rewrite buildPageMap_has. unfold cleanPages.
  now rewrite cleanPagesFrom_urls.
Qed.

Lemma attached_roots (pages : list PageRecord) :
  let cleanedPages := cleanPages pages in
  snd (fold_left (attach (findRootPage cleanedPages)) cleanedPages
                 (buildPageMap cleanedPages, []))
  = map page_url (topLevel pages).
Proof.
  cbv zeta.
  destruct (attach_fold (findRootPage (cleanPages pages)) (cleanPages pages)
              (buildPageMap (cleanPages pages)) []) as [H _].
  rewrite H. simpl. apply cleanPagesFrom_filter.
  intros p j. rewrite parentRefIn_clean. unfold hasParent.
  destruct (page_parentUrl p) as [q|]; [| reflexivity].
  now destruct (truthy q && existsb _ _).
Qed.

Lemma attached_get (pages : list PageRecord) (k : string) :
  mapGet (attachedMap pages) k
  = option_map (addChildren (map page_url (attachedTo pages k)))
               (mapGet (buildPageMap (cleanPages pages)) k).
Proof.
  unfold attachedMap. cbv zeta.
  destruct (attach_fold (findRootPage (cleanPages pages)) (cleanPages pages)
              (buildPageMap (cleanPages pages)) []) as [_ H].
  rewrite H. f_equal. f_equal. apply cleanPagesFrom_filter.
  intros p j. rewrite parentRefIn_clean.
  destruct (hasParent pages p); [| reflexivity].
  reflexivity.
Qed.

Lemma attached_has (pages : list PageRecord) (k : string) :
  mapHas (attachedMap pages) k = existsb (String.eqb k) (map page_url pages).
Proof.
  unfold mapHas. rewrite attached_get.
  pose proof (buildPageMap_has (cleanPages pages) k) as H.
  unfold mapHas in H. unfold cleanPages in H at 2.
  rewrite cleanPagesFrom_urls in H. rewrite <- H.
  now destruct (mapGet (buildPageMap (cleanPages pages)) k).
Qed.

Lemma attached_keyed (pages : list PageRecord) (k : string) (n : PageNode) :
  mapGet (attachedMap pages) k = Some n -> clean_url (node_page n) = k.
Proof.
  rewrite attached_get.
  destruct (mapGet (buildPageMap (cleanPages pages)) k) as [n0|] eqn:E;
    [| discriminate].
  intros [= <-]. simpl.
  now apply (buildPageMap_fresh (cleanPages pages) k n0).
Qed.

Lemma attachedTo_parent (pages : list PageRecord) (k : string) (p : PageRecord) :
  In p (attachedTo pages k) ->
  In p pages /\ hasParent pages p = true /\ page_parentUrl p = Some k.
Proof.
  unfold attachedTo. rewrite filter_In. intros [Hp H].
  apply andb_true_iff in H as [H1 H2].
  destruct (page_parentUrl p) as [q|]; [| discriminate].
  apply String.eqb_eq in H2. subst q. auto.
Qed.

Lemma hasParent_in (pages : list PageRecord) (p : PageRecord) (q : string) :
  hasParent pages p = true -> page_parentUrl p = Some q ->
  In q (map page_url pages).
Proof.
  unfold hasParent. intros H E. rewrite E in H.
  apply andb_true_iff in H as [_ H].
  apply existsb_exists in H as (x & Hx & Ex).
  apply String.eqb_eq in Ex. now subst x.
Qed.

Lemma in_urls_has (l : list string) (k : string) :
  In k l -> existsb (String.eqb k) l = true.
Proof.
  intros H. apply existsb_exists. exists k. split; [exact H |].
  apply String.eqb_refl.
Qed.

Lemma has_in_urls (l : list string) (k : string) :
  existsb (String.eqb k) l = true -> In k l.
Proof.
  intros H. apply existsb_exists in H as (x & Hx & Ex).
  apply String.eqb_eq in Ex. now subst x.
Qed.

Lemma attached_children (pages : list PageRecord) (k : string) :
  childrenOf (attachedMap pages) k = map page_url (attachedTo pages k).
Proof.
  unfold childrenOf. rewrite attached_get.
  destruct (mapGet (buildPageMap (cleanPages pages)) k) as [n0|] eqn:E.
  - simpl.
    now destruct (buildPageMap_fresh (cleanPages pages) k n0 E) as [_ ->].
  - simpl. destruct (attachedTo pages k) as [|p l] eqn:A; [reflexivity |].
    exfalso.
    assert (Hp : In p (attachedTo pages k)) by (rewrite A; now left).
    apply attachedTo_parent in Hp as (_ & H1 & H2).
    pose proof (in_urls_has _ _ (hasParent_in pages p k H1 H2)) as H.
    pose proof (buildPageMap_has (cleanPages pages) k) as B.
    unfold cleanPages in B at 2. rewrite cleanPagesFrom_urls, H in B.
    unfold mapHas in B. rewrite E in B. discriminate B.
Qed.

(** A non-empty list has an element of least rank. *)
Lemma least_rank {A : Type} (f : A -> nat) (l : list A) :
  l <> [] -> exists x, In x l /\ forall y, In y l -> f x <= f y.
Proof.
  induction l as [|a l IH]; [congruence |]. intros _.
  destruct l as [|b l].
  - exists a. split; [now left |]. intros y [<- | []]. lia.
  - destruct IH as (x & Hx & Hmin); [discriminate |].
    destruct (Nat.le_gt_cases (f a) (f x)).
    + exists a. split; [now left |].
      intros y [<- | Hy]; [lia |]. specialize (Hmin y Hy). lia.
    + exists x. split; [now right |].
      intros y [<- | Hy]; [lia | now apply Hmin].
Qed.

(** With acyclic parent references some record is top-level. *)
Lemma topLevel_nonempty (rank : string -> nat) (pages : list PageRecord) :
  pages <> [] -> acyclicBy rank pages -> topLevel pages <> [].
Proof.
  intros Hne Hacy.
  destruct (least_rank (fun p => rank (page_url p)) pages Hne)
    as (x & Hx & Hmin).
  assert (Hp : hasParent pages x = false).
  { destruct (hasParent pages x) eqn:E; [| reflexivity]. exfalso.
    pose proof E as E'. unfold hasParent in E'.
    destruct (page_parentUrl x) as [q|] eqn:Q; [| discriminate].
    pose proof (Hacy x q Hx Q E) as Hr.
    apply (hasParent_in pages x q E) in Q.
    apply in_map_iff in Q as (y & <- & Hy).
    specialize (Hmin y Hy). simpl in Hmin. lia. }
  intros T.
  assert (In x (topLevel pages)).
  { apply filter_In. split; [exact Hx | now rewrite Hp]. }
  rewrite T in H. contradiction.
Qed.

(** The builder on a non-empty input with a top-level record. *)
Lemma buildSitemapStructure_nonempty (fuel : nat) (pages : list PageRecord) :
  pages <> [] -> topLevel pages <> [] ->
  buildSitemapStructure fuel (Some pages)
  = match map page_url (topLevel pages) with
    | [r] => buildNode fuel (attachedMap pages) r
    | rn =>
        option_map
          (fun ks => Node "root" (rootUrl pages) "Root" 0 "ok" (Some ks))
          (sequence (map (buildNode fuel (attachedMap pages)) rn))
    end.
Proof.
  intros Hne Htop.
  destruct pages as [|p0 ps]; [congruence |].
  unfold buildSitemapStructure, attachAll, attachedMap, rootUrl.
  pose proof (attached_roots (p0 :: ps)) as R. cbv zeta in R.
  destruct (fold_left _ _ _) as [pm rn]. simpl in R. subst rn. cbv zeta.
  destruct (topLevel (p0 :: ps)) as [|t ts]; [congruence |].
  cbn [map fst].
  change (cleanPages (p0 :: ps))
    with (cleanPage p0 0 :: cleanPagesFrom 1 ps).
  cbv iota beta.
  destruct ts as [|t' ts]; [reflexivity |].
  cbn [map].
  destruct (sequence _); reflexivity.
Qed.

End BuilderFacts.

(** ** The tree builder: the claims *)

Section BuilderTheorems.

Lemma find_by_url (pages : list PageRecord) (p : PageRecord) :
  NoDup (map page_url pages) -> In p pages ->
  find (fun x => String.eqb (page_url x) (page_url p)) pages = Some p.
Proof.
  induction pages as [|a l IH]; simpl; [tauto |].
  intros N Hp. inversion N as [|? ? Ha Hl]; subst.
  destruct (String.eqb_spec (page_url a) (page_url p)) as [E|E].
  - destruct Hp as [-> | Hp]; [reflexivity |].
    exfalso. apply Ha. rewrite E. now apply in_map.
  - destruct Hp as [-> | Hp]; [congruence | now apply IH].
Qed.

Lemma parOf_page (pages : list PageRecord) (p : PageRecord) :
  NoDup (map page_url pages) -> In p pages ->
  parOf pages (page_url p)
  = if hasParent pages p then page_parentUrl p else None.
Proof. intros N Hp. unfold parOf. now rewrite find_by_url. Qed.

Lemma attached_kids_spec (pages : list PageRecord) (k : string) :
  NoDup (map page_url pages) ->
  childrenOf (attachedMap pages) k
  = filter (parIs (parOf pages) k) (map page_url pages).
Proof.
  intros N. rewrite attached_children, <- map_filter_comm.
  unfold attachedTo. f_equal. apply filter_ext_in.
  intros p Hp. unfold parIs. rewrite (parOf_page pages p N Hp).
  destruct (hasParent pages p); reflexivity.
Qed.

Lemma topLevel_roots (pages : list PageRecord) :
  NoDup (map page_url pages) ->
  map page_url (topLevel pages)
  = filter (isRoot (parOf pages)) (map page_url pages).
Proof.
  intros N. rewrite <- map_filter_comm.
  unfold topLevel. f_equal. apply filter_ext_in.
  intros p Hp. unfold isRoot. rewrite (parOf_page pages p N Hp).
  unfold hasParent. destruct (page_parentUrl p) as [q|]; [| reflexivity].
  now destruct (truthy q && existsb _ _).
Qed.

Lemma parOf_acyclic (rank : string -> nat) (pages : list PageRecord) :
  NoDup (map page_url pages) -> acyclicBy rank pages ->
  forall c q, In c (map page_url pages) -> parOf pages c = Some q ->
              In q (map page_url pages) /\ rank q < rank c.
Proof.
  intros N Hacy c q Hc E.
  apply in_map_iff in Hc as (p & <- & Hp).
  rewrite (parOf_page pages p N Hp) in E.
  destruct (hasParent pages p) eqn:H; [| discriminate].
  split; [now apply (hasParent_in pages p) | now apply Hacy].
Qed.

(** Above the greatest rank, [buildNode] returns a node for every URL of
    the input. *)
Lemma buildNode_attached_total (rank : string -> nat)
    (pages : list PageRecord) (fuel : nat) (k : string) :
  acyclicBy rank pages ->
  In k (map page_url pages) ->
  list_max (map rank (map page_url pages)) < fuel ->
  exists t, buildNode fuel (attachedMap pages) k = Some t.
Proof.
  intros Hacy Hk Hf.
  apply (buildNode_total (attachedMap pages) rank
           (list_max (map rank (map page_url pages)))).
  - intros k' H. rewrite attached_has in H. apply has_in_urls in H.
    pose proof (proj1 (list_max_le (map rank (map page_url pages)) _)
                      (Nat.le_refl _)) as F.
    rewrite Forall_forall in F. apply F. now apply in_map.
  - intros k' c Hc. rewrite attached_children in Hc.
    apply in_map_iff in Hc as (p & <- & Hp).
    apply attachedTo_parent in Hp as (Hp & H1 & H2).
    split; [| now apply Hacy].
    rewrite attached_has. apply in_urls_has. now apply in_map.
  - rewrite attached_has. now apply in_urls_has.
  - lia.
Qed.

Lemma buildNodes_attached_total (rank : string -> nat)
    (pages : list PageRecord) (fuel : nat) (l : list string) :
  acyclicBy rank pages -> incl l (map page_url pages) ->
  list_max (map rank (map page_url pages)) < fuel ->
  exists ts, sequence (map (buildNode fuel (attachedMap pages)) l) = Some ts.
Proof.
  intros Hacy Hl Hf. apply sequence_map_total.
  intros x Hx. apply (buildNode_attached_total rank); auto.
Qed.

Lemma built_urls (pages : list PageRecord) (fuel : nat) (l : list string)
    (ts : list SitemapNode) :
  sequence (map (buildNode fuel (attachedMap pages)) l) = Some ts ->
  map sn_url ts = l /\
  flat_map tree_urls ts
  = flat_map (walk (childrenOf (attachedMap pages)) fuel) l.
Proof.
  intros S. apply sequence_map_some in S.
  induction S as [|x y l l' Hxy _ [IH1 IH2]]; simpl; [auto |].
  rewrite (buildNode_url _ (attached_keyed pages) _ _ _ Hxy).
  rewrite (buildNode_walk _ (attached_keyed pages) _ _ _ Hxy).
  now rewrite IH1, IH2.
Qed.

Lemma topLevel_incl (pages : list PageRecord) :
  incl (map page_url (topLevel pages)) (map page_url pages).
Proof.
  intros x Hx. apply in_map_iff in Hx as (p & <- & Hp).
  apply filter_In in Hp as [Hp _]. now apply in_map.
Qed.

(** C10.  On a missing or an empty list the builder returns the fixed
    root: id [root], title [Root], depth [0], status [ok] and an empty
    [children] list. *)
Theorem buildSitemapStructure_empty (fuel : nat) :
  buildSitemapStructure fuel None = Some emptyRoot /\
  buildSitemapStructure fuel (Some []) = Some emptyRoot /\
  emptyRoot = Node "root" "" "Root" 0 "ok" (Some []) /\
  sn_id emptyRoot = "root" /\ sn_title emptyRoot = "Root" /\
  sn_depth emptyRoot = 0%Z /\ sn_status emptyRoot = "ok" /\
  sn_children emptyRoot = [].
Proof. repeat split. Qed.

(** With acyclic parent references the builder returns: fuel above the
    greatest rank is enough for the recursion. *)
Lemma builder_returns (rank : string -> nat) (pages : list PageRecord) :
  acyclicBy rank pages ->
  exists n, forall fuel, n <= fuel ->
  exists t, buildSitemapStructure fuel (Some pages) = Some t.
Proof.
  intros Hacy.
  destruct pages as [|p0 ps]; [exists 0; intros; now exists emptyRoot |].
  assert (Hne : p0 :: ps <> []) by discriminate.
  exists (S (list_max (map rank (map page_url (p0 :: ps))))).
  intros fuel Hf.
  pose proof (topLevel_nonempty rank _ Hne Hacy) as Htop.
  rewrite (buildSitemapStructure_nonempty fuel _ Hne Htop).
  pose proof (topLevel_incl (p0 :: ps)) as Hincl.
  destruct (topLevel (p0 :: ps)) as [|a [|b l]] eqn:T; [congruence | |].
  - cbn [map].
    apply (buildNode_attached_total rank); [exact Hacy | | lia].
    apply Hincl. now left.
  - destruct (buildNodes_attached_total rank (p0 :: ps) fuel
                (map page_url (a :: b :: l)) Hacy Hincl) as [ts Hts]; [lia |].
    cbn [map] in Hts |- *. rewrite Hts. cbn [option_map]. eauto.
Qed.

(** The records of a non-empty input, each exactly once. *)
Lemma records_once_nonempty (rank : string -> nat) (pages : list PageRecord) :
  pages <> [] -> NoDup (map page_url pages) -> acyclicBy rank pages ->
  exists n, forall fuel, n <= fuel ->
  exists t,
    buildSitemapStructure fuel (Some pages) = Some t /\
    Permutation (flat_map tree_urls (recordNodes pages t))
                (map page_url pages) /\
    NoDup (flat_map tree_urls (recordNodes pages t)) /\
    (forall p, In p pages -> hasParent pages p = false ->
               In (page_url p) (map sn_url (recordNodes pages t))).
Proof.
  intros Hne N Hacy.
  exists (S (list_max (map rank (map page_url pages)))).
  intros fuel Hf.
  pose proof (topLevel_nonempty rank pages Hne Hacy) as Htop.
  pose proof (topLevel_incl pages) as Hincl.
  assert (Hrank : forall k, In k (map page_url pages) -> rank k < fuel).
  { intros k Hk.
    pose proof (proj1 (list_max_le (map rank (map page_url pages)) _)
                      (Nat.le_refl _)) as F.
    rewrite Forall_forall in F.
    specialize (F (rank k) (in_map rank _ _ Hk)). lia. }
  pose proof (walk_roots_all (childrenOf (attachedMap pages))
                (map page_url pages) (parOf pages) rank N
                (fun k => attached_kids_spec pages k N)
                (parOf_acyclic rank pages N Hacy) fuel Hrank) as W.
  rewrite <- (topLevel_roots pages N) in W.
  assert (Horph : forall p, In p pages -> hasParent pages p = false ->
                            In (page_url p) (map page_url (topLevel pages))).
  { intros p Hp H. apply in_map, filter_In. split; [exact Hp | now rewrite H]. }
  rewrite (buildSitemapStructure_nonempty fuel pages Hne Htop).
  unfold recordNodes.
  destruct (topLevel pages) as [|a [|b l]] eqn:T; [congruence | |].
  - cbn [map] in *.
    destruct (buildNode_attached_total rank pages fuel (page_url a) Hacy)
      as [t Ht]; [apply Hincl; now left | lia |].
    exists t. split; [exact Ht |].
    assert (E : flat_map tree_urls [t]
                = flat_map (walk (childrenOf (attachedMap pages)) fuel)
                           [page_url a]).
    { simpl. now rewrite (buildNode_walk _ (attached_keyed pages) _ _ _ Ht). }
    rewrite E. split; [exact W |]. split.
    + apply (Permutation_NoDup (Permutation_sym W) N).
    + simpl map. rewrite (buildNode_url _ (attached_keyed pages) _ _ _ Ht).
      exact Horph.
  - destruct (buildNodes_attached_total rank pages fuel
                (map page_url (a :: b :: l)) Hacy Hincl) as [ts Hts]; [lia |].
    destruct (built_urls pages fuel _ ts Hts) as [U F].
    cbn [map] in Hts, U, F, W, Horph |- *. rewrite Hts. cbn [option_map].
    eexists. split; [reflexivity |].
    cbn [sn_children]. rewrite F, U.
    split; [exact W |]. split; [| exact Horph].
    apply (Permutation_NoDup (Permutation_sym W) N).
Qed.

(** C4.  For an input with pairwise distinct URLs and acyclic parent
    references the builder returns a tree (enough fuel for the recursion
    exists) whose record nodes carry every input URL exactly once: their
    URLs are a permutation of the input URLs and hold no duplicate, so no
    node is met twice.  A record whose parent is not in the input is a
    top-level node. *)
Theorem sitemap_holds_every_record_once (rank : string -> nat)
    (pages : list PageRecord) :
  NoDup (map page_url pages) -> acyclicBy rank pages ->
  exists n, forall fuel, n <= fuel ->
  exists t,
    buildSitemapStructure fuel (Some pages) = Some t /\
    Permutation (flat_map tree_urls (recordNodes pages t))
                (map page_url pages) /\
    NoDup (flat_map tree_urls (recordNodes pages t)) /\
    (forall p, In p pages -> hasParent pages p = false ->
               In (page_url p) (map sn_url (recordNodes pages t))).
Proof.
  intros N Hacy.
  destruct pages as [|p0 ps].
  - exists 0. intros fuel _. exists emptyRoot.
    repeat split; simpl; try constructor. intros p [].
  - apply (records_once_nonempty rank); [discriminate | exact N | exact Hacy].
Qed.

Lemma sitemap_holds_every_record_once_witness :
  exists n, forall fuel, n <= fuel ->
  exists t,
    buildSitemapStructure fuel (Some smallSite) = Some t /\
    Permutation (flat_map tree_urls (recordNodes smallSite t))
                (map page_url smallSite) /\
    NoDup (flat_map tree_urls (recordNodes smallSite t)) /\
    (forall p, In p smallSite -> hasParent smallSite p = false ->
               In (page_url p) (map sn_url (recordNodes smallSite t))).
Proof.
  apply (sitemap_holds_every_record_once String.length smallSite).
  - repeat constructor; simpl; intuition discriminate.
  - intros p q Hp E H.
    repeat (destruct Hp as [<- | Hp]; [try discriminate H;
      injection E as <-; simpl; lia |]).
    destruct Hp.
Defined.

End BuilderTheorems.

(** ** The Playwright traversal *)

Section CrawlFacts.

Import Playwright.

Lemma normalize_output_parses (s v : string) :
  normalizeUrl s (includes s "#/") = Some v -> parses v.
Proof.
  intros N. destruct (normalize_parses s v N) as [u E].
  unfold parses. now rewrite E.
Qed.

Lemma setAdd_parses (s : list string) (x : string) :
  Forall parses s -> parses x -> Forall parses (setAdd s x).
Proof.
  intros Hs Hx. unfold setAdd. destruct (setHas s x); [exact Hs |].
  apply Forall_app. split; [exact Hs | now constructor].
Qed.

Lemma setAdd_length (s : list string) (x : string) :
  length (setAdd s x) <= S (length s).
Proof.
  unfold setAdd. destruct (setHas s x); [lia |].
  rewrite length_app. simpl. lia.
Qed.

Lemma dispatch_parses (md : Z) (v : list string)
    (started : list (QueueItem * string)) (item : QueueItem) :
  Forall parses v -> Forall (fun j => parses (snd j)) started ->
  Forall parses (fst (dispatch md (v, started) item)) /\
  Forall (fun j => parses (snd j)) (snd (dispatch md (v, started) item)).
Proof.
  intros Hv Hs. unfold dispatch.
  destruct (normalizeUrl _ _) as [url|] eqn:N; [| now split].
  destruct (_ || _); [now split |].
  pose proof (normalize_output_parses _ _ N) as P. simpl. split.
  - now apply setAdd_parses.
  - apply Forall_app. split; [exact Hs | now constructor].
Qed.

Lemma dispatch_length (md : Z) (v : list string)
    (started : list (QueueItem * string)) (item : QueueItem) :
  length (fst (dispatch md (v, started) item)) <= S (length v).
Proof.
  unfold dispatch. destruct (normalizeUrl _ _) as [url|]; [| simpl; lia].
  destruct (_ || _); simpl; [lia | apply setAdd_length].
Qed.

Lemma dispatch_fold_parses (md : Z) (batch : list QueueItem)
    (acc : list string * list (QueueItem * string)) :
  Forall parses (fst acc) -> Forall (fun j => parses (snd j)) (snd acc) ->
  Forall parses (fst (fold_left (dispatch md) batch acc)) /\
  Forall (fun j => parses (snd j)) (snd (fold_left (dispatch md) batch acc)).
Proof.
  revert acc; induction batch as [|item batch IH]; intros [v s] Hv Hs;
    [now split |].
  cbn [fold_left]. destruct (dispatch_parses md v s item Hv Hs) as [H1 H2].
  apply IH; assumption.
Qed.

Lemma dispatch_fold_length (md : Z) (batch : list QueueItem)
    (acc : list string * list (QueueItem * string)) :
  length (fst (fold_left (dispatch md) batch acc))
  <= length (fst acc) + length batch.
Proof.
  revert acc; induction batch as [|item batch IH]; intros [v s];
    cbn [fold_left]; [simpl; lia |].
  specialize (IH (dispatch md (v, s) item)).
  pose proof (dispatch_length md v s item). simpl in *. lia.
Qed.

Lemma processLink_visited (md : Z) (base : string) (item : QueueItem)
    (url : string) (st : CrawlState) (link : string) :
  visited (processLink md base item url st link) = visited st /\
  pages (processLink md base item url st link) = pages st /\
  rows (processLink md base item url st link) = rows st.
Proof.
  unfold processLink. destruct (normalizeUrl _ _); [| auto].
  destruct (_ && _); auto.
Qed.

Lemma processLink_parses (md : Z) (base : string) (item : QueueItem)
    (url : string) (st : CrawlState) (link : string) :
  allParse st -> allParse (processLink md base item url st link).
Proof.
  intros [H1 H2 H3 H4]. unfold processLink.
  destruct (normalizeUrl _ _) as [nl|] eqn:N; [| now constructor].
  destruct (_ && _); [| now constructor].
  constructor; simpl; auto.
  rewrite map_app. apply Forall_app. split; [exact H2 |].
  constructor; [| constructor]. exact (normalize_output_parses _ _ N).
Qed.

Lemma links_fold_parses (md : Z) (base : string) (item : QueueItem)
    (url : string) (links : list string) (st : CrawlState) :
  allParse st ->
  allParse (fold_left (processLink md base item url) links st).
Proof.
  revert st; induction links as [|l links IH]; intros st H; [exact H |].
  cbn [fold_left]. apply IH. now apply processLink_parses.
Qed.

Lemma links_fold_visited (md : Z) (base : string) (item : QueueItem)
    (url : string) (links : list string) (st : CrawlState) :
  visited (fold_left (processLink md base item url) links st) = visited st.
Proof.
  revert st; induction links as [|l links IH]; intros st; [reflexivity |].
  cbn [fold_left]. rewrite IH. apply processLink_visited.
Qed.

Lemma finish_parses (w : World) (md : Z) (base : string) (st : CrawlState)
    (job : QueueItem * string) :
  allParse st -> parses (snd job) -> allParse (finish w md base st job).
Proof.
  intros [H1 H2 H3 H4] P. destruct job as [item url]. unfold finish.
  destruct (crawlPage w url) as [title links].
  apply links_fold_parses.
  destruct (insertPage w _); [| now constructor].
  constructor; simpl; auto; rewrite map_app; apply Forall_app; split; auto;
    now constructor.
Qed.

Lemma finish_visited (w : World) (md : Z) (base : string) (st : CrawlState)
    (job : QueueItem * string) :
  visited (finish w md base st job) = visited st.
Proof.
  destruct job as [item url]. unfold finish.
  destruct (crawlPage w url) as [title links].
  rewrite links_fold_visited. now destruct (insertPage w _).
Qed.

Lemma finish_fold_parses (w : World) (md : Z) (base : string)
    (started : list (QueueItem * string)) (st : CrawlState) :
  allParse st -> Forall (fun j => parses (snd j)) started ->
  allParse (fold_left (finish w md base) started st).
Proof.
  revert st; induction started as [|j started IH]; intros st H F;
    [exact H |].
  inversion F; subst. cbn [fold_left]. apply IH; [| assumption].
  now apply finish_parses.
Qed.

Lemma finish_fold_visited (w : World) (md : Z) (base : string)
    (started : list (QueueItem * string)) (st : CrawlState) :
  visited (fold_left (finish w md base) started st) = visited st.
Proof.
  revert st; induction started as [|j started IH]; intros st; [reflexivity |].
  cbn [fold_left]. rewrite IH. apply finish_visited.
Qed.

Lemma iteration_visited (w : World) (md : Z) (base : string) (st : CrawlState) :
  visited (iteration w md base st)
  = fst (fold_left (dispatch md) (firstn CONCURRENCY (queue st))
                   (visited st, [])).
Proof.
  unfold iteration. destruct (fold_left (dispatch md) _ _) as [v s].
  now rewrite finish_fold_visited.
Qed.

Lemma iteration_parses (w : World) (md : Z) (base : string) (st : CrawlState) :
  allParse st -> allParse (iteration w md base st).
Proof.
  intros [H1 H2 H3 H4]. unfold iteration.
  destruct (dispatch_fold_parses md (firstn CONCURRENCY (queue st))
              (visited st, [])) as [A1 A2]; [exact H1 | constructor |].
  destruct (fold_left (dispatch md) _ _) as [v s]. simpl in A1, A2.
  apply finish_fold_parses; [| exact A2].
  constructor; simpl; auto.
  rewrite <- (firstn_skipn CONCURRENCY (queue st)), map_app in H2.
  now apply Forall_app in H2.
Qed.

Lemma reachable_parses (w : World) (job : Job) (st : CrawlState) :
  parses (baseUrlOf job) -> reachable w job st -> allParse st.
Proof.
  intros P R. induction R as [|st R IH C].
  - constructor; simpl; auto.
  - now apply iteration_parses.
Qed.

(** What the loop test does bound: a turn starts below [maxPages] and marks
    at most [CONCURRENCY] URLs. *)
Lemma reachable_visited_bound (w : World) (job : Job) (st : CrawlState) :
  reachable w job st ->
  (Z.of_nat (length (visited st))
   <= Z.max 0 (maxPages job - 1 + Z.of_nat CONCURRENCY))%Z.
Proof.
  intros R. induction R as [|st R IH C].
  - simpl. lia.
  - rewrite iteration_visited.
    pose proof (dispatch_fold_length (maxDepth job)
                  (firstn CONCURRENCY (queue st)) (visited st, [])) as L.
    pose proof (firstn_le_length CONCURRENCY (queue st)) as F.
    unfold continues in C. apply andb_true_iff in C as [_ C].
    apply Z.ltb_lt in C. cbn [fst] in L. unfold CONCURRENCY in *. lia.
Qed.

End CrawlFacts.

(** ** The traversal: the claims *)

Section CrawlTheorems.

(** C1, at the failing input.  With [maxPages = 2] the loop test lets a
    second turn start at one visited URL; that turn marks the six queued
    links at once, and the job ends with seven visited URLs and seven page
    records. *)
Theorem crawl_overshoots_maxPages :
  let st :=
    Playwright.iteration fanOutWorld 3 "https://a.com"
      (Playwright.iteration fanOutWorld 3 "https://a.com"
         (Playwright.initialState fanOutJob)) in
  Playwright.crawlFinal 2 fanOutWorld fanOutJob = Playwright.Returned st /\
  Playwright.reachable fanOutWorld fanOutJob st /\
  Playwright.maxPages fanOutJob = 2%Z /\
  length (Playwright.visited st) = 7 /\
  length (Playwright.pages st) = 7.
Proof.
  cbv zeta. split; [vm_compute; reflexivity |].
  split; [| repeat split; vm_compute; reflexivity].
  apply (Playwright.reach_step fanOutWorld fanOutJob);
    [| vm_compute; reflexivity].
  apply (Playwright.reach_step fanOutWorld fanOutJob);
    [| vm_compute; reflexivity].
  apply Playwright.reach_init.
Qed.

(** The Puppeteer loop is the path that keeps the bound on the page
    records: it tests [pages.length] and takes one item per turn. *)
Lemma puppeteer_pages_bound (w : Puppeteer.World) (domain : string)
    (maxDepth maxPages : Z) (st : Puppeteer.CrawlState) :
  Puppeteer.reachable w domain maxDepth maxPages st ->
  (Z.of_nat (length (Puppeteer.pages st)) <= Z.max 0 maxPages)%Z.
Proof.
  intros R. induction R as [|st u R IH P C].
  - simpl. lia.
  - unfold Puppeteer.continues in C. apply andb_true_iff in C as [_ C].
    apply Z.ltb_lt in C.
    assert (L : length (Puppeteer.pages
                          (Puppeteer.iteration w maxDepth (Url.hostname u) st))
                <= S (length (Puppeteer.pages st))).
    { unfold Puppeteer.iteration. destruct (Puppeteer.queue st) as [|item rest];
        [lia |].
      unfold Puppeteer.visit. cbn [Puppeteer.visited Puppeteer.pages].
      repeat match goal with
             | |- context [if ?b then _ else _] => destruct b
             end; cbn [Puppeteer.pages]; try lia.
      assert (E : forall e s, Puppeteer.pages
                                (Puppeteer.onError w item
                                   (Puppeteer.normalizeUrl
                                      (Puppeteer.item_url item)) e s)
                              = Puppeteer.pages s).
      { intros e s. unfold Puppeteer.onError.
        now destruct (Puppeteer.insertPage w _). }
      destruct (Puppeteer.fetch w _) as [title links | e];
        [| rewrite E; cbn [Puppeteer.pages]; lia].
      destruct (Puppeteer.insertPage w _) as [id | e];
        [| rewrite E; cbn [Puppeteer.pages]; lia].
      match goal with
      | |- context [fold_left ?f ?l ?s] =>
          assert (F : forall l' s', Puppeteer.pages (fold_left f l' s')
                                    = Puppeteer.pages s')
      end.
      { induction l' as [|x l' IHl]; intros s'; [reflexivity |].
        cbn [fold_left]. rewrite IHl. unfold Puppeteer.processLink.
        destruct (Url.parse x); [| reflexivity].
        destruct (Puppeteer.isSameDomain _ _); [| reflexivity].
        now destruct (_ && _). }
      rewrite F. cbn [Puppeteer.pages]. rewrite length_app. simpl. lia. }
    lia.
Qed.

(** C3, at the failing input.  The fetch of the seed fails; the job goes on
    to its end and stores the page with no links followed, but under the
    title [Untitled] and the status code [200]. *)
Theorem failed_fetch_stored_as_200 :
  Playwright.crawlFinal 1 timeoutWorld plainJob
  = Playwright.Returned
      {| Playwright.visited := ["https://a.com"];
         Playwright.queue := [];
         Playwright.pages :=
           [mkPage "1" "https://a.com" 0 None "Untitled"];
         Playwright.rows :=
           [Playwright.mkRow "https://a.com" 0 None "Untitled" 200] |}.
Proof. vm_compute. reflexivity. Qed.

(** The same for every failed fetch of the Playwright crawler: the row is
    written with status [200] and the queue does not change. *)
Lemma playwright_failed_fetch (w : Playwright.World) (md : Z) (base : string)
    (st : Playwright.CrawlState) (item : Playwright.QueueItem)
    (url message id : string) :
  Playwright.navigate w url = Playwright.Failed message ->
  Playwright.insertPage w
    (Playwright.mkRow url (Playwright.item_depth item)
       (Playwright.item_parentUrl item) "Untitled" 200) = Some id ->
  Playwright.finish w md base st (item, url)
  = {| Playwright.visited := Playwright.visited st;
       Playwright.queue := Playwright.queue st;
       Playwright.pages :=
         Playwright.pages st ++
         [mkPage id url (Playwright.item_depth item)
                 (Playwright.item_parentUrl item) "Untitled"];
       Playwright.rows :=
         Playwright.rows st ++
         [Playwright.mkRow url (Playwright.item_depth item)
            (Playwright.item_parentUrl item) "Untitled" 200] |}.
Proof.
  intros N I. unfold Playwright.finish, Playwright.crawlPage.
  rewrite N. cbv beta iota zeta.
  change (Playwright.needsTitle "Untitled") with false.
  cbv iota. rewrite I. reflexivity.
Qed.

Lemma errorStatus_values (error : Puppeteer.JsError) :
  Puppeteer.errorStatus error = 403%Z \/ Puppeteer.errorStatus error = 408%Z
  \/ Puppeteer.errorStatus error = 0%Z.
Proof.
  unfold Puppeteer.errorStatus.
  destruct (_ || _ || _ || _); [now left |].
  destruct (_ || _); [right; now left | right; now right].
Qed.

(** The Puppeteer loop is the path that stores a failed page under a
    synthetic status: the [catch] block writes [403], [408] or [0], the
    queue and the page list do not change, and the loop goes on. *)
Lemma puppeteer_failed_fetch (w : Puppeteer.World) (md : Z) (base : string)
    (item : Puppeteer.QueueItem) (st : Puppeteer.CrawlState)
    (error : Puppeteer.JsError) (id : string) :
  let url := Puppeteer.item_url item in
  let normalizedUrl := Puppeteer.normalizeUrl url in
  (md <? Puppeteer.item_depth item)%Z = false ->
  Puppeteer.setHas (Puppeteer.visited st) url = false ->
  Puppeteer.robots w = None ->
  Puppeteer.setHas (Puppeteer.visited st) normalizedUrl = false ->
  Puppeteer.fetch w url = Puppeteer.Threw error ->
  Puppeteer.insertPage w (errorRow item normalizedUrl error)
  = Puppeteer.Inserted id ->
  Puppeteer.visit w md base item st
  = {| Puppeteer.visited :=
         Puppeteer.setAdd
           (Puppeteer.setAdd (Puppeteer.visited st) normalizedUrl) url;
       Puppeteer.queue := Puppeteer.queue st;
       Puppeteer.pages := Puppeteer.pages st;
       Puppeteer.rows :=
         Puppeteer.rows st ++ [errorRow item normalizedUrl error] |}
  /\ Puppeteer.row_statusCode (errorRow item normalizedUrl error) <> 200%Z.
Proof.
  intros url normalizedUrl D V1 R V2 F I. split.
  - unfold Puppeteer.visit. fold url. rewrite D, V1, R.
    fold normalizedUrl. rewrite V2, F.
    unfold Puppeteer.onError. fold (errorRow item normalizedUrl error).
    rewrite I. reflexivity.
  - simpl. destruct (errorStatus_values error) as [-> | [-> | ->]];
      discriminate.
Qed.

(** A seed the parser rejects: [new URL(baseUrl)] throws before the queue
    exists. *)
Lemma malformed_seed_throws (fuel : nat) (w : Playwright.World)
    (job : Playwright.Job) :
  Url.parse (Playwright.baseUrlOf job) = None ->
  Playwright.crawlWebsite fuel w job = Playwright.Thrown.
Proof.
  intros P. unfold Playwright.crawlWebsite, Playwright.crawlFinal.
  now rewrite P.
Qed.

(** The Puppeteer normaliser is the variant that never fails: a string the
    parser rejects still gets a canonical form. *)
Example puppeteer_normalizes_malformed :
  Puppeteer.normalizeUrl "not a url?x=1#frag" = "not a url#frag".
Proof. reflexivity. Qed.

End CrawlTheorems.

(** ** The Playwright traversal: what every state keeps *)

Section CrawlInvariants.

Import Playwright.

Lemma setHas_false (s : list string) (x : string) :
  setHas s x = false -> ~ In x s.
Proof.
  unfold setHas. intros H I.
  assert (E : existsb (String.eqb x) s = true).
  { apply existsb_exists. exists x. split; [exact I | apply String.eqb_refl]. }
  congruence.
Qed.

(** The batch, dispatched: the URLs of the started items are appended to
    the visited set, each once. *)
Lemma dispatch_fold_shape (md : Z) (batch : list QueueItem) (v : list string)
    (s : list (QueueItem * string)) :
  exists new,
    fold_left (dispatch md) batch (v, s) = (v ++ map snd new, s ++ new) /\
    (NoDup v -> NoDup (v ++ map snd new)) /\
    Forall (fun j => In (fst j) batch /\
                     (item_depth (fst j) <= md)%Z /\
                     normalize (item_url (fst j)) = Some (snd j)) new.
Proof.
  revert v s; induction batch as [|item batch IH]; intros v s.
  - exists []. simpl. rewrite !app_nil_r. repeat split; auto.
  - cbn [fold_left]. unfold dispatch at 2.
    destruct (normalizeUrl (item_url item) (includes (item_url item) "#/"))
      as [url|] eqn:N.
    2:{ destruct (IH v s) as (new & E & Hn & F). exists new.
        split; [exact E |]. split; [exact Hn |].
        eapply Forall_impl; [| exact F]. intros j (H1 & H2).
        split; [now right | exact H2]. }
    destruct (negb (truthy url) || setHas v url || (md <? item_depth item)%Z)
      eqn:G.
    { destruct (IH v s) as (new & E & Hn & F). exists new.
      split; [exact E |]. split; [exact Hn |].
      eapply Forall_impl; [| exact F]. intros j (H1 & H2).
      split; [now right | exact H2]. }
    apply orb_false_iff in G as [G G3]. apply orb_false_iff in G as [G1 G2].
    unfold setAdd. rewrite G2.
    destruct (IH (v ++ [url]) (s ++ [(item, url)])) as (new & E & Hn & F).
    exists ((item, url) :: new). cbn [map snd].
    split; [rewrite E; now rewrite <- !app_assoc |].
    split.
    + intros Nv. replace (v ++ url :: map snd new)
        with ((v ++ [url]) ++ map snd new) by now rewrite <- app_assoc.
      apply Hn. apply NoDup_app; [exact Nv | repeat constructor; auto | ].
      (* the appended URL is new *)
      intros x Hx [E' | []]. subst x. now apply (setHas_false v url).
    + constructor.
      * cbn [fst snd]. split; [now left |]. split; [| exact N].
        apply Z.ltb_ge in G3. exact G3.
      * eapply Forall_impl; [| exact F]. intros j (H1 & H2).
        split; [now right | exact H2].
Qed.


Lemma orElse_truthy (a b : string) :
  truthy b = true -> truthy (orElse a b) = true.
Proof. unfold orElse. destruct (truthy a) eqn:E; auto. Qed.

Lemma humanize_truthy (s : string) : truthy (humanize s) = truthy s.
Proof. destruct s; reflexivity. Qed.

Lemma last_In (A : Type) (l : list A) (d : A) : l <> [] -> In (last l d) l.
Proof.
  induction l as [|a [|b l] IH]; intros H; [congruence | now left |].
  right. apply IH. discriminate.
Qed.

(** The title derived from a URL is never empty. *)
Lemma titleFromUrl_truthy (url : string) : truthy (titleFromUrl url) = true.
Proof.
  unfold titleFromUrl.
  destruct (Url.parse url) as [u|]; [| reflexivity].
  cbv zeta.
  destruct (truthy (drop 1 (Url.hash u)) && _).
  { now apply orElse_truthy. }
  destruct (truthy (drop 1 (Url.hash u))).
  { now apply orElse_truthy. }
  destruct (filter truthy (split "/" (Url.pathname u))) as [|x xs] eqn:F;
    [reflexivity |].
  rewrite humanize_truthy.
  assert (I : In (last (x :: xs) "")
                 (filter truthy (split "/" (Url.pathname u)))).
  { rewrite F. apply last_In. discriminate. }
  apply filter_In in I. apply I.
Qed.

Lemma cleanedTitle_truthy (title url : string) :
  truthy (if needsTitle title then titleFromUrl url else title) = true.
Proof.
  destruct (needsTitle title) eqn:E; [apply titleFromUrl_truthy |].
  unfold needsTitle in E. repeat (apply orb_false_iff in E as [E _]).
  now apply negb_false_iff in E.
Qed.

(** The link loop touches the queue only. *)
Lemma processLink_pages (md : Z) (base : string) (item : QueueItem)
    (url : string) (st : CrawlState) (link : string) :
  pages (processLink md base item url st link) = pages st /\
  rows (processLink md base item url st link) = rows st.
Proof.
  unfold processLink. destruct (normalizeUrl _ _); [| auto].
  destruct (_ && _ && _ && _); auto.
Qed.

Lemma links_fold_pages (md : Z) (base : string) (item : QueueItem)
    (url : string) (links : list string) (st : CrawlState) :
  pages (fold_left (processLink md base item url) links st) = pages st /\
  rows (fold_left (processLink md base item url) links st) = rows st.
Proof.
  revert st; induction links as [|l links IH]; intros st; [auto |].
  cbn [fold_left]. destruct (IH (processLink md base item url st l)) as [-> ->].
  apply processLink_pages.
Qed.

(** The items the link loop adds: one level below the page, with the page
    as their parent. *)
Lemma processLink_queue (md : Z) (base : string) (item : QueueItem)
    (url : string) (st : CrawlState) (link : string) :
  exists added,
    queue (processLink md base item url st link) = queue st ++ added /\
    Forall (fun it => item_depth it = (item_depth item + 1)%Z /\
                      item_parentUrl it = Some url /\
                      (item_depth item < md)%Z /\
                      sameDomain (item_url it) base = true) added.
Proof.
  unfold processLink. destruct (normalizeUrl _ _) as [n|].
  2:{ exists []. now rewrite app_nil_r. }
  destruct (_ && _ && _ && _) eqn:G.
  2:{ exists []. now rewrite app_nil_r. }
  apply andb_true_iff in G as [G G4]. apply Z.ltb_lt in G4.
  apply andb_true_iff in G as [_ G3].
  eexists. split; [reflexivity |]. repeat constructor; auto.
Qed.

Lemma links_fold_queue (md : Z) (base : string) (item : QueueItem)
    (url : string) (links : list string) (st : CrawlState) :
  exists added,
    queue (fold_left (processLink md base item url) links st)
    = queue st ++ added /\
    Forall (fun it => item_depth it = (item_depth item + 1)%Z /\
                      item_parentUrl it = Some url /\
                      (item_depth item < md)%Z /\
                      sameDomain (item_url it) base = true) added.
Proof.
  revert st; induction links as [|l links IH]; intros st.
  - exists []. now rewrite app_nil_r.
  - cbn [fold_left].
    destruct (processLink_queue md base item url st l) as (a1 & E1 & F1).
    destruct (IH (processLink md base item url st l)) as (a2 & E2 & F2).
    exists (a1 ++ a2). rewrite E2, E1, app_assoc. split; [reflexivity |].
    apply Forall_app. now split.
Qed.

(** What the second half of a callback does to the state: it may append
    one page record (and its row) for the URL of the job, and it appends
    the accepted links to the queue. *)
Lemma finish_shape (w : World) (md : Z) (base : string) (st : CrawlState)
    (item : QueueItem) (url : string) :
  exists new added,
    visited (finish w md base st (item, url)) = visited st /\
    pages (finish w md base st (item, url)) = pages st ++ new /\
    rows (finish w md base st (item, url)) = rows st ++ map rowOf new /\
    queue (finish w md base st (item, url)) = queue st ++ added /\
    Forall (fun p => page_url p = url /\ page_depth p = item_depth item /\
                     page_parentUrl p = item_parentUrl item /\
                     truthy (page_title p) = true) new /\
    length new <= 1 /\
    Forall (fun it => item_depth it = (item_depth item + 1)%Z /\
                      item_parentUrl it = Some url /\
                      (item_depth item < md)%Z /\
                      sameDomain (item_url it) base = true) added.
Proof.
  unfold finish. destruct (crawlPage w url) as [title links].
  cbv zeta.
  match goal with
  | |- context [fold_left ?f links ?s] =>
      destruct (links_fold_queue md base item url links s) as (added & Q & F);
      destruct (links_fold_pages md base item url links s) as [P R];
      pose proof (links_fold_visited md base item url links s) as V
  end.
  rewrite V, P, R, Q.
  destruct (insertPage w _) as [id|].
  - eexists [_], added. cbn [visited pages rows queue map].
    repeat split; auto.
    repeat constructor; cbn [page_url page_depth page_parentUrl page_title].
    apply cleanedTitle_truthy.
  - exists [], added. cbn [map]. rewrite !app_nil_r.
    repeat split; auto.
Qed.


Lemma finish_fold_shape (w : World) (md : Z) (base : string)
    (started : list (QueueItem * string)) (st : CrawlState) :
  exists new added,
    visited (fold_left (finish w md base) started st) = visited st /\
    pages (fold_left (finish w md base) started st) = pages st ++ new /\
    rows (fold_left (finish w md base) started st)
    = rows st ++ map rowOf new /\
    queue (fold_left (finish w md base) started st) = queue st ++ added /\
    Forall (fun p => exists j, In j started /\ pageOfJob j p) new /\
    (NoDup (map snd started) -> NoDup (map page_url new)) /\
    Forall (fun it => exists j, In j started /\ itemOfJob md base j it) added.
Proof.
  revert st; induction started as [|[item url] started IH]; intros st.
  - exists [], []. cbn [fold_left map]. rewrite !app_nil_r.
    repeat split; auto; constructor.
  - cbn [fold_left].
    destruct (finish_shape w md base st item url)
      as (n1 & a1 & V1 & P1 & R1 & Q1 & F1 & L1 & G1).
    destruct (IH (finish w md base st (item, url)))
      as (n2 & a2 & V2 & P2 & R2 & Q2 & F2 & N2 & G2).
    exists (n1 ++ n2), (a1 ++ a2).
    rewrite V2, P2, R2, Q2, V1, P1, R1, Q1, map_app, !app_assoc.
    repeat split; auto.
    + apply Forall_app. split.
      * eapply Forall_impl; [| exact F1]. intros p Hp.
        exists (item, url). split; [now left | exact Hp].
      * eapply Forall_impl; [| exact F2]. intros p (j & Hj & Hp).
        exists j. split; [now right | exact Hp].
    + cbn [map snd]. intros N. inversion N as [|x l Hx Nl]; subst.
      rewrite map_app. apply NoDup_app.
      * destruct n1 as [|p1 [|p2 n1]]; cbn [map];
          [constructor | | simpl in L1; lia].
        constructor; [intros [] | constructor].
      * now apply N2.
      * intros x I1 I2. apply Hx.
        apply in_map_iff in I1 as (p & E1 & Ip).
        rewrite Forall_forall in F1. destruct (F1 p Ip) as (Eu & _).
        apply in_map_iff in I2 as (p' & E & Ip').
        rewrite Forall_forall in F2.
        destruct (F2 p' Ip') as (j & Hj & (Ej & _)).
        replace url with (snd j) by congruence. now apply in_map.
    + apply Forall_app. split.
      * eapply Forall_impl; [| exact G1]. intros it Hit.
        exists (item, url). split; [now left | exact Hit].
      * eapply Forall_impl; [| exact G2]. intros it (j & Hj & Hit).
        exists j. split; [now right | exact Hit].
Qed.

(** One turn of the loop, as a whole: the URLs of the started jobs join the
    visited set, page records and rows are appended for some of them, and
    the batch is replaced on the queue by the links found. *)
Lemma iteration_shape (w : World) (md : Z) (base : string) (st : CrawlState) :
  exists started new added,
    visited (iteration w md base st) = visited st ++ map snd started /\
    pages (iteration w md base st) = pages st ++ new /\
    rows (iteration w md base st) = rows st ++ map rowOf new /\
    queue (iteration w md base st) = skipn CONCURRENCY (queue st) ++ added /\
    (NoDup (visited st) -> NoDup (visited st ++ map snd started)) /\
    Forall (fun j => In (fst j) (firstn CONCURRENCY (queue st)) /\
                     (item_depth (fst j) <= md)%Z /\
                     normalize (item_url (fst j)) = Some (snd j)) started /\
    Forall (fun p => exists j, In j started /\ pageOfJob j p) new /\
    (NoDup (visited st) -> NoDup (map page_url new)) /\
    Forall (fun it => exists j, In j started /\ itemOfJob md base j it) added.
Proof.
  unfold iteration.
  destruct (dispatch_fold_shape md (firstn CONCURRENCY (queue st))
              (visited st) []) as (started & E & N & F).
  rewrite E. cbn [app].
  match goal with
  | |- context [fold_left _ started ?s] =>
      destruct (finish_fold_shape w md base started s)
        as (new & added & V & P & R & Q & Fp & Np & Fq)
  end.
  exists started, new, added. rewrite V, P, R, Q.
  cbn [visited pages rows queue].
  repeat split; auto.
  intros Nv. apply Np. specialize (N Nv).
  apply NoDup_app_remove_l in N. exact N.
Qed.


Lemma NoDup_app_disjoint (A : Type) (l l' : list A) (x : A) :
  NoDup (l ++ l') -> In x l -> In x l' -> False.
Proof.
  induction l as [|a l IH]; intros N I I'; [destruct I |].
  cbn [app] in N. inversion N as [|y m Hy Nm]; subst.
  destruct I as [-> | I]; [| now apply IH].
  apply Hy. apply in_or_app. now right.
Qed.

Lemma NoDup_map_unique (A B : Type) (f : A -> B) (l : list A) (x y : A) :
  NoDup (map f l) -> In x l -> In y l -> f x = f y -> x = y.
Proof.
  induction l as [|a l IH]; intros N Ix Iy E; [destruct Ix |].
  cbn [map] in N. inversion N as [|z m Hz Nm]; subst.
  destruct Ix as [-> | Ix], Iy as [-> | Iy]; auto.
  - exfalso. apply Hz. rewrite E. now apply in_map.
  - exfalso. apply Hz. rewrite <- E. now apply in_map.
Qed.

Lemma firstn_In (A : Type) (n : nat) (l : list A) (x : A) :
  In x (firstn n l) -> In x l.
Proof.
  intros H. rewrite <- (firstn_skipn n l). apply in_or_app. now left.
Qed.

Lemma skipn_In (A : Type) (n : nat) (l : list A) (x : A) :
  In x (skipn n l) -> In x l.
Proof.
  intros H. rewrite <- (firstn_skipn n l). apply in_or_app. now right.
Qed.

(** A turn of the loop keeps the state tidy. *)
Lemma iteration_tidy (w : World) (md : Z) (base : string) (st : CrawlState) :
  tidy md st -> tidy md (iteration w md base st).
Proof.
  intros [Tv Tp Ti Tr Td Tt Tq].
  destruct (iteration_shape w md base st)
    as (started & new & added & V & P & R & Q & Nv & Fs & Fp & Np & Fq).
  rewrite Forall_forall in Fs, Fp, Fq, Tq.
  assert (Hq : forall j, In j started -> (0 <= item_depth (fst j) <= md)%Z).
  { intros j Hj. destruct (Fs j Hj) as (I & L & _).
    apply firstn_In in I. specialize (Tq _ I). cbv beta in Tq. lia. }
  assert (Hn : forall x, In x (map page_url new) -> In x (map snd started)).
  { intros x Hx. apply in_map_iff in Hx as (p & <- & Ip).
    destruct (Fp p Ip) as (j & Hj & (-> & _)). now apply in_map. }
  constructor.
  - rewrite V. now apply Nv.
  - rewrite P, map_app. apply NoDup_app; [exact Tp | now apply Np |].
    intros x I1 I2.
    apply (NoDup_app_disjoint _ _ _ x (Nv Tv)); [now apply Ti | now apply Hn].
  - rewrite P, V, map_app. intros x Hx. apply in_or_app.
    apply in_app_or in Hx as [Hx | Hx];
      [left; now apply Ti | right; now apply Hn].
  - rewrite R, P, Tr, map_app. reflexivity.
  - rewrite P. apply Forall_app. split; [exact Td |].
    apply Forall_forall. intros p Ip.
    destruct (Fp p Ip) as (j & Hj & (_ & -> & _)). now apply Hq.
  - rewrite P. apply Forall_app. split; [exact Tt |].
    apply Forall_forall. intros p Ip.
    destruct (Fp p Ip) as (j & Hj & (_ & _ & _ & T)). exact T.
  - rewrite Q. apply Forall_app. split.
    + apply Forall_forall. intros it I. apply Tq.
      rewrite <- (firstn_skipn CONCURRENCY (queue st)).
      apply in_or_app. now right.
    + apply Forall_forall. intros it I.
      destruct (Fq it I) as (j & Hj & (-> & _)).
      specialize (Hq j Hj). lia.
Qed.

Lemma initial_tidy (job : Job) : tidy (maxDepth job) (initialState job).
Proof.
  constructor; cbn [initialState visited pages rows queue map].
  - constructor.
  - constructor.
  - intros x [].
  - reflexivity.
  - constructor.
  - constructor.
  - repeat constructor. cbn. lia.
Qed.

Lemma reachable_tidy (w : World) (job : Job) (st : CrawlState) :
  reachable w job st -> tidy (maxDepth job) st.
Proof.
  intros R. induction R as [|st R IH C];
    [apply initial_tidy | now apply iteration_tidy].
Qed.

Lemma depthAfter_old (dm : string -> Z) (started : list (QueueItem * string))
    (u : string) :
  ~ In u (map snd started) -> depthAfter dm started u = dm u.
Proof.
  intros H. unfold depthAfter.
  destruct (find _ started) as [j|] eqn:F; [| reflexivity].
  apply find_some in F as [I E]. apply String.eqb_eq in E.
  exfalso. apply H. rewrite <- E. now apply in_map.
Qed.

Lemma depthAfter_new (dm : string -> Z) (started : list (QueueItem * string))
    (j : QueueItem * string) :
  NoDup (map snd started) -> In j started ->
  depthAfter dm started (snd j) = item_depth (fst j).
Proof.
  intros N I. unfold depthAfter.
  destruct (find _ started) as [j'|] eqn:F.
  - apply find_some in F as [I' E]. apply String.eqb_eq in E.
    now rewrite (NoDup_map_unique _ _ snd started j' j N I' I E).
  - exfalso. apply (find_none _ _ F) in I.
    now rewrite String.eqb_refl in I.
Qed.

(** A turn of the loop keeps the depths linked. *)
Lemma iteration_linked (w : World) (md : Z) (base : string) (st : CrawlState)
    (dm : string -> Z) :
  tidy md st -> linked md dm st ->
  exists dm', linked md dm' (iteration w md base st).
Proof.
  intros [Tv Tp Ti Tr Td Tt Tq] [Lv Lp Lq].
  destruct (iteration_shape w md base st)
    as (started & new & added & V & P & R & Q & Nv & Fs & Fp & Np & Fq).
  rewrite Forall_forall in Fs, Fp, Fq, Tq.
  specialize (Nv Tv).
  assert (Ns : NoDup (map snd started)) by now apply NoDup_app_remove_l in Nv.
  assert (Old : forall u, In u (visited st) ->
                          depthAfter dm started u = dm u).
  { intros u Hu. apply depthAfter_old. intros I.
    exact (NoDup_app_disjoint _ _ _ u Nv Hu I). }
  assert (Hq : forall j, In j started ->
                 In (fst j) (queue st) /\ (0 <= item_depth (fst j) <= md)%Z).
  { intros j Hj. destruct (Fs j Hj) as (I & L & _).
    apply firstn_In in I. split; [exact I |].
    specialize (Tq _ I). cbv beta in Tq. lia. }
  exists (depthAfter dm started). constructor.
  - rewrite V. intros u Hu. apply in_app_or in Hu as [Hu | Hu].
    + rewrite (Old u Hu). now apply Lv.
    + apply in_map_iff in Hu as (j & <- & Hj).
      rewrite (depthAfter_new dm started j Ns Hj). now apply Hq.
  - rewrite P, V. intros p Hp. apply in_app_or in Hp as [Hp | Hp].
    + destruct (Lp p Hp) as [E Hpar].
      rewrite (Old (page_url p)); [| apply Ti; now apply in_map].
      split; [exact E |].
      destruct (page_parentUrl p) as [q|]; [| exact Hpar].
      destruct Hpar as [Iq Eq]. rewrite (Old q Iq).
      split; [apply in_or_app; now left | exact Eq].
    + destruct (Fp p Hp) as (j & Hj & (Eu & Ed & Epar & _)).
      rewrite Eu, (depthAfter_new dm started j Ns Hj), Ed, Epar.
      split; [reflexivity |].
      destruct (Hq j Hj) as [Ij _]. specialize (Lq _ Ij).
      destruct (item_parentUrl (fst j)) as [q|]; [| exact Lq].
      destruct Lq as [Iq Eq]. rewrite (Old q Iq).
      split; [apply in_or_app; now left | exact Eq].
  - rewrite Q, V. intros it Hit. apply in_app_or in Hit as [Hit | Hit].
    + assert (I : In it (queue st)).
      { rewrite <- (firstn_skipn CONCURRENCY (queue st)).
        apply in_or_app. now right. }
      specialize (Lq _ I).
      destruct (item_parentUrl it) as [q|]; [| exact Lq].
      destruct Lq as [Iq Eq]. rewrite (Old q Iq).
      split; [apply in_or_app; now left | exact Eq].
    + destruct (Fq it Hit) as (j & Hj & (Ed & Epar & _)).
      rewrite Epar, Ed, (depthAfter_new dm started j Ns Hj).
      split; [| reflexivity].
      apply in_or_app. right. now apply in_map.
Qed.

Lemma reachable_linked (w : World) (job : Job) (st : CrawlState) :
  reachable w job st -> exists dm, linked (maxDepth job) dm st.
Proof.
  intros R. induction R as [|st R [dm IH] C].
  - exists (fun _ => 0%Z). constructor; cbn.
    + intros u [].
    + intros p [].
    + intros it [<- | []]. reflexivity.
  - apply (iteration_linked w _ _ st dm);
      [now apply (reachable_tidy w job) | exact IH].
Qed.

(** The loop ends in a state at the head of the loop at which the test
    fails. *)
Lemma crawlLoop_reachable (w : World) (job : Job) (fuel : nat)
    (st st' : CrawlState) :
  reachable w job st ->
  crawlLoop fuel w (maxDepth job) (maxPages job) (baseUrlOf job) st
  = Some st' ->
  reachable w job st' /\ continues (maxPages job) st' = false.
Proof.
  revert st; induction fuel as [|fuel IH]; intros st R; cbn [crawlLoop];
    destruct (continues (maxPages job) st) eqn:C; try discriminate.
  - intros [= <-]. now split.
  - intros H. apply (IH _ (reach_step w job st R C) H).
  - intros [= <-]. now split.
Qed.

Lemma crawlFinal_reachable (w : World) (job : Job) (fuel : nat)
    (st : CrawlState) :
  crawlFinal fuel w job = Returned st ->
  reachable w job st /\ continues (maxPages job) st = false.
Proof.
  unfold crawlFinal. destruct (Url.parse (baseUrlOf job)); [| discriminate].
  destruct (crawlLoop _ _ _ _ _ _) as [s|] eqn:L; [| discriminate].
  intros [= <-].
  apply (crawlLoop_reachable w job fuel _ _ (reach_init w job) L).
Qed.

Lemma crawlWebsite_final (w : World) (job : Job) (fuel : nat)
    (ps : list PageRecord) :
  crawlWebsite fuel w job = Returned ps ->
  exists st, crawlFinal fuel w job = Returned st /\ pages st = ps.
Proof.
  unfold crawlWebsite. destruct (crawlFinal fuel w job) as [st| |];
    try discriminate.
  intros [= <-]. now exists st.
Qed.





End CrawlInvariants.

(** ** The canonical form and the site *)

Section SiteFacts.

Import Playwright.

(** The canonical form keeps the scheme and the host name of the input and
    has no query. *)
Lemma normalize_keeps_host (s v : string) (u : Url.URL) :
  Url.parse s = Some u -> normalize s = Some v ->
  exists u', Url.parse v = Some u' /\ Url.scheme u' = Url.scheme u /\
             Url.hostname u' = Url.hostname u /\ Url.query u' = None.
Proof.
  intros P N.
  destruct (parse_wellFormed s u P) as [K Hh (p & Ep & Lq & Lf) _].
  destruct (normalize_cases s u P) as [[C N'] | (f & Ef & N')];
    rewrite N in N'; inversion N'; subst v; clear N'; rewrite Ep.
  - destruct p as [|a p].
    + cbn [dropTrailingSlash Ascii.eqb Bool.eqb]. rewrite append_empty_r.
      eexists. split; [now apply parse_origin | repeat split; reflexivity].
    + change (dropTrailingSlash (String "/" (String a p)))
        with (String "/" (dropTrailingSlash (String a p))).
      eexists. split.
      { apply parse_plain; auto using lacks_dropTrailingSlash. }
      repeat split; reflexivity.
  - eexists. split; [apply parse_route; auto |].
    repeat split; reflexivity.
Qed.

Lemma sameDomain_trans (a b c : string) :
  sameDomain a b = true -> sameDomain b c = true -> sameDomain a c = true.
Proof.
  unfold sameDomain.
  destruct (Url.parse a), (Url.parse b), (Url.parse c); try discriminate.
  rewrite !String.eqb_eq. congruence.
Qed.

Lemma normalize_sameDomain (s v : string) :
  normalize s = Some v -> sameDomain v s = true.
Proof.
  intros N. destruct (normalize_some_parse s v N) as [u P].
  destruct (normalize_keeps_host s v u P N) as (u' & P' & _ & H & _).
  unfold sameDomain. rewrite P', P. now apply String.eqb_eq.
Qed.

Lemma sameDomain_refl (s : string) (u : Url.URL) :
  Url.parse s = Some u -> sameDomain s s = true.
Proof. intros P. unfold sameDomain. rewrite P. apply String.eqb_refl. Qed.

Lemma iteration_staysOnSite (w : World) (md : Z) (base : string)
    (st : CrawlState) :
  staysOnSite base st -> staysOnSite base (iteration w md base st).
Proof.
  intros [Sv Sq].
  destruct (iteration_shape w md base st)
    as (started & new & added & V & P & R & Q & Nv & Fs & Fp & Np & Fq).
  rewrite Forall_forall in Fs, Fq, Sq.
  constructor.
  - rewrite V. apply Forall_app. split; [exact Sv |].
    apply Forall_forall. intros x Hx.
    apply in_map_iff in Hx as (j & <- & Hj).
    destruct (Fs j Hj) as (I & _ & N).
    pose proof (normalize_sameDomain _ _ N) as D.
    destruct (Sq _ (firstn_In _ _ _ _ I)) as [E | E].
    + unfold onSite. now rewrite <- E.
    + exact (sameDomain_trans _ _ _ D E).
  - rewrite Q. apply Forall_app. split.
    + apply Forall_forall. intros it I. apply Sq. exact (skipn_In _ _ _ _ I).
    + apply Forall_forall. intros it I.
      destruct (Fq it I) as (j & _ & (_ & _ & _ & D)). now right.
Qed.

(** Every visited URL is the canonical form of a queued URL. *)
Lemma reachable_canonical (w : World) (job : Job) (st : CrawlState) :
  reachable w job st ->
  Forall (fun v => exists raw, normalize raw = Some v) (visited st).
Proof.
  intros R. induction R as [|st R IH C]; [constructor |].
  destruct (iteration_shape w (maxDepth job) (baseUrlOf job) st)
    as (started & new & added & V & _ & _ & _ & _ & Fs & _).
  rewrite V. apply Forall_app. split; [exact IH |].
  rewrite Forall_forall in Fs. apply Forall_forall. intros x Hx.
  apply in_map_iff in Hx as (j & <- & Hj).
  destruct (Fs j Hj) as (_ & _ & N). now exists (item_url (fst j)).
Qed.

Lemma reachable_staysOnSite (w : World) (job : Job) (st : CrawlState) :
  reachable w job st -> staysOnSite (baseUrlOf job) st.
Proof.
  intros R. induction R as [|st R IH C].
  - constructor; cbn; repeat constructor.
  - now apply iteration_staysOnSite.
Qed.

End SiteFacts.

(** ** Malformed URLs *)

Section MalformedUrls.

Local Open Scope string_scope.








End MalformedUrls.

(** ** What [crawlWebsite] returns *)

Section CrawlResults.

Import Playwright.


Lemma crawlWebsite_tidy (fuel : nat) (w : World) (job : Job)
    (ps : list PageRecord) :
  crawlWebsite fuel w job = Returned ps ->
  exists st, reachable w job st /\ pages st = ps /\ tidy (maxDepth job) st.
Proof.
  intros H. destruct (crawlWebsite_final w job fuel ps H) as (st & F & E).
  destruct (crawlFinal_reachable w job fuel st F) as [R _].
  exists st. split; [exact R |]. split; [exact E |].
  now apply (reachable_tidy w job).
Qed.

(** X2.  No URL is recorded twice. *)
Theorem crawlWebsite_urls_distinct (fuel : nat) (w : World) (job : Job)
    (ps : list PageRecord) :
  crawlWebsite fuel w job = Returned ps -> NoDup (map page_url ps).
Proof.
  intros H. destruct (crawlWebsite_tidy fuel w job ps H) as (st & _ & <- & T).
  apply (tidy_pages _ _ T).
Qed.

Lemma crawlWebsite_urls_distinct_witness :
  exists ps, crawlWebsite 5 fanOutWorld fanOutJob = Returned ps /\
             length ps = 7 /\ NoDup (map page_url ps).
Proof.
  eexists. split; [vm_compute; reflexivity |].
  split; [reflexivity |].
  apply (crawlWebsite_urls_distinct 5 fanOutWorld fanOutJob).
  vm_compute. reflexivity.
Defined.

(** X3.  Every record lies within the depth limit. *)
Theorem crawlWebsite_depth_within_limit (fuel : nat) (w : World) (job : Job)
    (ps : list PageRecord) :
  crawlWebsite fuel w job = Returned ps ->
  Forall (fun p => (0 <= page_depth p <= maxDepth job)%Z) ps.
Proof.
  intros H. destruct (crawlWebsite_final w job fuel ps H) as (st & F & <-).
  destruct (crawlFinal_reachable w job fuel st F) as [R _].
  apply (tidy_depth _ _ (reachable_tidy w job st R)).
Qed.

Lemma crawlWebsite_depth_within_limit_witness :
  exists ps, crawlWebsite 5 fanOutWorld fanOutJob = Returned ps /\
             Forall (fun p => (0 <= page_depth p <= 3)%Z) ps.
Proof.
  eexists. split; [vm_compute; reflexivity |].
  apply (crawlWebsite_depth_within_limit 5 fanOutWorld fanOutJob).
  vm_compute. reflexivity.
Defined.

(** X4.  Every record has a title. *)
Theorem crawlWebsite_titles_nonempty (fuel : nat) (w : World) (job : Job)
    (ps : list PageRecord) :
  crawlWebsite fuel w job = Returned ps ->
  Forall (fun p => page_title p <> "") ps.
Proof.
  intros H. destruct (crawlWebsite_final w job fuel ps H) as (st & F & <-).
  destruct (crawlFinal_reachable w job fuel st F) as [R _].
  pose proof (tidy_title _ _ (reachable_tidy w job st R)) as T.
  eapply Forall_impl; [| exact T].
  intros p Hp E. cbv beta in Hp. rewrite E in Hp. discriminate Hp.
Qed.

Lemma crawlWebsite_titles_nonempty_witness :
  exists ps, crawlWebsite 5 timeoutWorld plainJob = Returned ps /\
             length ps = 1 /\ Forall (fun p => page_title p <> "") ps.
Proof.
  eexists. split; [vm_compute; reflexivity |].
  split; [reflexivity |].
  apply (crawlWebsite_titles_nonempty 5 timeoutWorld plainJob).
  vm_compute. reflexivity.
Defined.

(** X5.  The depths follow the parent references: a record without a parent is
    at depth [0], a record with a parent is below depth [0], and one level
    below the record of its parent when that is recorded. *)
Theorem crawlWebsite_depth_follows_parent (fuel : nat) (w : World) (job : Job)
    (ps : list PageRecord) :
  crawlWebsite fuel w job = Returned ps ->
  forall p, In p ps ->
    match page_parentUrl p with
    | None => page_depth p = 0%Z
    | Some q =>
        (1 <= page_depth p)%Z /\
        forall p', In p' ps -> page_url p' = q ->
                   page_depth p = (page_depth p' + 1)%Z
    end.
Proof.
  intros H p Hp.
  destruct (crawlWebsite_final w job fuel ps H) as (st & F & <-).
  destruct (crawlFinal_reachable w job fuel st F) as [R _].
  destruct (reachable_linked w job st R) as [dm [Lv Lp Lq]].
  destruct (Lp p Hp) as [_ Hpar].
  destruct (page_parentUrl p) as [q|]; [| exact Hpar].
  destruct Hpar as [Iq Eq]. split.
  - specialize (Lv q Iq). lia.
  - intros p' Hp' E. destruct (Lp p' Hp') as [E' _].
    rewrite Eq, <- E', E. reflexivity.
Qed.

Lemma crawlWebsite_depth_follows_parent_witness :
  exists ps p, crawlWebsite 5 fanOutWorld fanOutJob = Returned ps /\
    nth_error ps 3 = Some p /\
    match page_parentUrl p with
    | None => page_depth p = 0%Z
    | Some q =>
        (1 <= page_depth p)%Z /\
        forall p', In p' ps -> page_url p' = q ->
                   page_depth p = (page_depth p' + 1)%Z
    end.
Proof.
  eexists. eexists. split; [vm_compute; reflexivity |].
  split; [reflexivity |].
  apply (crawlWebsite_depth_follows_parent 5 fanOutWorld fanOutJob).
  - vm_compute. reflexivity.
  - simpl. tauto.
Defined.

(** X6.  The number of records is bounded: less than [CONCURRENCY] above the
    limit. *)
Theorem crawlWebsite_page_count (fuel : nat) (w : World) (job : Job)
    (ps : list PageRecord) :
  crawlWebsite fuel w job = Returned ps ->
  (Z.of_nat (length ps) <= Z.max 0 (maxPages job + 5))%Z.
Proof.
  intros H. destruct (crawlWebsite_final w job fuel ps H) as (st & F & <-).
  destruct (crawlFinal_reachable w job fuel st F) as [R _].
  pose proof (reachable_tidy w job st R) as [Tv Tp Ti _ _ _ _].
  pose proof (NoDup_incl_length Tp Ti) as L. rewrite length_map in L.
  pose proof (reachable_visited_bound w job st R) as B.
  unfold CONCURRENCY in B. lia.
Qed.

Lemma crawlWebsite_page_count_witness :
  exists ps, crawlWebsite 5 fanOutWorld fanOutJob = Returned ps /\
             length ps = 7 /\ (Z.of_nat (length ps) <= 7)%Z.
Proof.
  eexists. split; [vm_compute; reflexivity |].
  split; [reflexivity |].
  apply (crawlWebsite_page_count 5 fanOutWorld fanOutJob).
  vm_compute. reflexivity.
Defined.

(** X7.  The crawl stays on the site of the seed: every record has the host
    name of the seed. *)
Theorem crawlWebsite_stays_on_site (fuel : nat) (w : World) (job : Job)
    (ps : list PageRecord) :
  crawlWebsite fuel w job = Returned ps ->
  Forall (fun p => sameDomain (page_url p) (baseUrlOf job) = true) ps.
Proof.
  intros H. destruct (crawlWebsite_final w job fuel ps H) as (st & F & <-).
  destruct (crawlFinal_reachable w job fuel st F) as [R _].
  pose proof (reachable_tidy w job st R) as [_ _ Ti _ _ _ _].
  pose proof (reachable_staysOnSite w job st R) as [Sv _].
  rewrite Forall_forall in Sv. apply Forall_forall. intros p Hp.
  apply Sv, Ti. now apply in_map.
Qed.

Lemma crawlWebsite_stays_on_site_witness :
  exists ps, crawlWebsite 5 fanOutWorld fanOutJob = Returned ps /\
    Forall (fun p => sameDomain (page_url p) "https://a.com" = true) ps.
Proof.
  eexists. split; [vm_compute; reflexivity |].
  apply (crawlWebsite_stays_on_site 5 fanOutWorld fanOutJob).
  vm_compute. reflexivity.
Defined.

(** X8.  Every recorded URL is a canonical form: it parses, and it has no
    query. *)
Theorem crawlWebsite_urls_without_query (fuel : nat) (w : World) (job : Job)
    (ps : list PageRecord) :
  crawlWebsite fuel w job = Returned ps ->
  Forall (fun p => exists u, Url.parse (page_url p) = Some u /\
                             Url.query u = None) ps.
Proof.
  intros H. destruct (crawlWebsite_tidy fuel w job ps H) as (st & R & <- & T).
  pose proof (reachable_canonical w job st R) as Cn.
  rewrite Forall_forall in Cn. apply Forall_forall. intros p Hp.
  destruct (Cn (page_url p)) as [raw N].
  { apply (tidy_incl _ _ T). now apply in_map. }
  destruct (normalize_some_parse raw _ N) as [u0 P0].
  destruct (normalize_keeps_host raw _ u0 P0 N) as (u & P & _ & _ & Q).
  now exists u.
Qed.

Lemma crawlWebsite_urls_without_query_witness :
  exists ps, crawlWebsite 5 fanOutWorld fanOutJob = Returned ps /\
    Forall (fun p => exists u, Url.parse (page_url p) = Some u /\
                               Url.query u = None) ps.
Proof.
  eexists. split; [vm_compute; reflexivity |].
  apply (crawlWebsite_urls_without_query 5 fanOutWorld fanOutJob).
  vm_compute. reflexivity.
Defined.

(** X9.  The rows stored are the records returned, in order, and every one of
    them has the status [200]. *)
Theorem crawl_rows_are_records (fuel : nat) (w : World) (job : Job)
    (st : CrawlState) :
  crawlFinal fuel w job = Returned st ->
  rows st = map rowOf (pages st) /\
  Forall (fun r => row_statusCode r = 200%Z) (rows st).
Proof.
  intros F. destruct (crawlFinal_reachable w job fuel st F) as [R _].
  pose proof (tidy_rows _ _ (reachable_tidy w job st R)) as E.
  split; [exact E |]. rewrite E.
  apply Forall_forall. intros r Hr.
  apply in_map_iff in Hr as (p & <- & _). reflexivity.
Qed.

Lemma crawl_rows_are_records_witness :
  exists st, crawlFinal 5 timeoutWorld plainJob = Returned st /\
    rows st = map rowOf (pages st) /\
    Forall (fun r => row_statusCode r = 200%Z) (rows st).
Proof.
  eexists. split; [vm_compute; reflexivity |].
  apply (crawl_rows_are_records 5 timeoutWorld plainJob).
  vm_compute. reflexivity.
Defined.

End CrawlResults.

(** ** The job of the queue worker: crawl, then build the tree *)

Section Pipeline.

Import Playwright.

(** The parent references of a crawl result are acyclic: the depth is a
    rank. *)
Lemma crawl_result_acyclic (fuel : nat) (w : World) (job : Job)
    (ps : list PageRecord) :
  crawlWebsite fuel w job = Returned ps ->
  exists rank, acyclicBy rank ps.
Proof.
  intros H. destruct (crawlWebsite_final w job fuel ps H) as (st & F & <-).
  destruct (crawlFinal_reachable w job fuel st F) as [R _].
  destruct (reachable_linked w job st R) as [dm [Lv Lp Lq]].
  exists (fun u => Z.to_nat (dm u)).
  intros p q Hp Eq _.
  destruct (Lp p Hp) as [E Hpar]. rewrite Eq in Hpar.
  destruct Hpar as [Iq Ed]. specialize (Lv q Iq).
  rewrite E, Ed. lia.
Qed.

(** X10.  The worker's [buildSitemapStructure(await crawlWebsite(...))]:
    whatever the crawl returns, the builder turns into a tree (enough fuel for
    its recursion exists) whose record nodes carry every crawled URL exactly
    once. *)
Theorem crawl_result_builds_tree (fuel : nat) (w : World) (job : Job)
    (ps : list PageRecord) :
  crawlWebsite fuel w job = Returned ps ->
  exists n, forall fuel', n <= fuel' ->
  exists t,
    buildSitemapStructure fuel' (Some ps) = Some t /\
    Permutation (flat_map tree_urls (recordNodes ps t)) (map page_url ps) /\
    NoDup (flat_map tree_urls (recordNodes ps t)).
Proof.
  intros H.
  destruct ps as [|p0 ps].
  { exists 0. intros fuel' _. exists emptyRoot.
    repeat split; simpl; constructor. }
  destruct (crawl_result_acyclic fuel w job _ H) as [rank A].
  destruct (crawlWebsite_tidy fuel w job _ H) as (st & _ & E & T).
  pose proof (tidy_pages _ _ T) as N. rewrite E in N.
  destruct (records_once_nonempty rank (p0 :: ps)) as (n & Hn);
    [discriminate | exact N | exact A |].
  exists n. intros fuel' Hf. destruct (Hn fuel' Hf) as (t & B & P & D & _).
  exists t. repeat split; assumption.
Qed.

Lemma crawl_result_builds_tree_witness :
  exists ps, crawlWebsite 5 fanOutWorld fanOutJob = Returned ps /\
  exists n, forall fuel', n <= fuel' ->
  exists t,
    buildSitemapStructure fuel' (Some ps) = Some t /\
    Permutation (flat_map tree_urls (recordNodes ps t)) (map page_url ps) /\
    NoDup (flat_map tree_urls (recordNodes ps t)).
Proof.
  eexists. split; [vm_compute; reflexivity |].
  apply (crawl_result_builds_tree 5 fanOutWorld fanOutJob).
  vm_compute. reflexivity.
Defined.

End Pipeline.

(** ** The Puppeteer traversal *)

Section PuppeteerFacts.

Import Puppeteer.

Lemma psetAdd_In (s : list string) (x y : string) :
  In y (setAdd s x) <-> In y s \/ y = x.
Proof.
  unfold setAdd. destruct (setHas s x) eqn:H.
  - split; [now left |]. intros [I | ->]; [exact I |].
    unfold setHas in H. apply existsb_exists in H as (z & Iz & E).
    apply String.eqb_eq in E. now subst.
  - rewrite in_app_iff. cbn [In]. intuition.
Qed.

Lemma psetHas_false (s : list string) (x : string) :
  setHas s x = false -> ~ In x s.
Proof.
  unfold setHas. intros H I.
  assert (E : existsb (String.eqb x) s = true).
  { apply existsb_exists. exists x. split; [exact I | apply String.eqb_refl]. }
  congruence.
Qed.

Lemma errorStatus_synthetic (error : JsError) :
  isErrorStatus (errorStatus error).
Proof. exact (errorStatus_values error). Qed.

(** The link loop appends to the queue and touches nothing else. *)
Lemma plinks_fold (md : Z) (bd : string) (item : QueueItem) (n : string)
    (links : list string) (st : CrawlState) :
  exists added,
    visited (fold_left (processLink md bd item n) links st) = visited st /\
    pages (fold_left (processLink md bd item n) links st) = pages st /\
    rows (fold_left (processLink md bd item n) links st) = rows st /\
    queue (fold_left (processLink md bd item n) links st)
    = queue st ++ added /\
    Forall (fun it => item_depth it = (item_depth item + 1)%Z /\
                      item_parentUrl it = Some n) added.
Proof.
  revert st; induction links as [|l links IH]; intros st.
  - exists []. cbn [fold_left]. rewrite app_nil_r. repeat split; auto.
  - cbn [fold_left].
    destruct (IH (processLink md bd item n st l)) as (a & V & P & R & Q & F).
    rewrite V, P, R, Q. unfold processLink.
    destruct (Url.parse l) as [lu|]; [| exists a; repeat split; auto].
    destruct (isSameDomain _ _); [| exists a; repeat split; auto].
    destruct (_ && _); [| exists a; repeat split; auto].
    eexists (_ :: a). cbn [visited pages rows queue].
    rewrite <- app_assoc. repeat split; auto.
Qed.

Lemma onError_shape (w : World) (item : QueueItem) (n : string)
    (error : JsError) (st : CrawlState) :
  exists errs,
    visited (onError w item n error st) = visited st /\
    pages (onError w item n error st) = pages st /\
    queue (onError w item n error st) = queue st /\
    rows (onError w item n error st) = rows st ++ errs /\
    Forall (fun r => isErrorStatus (row_statusCode r)) errs.
Proof.
  unfold onError. destruct (insertPage w _).
  - eexists [_]. cbn [visited pages queue rows]. repeat split; auto.
    constructor; [| constructor]. apply errorStatus_synthetic.
  - exists []. rewrite app_nil_r. repeat split; auto.
Qed.

(** The body of the loop for one item: at most one page record, for a URL
    not visited before, with its row; or at most one error row; and links
    on the queue only after a page record. *)
Lemma visit_shape (w : World) (md : Z) (bd : string) (item : QueueItem)
    (st : CrawlState) :
  exists new added errs,
    pages (visit w md bd item st) = pages st ++ new /\
    rows (visit w md bd item st) = rows st ++ map storedRow new ++ errs /\
    queue (visit w md bd item st) = queue st ++ added /\
    incl (visited st) (visited (visit w md bd item st)) /\
    length new <= 1 /\ (new = [] -> added = []) /\
    Forall (fun p => ~ In (page_url p) (visited st) /\
                     In (page_url p) (visited (visit w md bd item st)) /\
                     page_depth p = item_depth item /\
                     (item_depth item <= md)%Z /\
                     page_parentUrl p = item_parentUrl item) new /\
    Forall (fun r => isErrorStatus (row_statusCode r)) errs /\
    Forall (fun it => item_depth it = (item_depth item + 1)%Z /\
                      item_parentUrl it
                      = Some (normalizeUrl (item_url item))) added.
Proof.
  assert (Same : exists new added errs,
    pages st = pages st ++ new /\
    rows st = rows st ++ map storedRow new ++ errs /\
    queue st = queue st ++ added /\
    incl (visited st) (visited st) /\
    length new <= 1 /\ (new = [] -> added = []) /\
    Forall (fun p => ~ In (page_url p) (visited st) /\
                     In (page_url p) (visited st) /\
                     page_depth p = item_depth item /\
                     (item_depth item <= md)%Z /\
                     page_parentUrl p = item_parentUrl item) new /\
    Forall (fun r => isErrorStatus (row_statusCode r)) errs /\
    Forall (fun it => item_depth it = (item_depth item + 1)%Z /\
                      item_parentUrl it
                      = Some (normalizeUrl (item_url item))) added).
  { exists [], [], []. cbn [map app]. rewrite !app_nil_r.
    repeat split; auto using incl_refl. }
  unfold visit. cbv zeta.
  destruct (md <? item_depth item)%Z eqn:D; [exact Same |].
  destruct (setHas (visited st) (item_url item)); [exact Same |].
  destruct (match robots w with
            | Some isAllowed => negb (isAllowed (item_url item))
            | None => false
            end); [exact Same |].
  destruct (setHas (visited st) (normalizeUrl (item_url item))) eqn:H;
    [exact Same |].
  clear Same. apply Z.ltb_ge in D. apply psetHas_false in H.
  set (n := normalizeUrl (item_url item)) in *.
  set (st1 := {| visited := setAdd (setAdd (visited st) n) (item_url item);
                 queue := queue st; pages := pages st; rows := rows st |}).
  assert (I1 : incl (visited st) (visited st1)).
  { intros x Hx. cbn [st1 visited]. apply psetAdd_In. left.
    apply psetAdd_In. now left. }
  assert (Err : forall error, exists new added errs,
    pages (onError w item n error st1) = pages st ++ new /\
    rows (onError w item n error st1) = rows st ++ map storedRow new ++ errs /\
    queue (onError w item n error st1) = queue st ++ added /\
    incl (visited st) (visited (onError w item n error st1)) /\
    length new <= 1 /\ (new = [] -> added = []) /\
    Forall (fun p => ~ In (page_url p) (visited st) /\
                     In (page_url p) (visited (onError w item n error st1)) /\
                     page_depth p = item_depth item /\
                     (item_depth item <= md)%Z /\
                     page_parentUrl p = item_parentUrl item) new /\
    Forall (fun r => isErrorStatus (row_statusCode r)) errs /\
    Forall (fun it => item_depth it = (item_depth item + 1)%Z /\
                      item_parentUrl it = Some n) added).
  { intros error.
    destruct (onError_shape w item n error st1) as (errs & V & P & Q & R & F).
    exists [], [], errs. rewrite V, P, Q, R. cbn [map app st1 pages queue rows].
    rewrite !app_nil_r. repeat split; auto. }
  destruct (fetch w (item_url item)) as [title links | error];
    [| apply Err].
  destruct (insertPage w _) as [id | error]; [| apply Err].
  clear Err.
  match goal with
  | |- context [fold_left ?f ?l ?s] =>
      destruct (plinks_fold md bd item n (unique links) s)
        as (added & V & P & R & Q & F)
  end.
  eexists [_], added, []. rewrite V, P, R, Q.
  cbn [visited pages rows queue st1 map app].
  repeat split; auto.
  - discriminate.
  - repeat constructor; cbn [page_url page_depth page_parentUrl]; auto.
    apply psetAdd_In. left. apply psetAdd_In. now right.
Qed.

Lemma visit_kept (w : World) (md : Z) (bd : string) (item : QueueItem)
    (st : CrawlState) :
  kept md st -> (0 <= item_depth item)%Z -> kept md (visit w md bd item st).
Proof.
  intros [Kp Ki Kd Kq Kr Ks] D.
  destruct (visit_shape w md bd item st)
    as (new & added & errs & P & R & Q & I & L & _ & Fn & Fe & Fa).
  rewrite Forall_forall in Fn, Fe, Fa.
  constructor.
  - rewrite P, map_app. apply NoDup_app; [exact Kp | |].
    + destruct new as [|p [|q new]]; cbn [map];
        [constructor | | simpl in L; lia].
      constructor; [intros [] | constructor].
    + intros x I1 I2. apply in_map_iff in I2 as (p & <- & Hp).
      destruct (Fn p Hp) as (Hn & _). now apply Hn, Ki.
  - rewrite P, map_app. intros x Hx. apply in_app_or in Hx as [Hx | Hx].
    + now apply I, Ki.
    + apply in_map_iff in Hx as (p & <- & Hp).
      now destruct (Fn p Hp) as (_ & H & _).
  - rewrite P. apply Forall_app. split; [exact Kd |].
    apply Forall_forall. intros p Hp.
    destruct (Fn p Hp) as (_ & _ & -> & H & _). lia.
  - rewrite Q. apply Forall_app. split; [exact Kq |].
    apply Forall_forall. intros it Hit. destruct (Fa it Hit) as [-> _]. lia.
  - rewrite R, P, !filter_app, Kr, map_app. f_equal.
    assert (E1 : filter isOk (map storedRow new) = map storedRow new).
    { clear. induction new as [|p new IH]; [reflexivity |].
      cbn [map filter]. unfold isOk at 1. cbn [storedRow row_statusCode].
      cbn. now rewrite IH. }
    assert (E2 : filter isOk errs = []).
    { clear - Fe. induction errs as [|r errs IH]; [reflexivity |].
      cbn [filter]. rewrite IH by (intros x Hx; apply Fe; now right).
      unfold isOk. destruct (Fe r (or_introl eq_refl)) as [-> | [-> | ->]];
        reflexivity. }
    now rewrite E1, E2, app_nil_r.
  - rewrite R. apply Forall_app. split; [exact Ks |].
    apply Forall_app. split; apply Forall_forall.
    + intros r Hr. apply in_map_iff in Hr as (p & <- & _). now left.
    + intros r Hr. right. now apply Fe.
Qed.

Lemma piteration_kept (w : World) (md : Z) (bd : string) (st : CrawlState) :
  kept md st -> kept md (iteration w md bd st).
Proof.
  intros K. unfold iteration.
  destruct (queue st) as [|item rest] eqn:Q; [exact K |].
  destruct K as [Kp Ki Kd Kq Kr Ks]. rewrite Q in Kq.
  inversion Kq as [|x l H0 Hl]; subst.
  apply visit_kept; [| exact H0].
  constructor; cbn [visited pages rows queue]; auto.
Qed.

Lemma pinitial_kept (domain : string) (md : Z) : kept md (initialState domain).
Proof.
  constructor; cbn [initialState visited pages rows queue map filter].
  - constructor.
  - intros x [].
  - constructor.
  - repeat constructor. cbn. lia.
  - reflexivity.
  - constructor.
Qed.

Lemma preachable_kept (w : World) (domain : string) (md mp : Z)
    (st : CrawlState) :
  reachable w domain md mp st -> kept md st.
Proof.
  intros R. induction R as [|st u R IH P C];
    [apply pinitial_kept | now apply piteration_kept].
Qed.

(** A turn of the loop makes progress: one more page record, or the same
    records and a shorter queue. *)
Lemma piteration_progress (w : World) (md mp : Z) (bd : string)
    (st : CrawlState) :
  continues mp st = true ->
  length (pages (iteration w md bd st)) = S (length (pages st)) \/
  (length (pages (iteration w md bd st)) = length (pages st) /\
   length (queue (iteration w md bd st)) < length (queue st)).
Proof.
  intros C. unfold continues in C. apply andb_true_iff in C as [C _].
  apply Nat.ltb_lt in C. unfold iteration.
  destruct (queue st) as [|item rest] eqn:Q; [simpl in C; lia |].
  match goal with
  | |- context [visit w md bd item ?s] =>
      destruct (visit_shape w md bd item s)
        as (new & added & errs & P & _ & Qe & _ & L & E & _)
  end.
  rewrite P, Qe. cbn [pages queue]. rewrite !length_app.
  destruct new as [|p [|q new]]; [| | simpl in L; lia].
  - right. rewrite (E eq_refl). cbn [length]. lia.
  - left. cbn [length]. lia.
Qed.

Lemma pcrawlLoop_fuel_mono (w : World) (md mp : Z) (bd : string)
    (fuel fuel' : nat) (st st' : CrawlState) :
  crawlLoop fuel w md mp bd st = Some st' -> fuel <= fuel' ->
  crawlLoop fuel' w md mp bd st = Some st'.
Proof.
  revert fuel' st; induction fuel as [|fuel IH]; intros fuel' st;
    cbn [crawlLoop]; destruct (continues mp st) eqn:C; try discriminate.
  - intros H _. destruct fuel'; cbn [crawlLoop]; now rewrite C.
  - intros H L. destruct fuel' as [|fuel']; [lia |].
    cbn [crawlLoop]. rewrite C. apply IH; [exact H | lia].
  - intros H _. destruct fuel'; cbn [crawlLoop]; now rewrite C.
Qed.

Lemma pcrawlLoop_terminates (w : World) (md mp : Z) (bd : string)
    (st : CrawlState) :
  exists fuel st', crawlLoop fuel w md mp bd st = Some st'.
Proof.
  remember (Z.to_nat (mp - Z.of_nat (length (pages st)))) as n eqn:En.
  assert (Hn : Z.to_nat (mp - Z.of_nat (length (pages st))) <= n) by lia.
  clear En. revert st Hn.
  induction n as [|n IHn]; intros st Hn.
  - exists 0, st. cbn [crawlLoop].
    destruct (continues mp st) eqn:C; [| reflexivity].
    unfold continues in C. apply andb_true_iff in C as [_ C].
    apply Z.ltb_lt in C. lia.
  - remember (length (queue st)) as k eqn:Ek.
    assert (Hk : length (queue st) <= k) by lia.
    clear Ek. revert st Hn Hk.
    induction k as [|k IHk]; intros st Hn Hk.
    + exists 0, st. cbn [crawlLoop].
      destruct (continues mp st) eqn:C; [| reflexivity].
      unfold continues in C. apply andb_true_iff in C as [C _].
      apply Nat.ltb_lt in C. lia.
    + destruct (continues mp st) eqn:C.
      2:{ exists 0, st. cbn [crawlLoop]. now rewrite C. }
      assert (Next : exists fuel st',
                 crawlLoop fuel w md mp bd (iteration w md bd st) = Some st').
      { destruct (piteration_progress w md mp bd st C) as [G | [E G]].
        - apply IHn.
          unfold continues in C. apply andb_true_iff in C as [_ C'].
          apply Z.ltb_lt in C'. lia.
        - apply IHk; [rewrite E; exact Hn | lia]. }
      destruct Next as (fuel & st' & L).
      exists (S fuel), st'. cbn [crawlLoop]. now rewrite C.
Qed.

Lemma pcrawlLoop_reachable (w : World) (domain : string) (md mp : Z)
    (u : Url.URL) (fuel : nat) (st st' : CrawlState) :
  Url.parse (baseUrlOf domain) = Some u ->
  reachable w domain md mp st ->
  crawlLoop fuel w md mp (Url.hostname u) st = Some st' ->
  reachable w domain md mp st'.
Proof.
  intros P. revert st; induction fuel as [|fuel IH]; intros st R;
    cbn [crawlLoop]; destruct (continues mp st) eqn:C; try discriminate.
  - now intros [= <-].
  - intros H. apply (IH _ (reach_step w domain md mp st u R P C) H).
  - now intros [= <-].
Qed.

Lemma pcrawlFinal_reachable (w : World) (domain : string) (md mp : Z)
    (fuel : nat) (st : CrawlState) :
  crawlFinal fuel w domain md mp = Playwright.Returned st ->
  reachable w domain md mp st.
Proof.
  unfold crawlFinal.
  destruct (Url.parse (baseUrlOf domain)) as [u|] eqn:P; [| discriminate].
  destruct (crawlLoop _ _ _ _ _ _) as [s|] eqn:L; [| discriminate].
  intros [= <-].
  apply (pcrawlLoop_reachable w domain md mp u fuel _ _ P
           (reach_init w domain md mp) L).
Qed.

Lemma pcrawlWebsite_final (w : World) (domain : string) (md mp : Z)
    (fuel : nat) (ps : list PageRecord) :
  crawlWebsite fuel w domain md mp = Playwright.Returned ps ->
  exists st, crawlFinal fuel w domain md mp = Playwright.Returned st /\
             pages st = ps.
Proof.
  unfold crawlWebsite.
  destruct (crawlFinal fuel w domain md mp) as [st| |]; try discriminate.
  intros [= <-]. now exists st.
Qed.

End PuppeteerFacts.

(** ** What the Puppeteer [crawlWebsite] returns *)

Section PuppeteerResults.

Import Puppeteer.

(** X13.  The Puppeteer crawl ends for every site: it throws when the seed is
    not a URL and returns its page records otherwise. *)
Theorem puppeteer_crawl_throws_or_returns (w : World) (domain : string)
    (md mp : Z) :
  (Url.parse (baseUrlOf domain) = None /\
   forall fuel, crawlWebsite fuel w domain md mp = Playwright.Thrown)
  \/
  (parses (baseUrlOf domain) /\
   exists n ps, forall fuel, n <= fuel ->
                crawlWebsite fuel w domain md mp = Playwright.Returned ps).
Proof.
  destruct (Url.parse (baseUrlOf domain)) as [u|] eqn:P.
  - right. split; [unfold parses; now rewrite P |].
    destruct (pcrawlLoop_terminates w md mp (Url.hostname u)
                (initialState domain)) as (n & st & L).
    exists n, (pages st). intros fuel Hf.
    unfold crawlWebsite, crawlFinal. rewrite P.
    now rewrite (pcrawlLoop_fuel_mono _ _ _ _ n fuel _ _ L Hf).
  - left. split; [reflexivity |]. intros fuel.
    unfold crawlWebsite, crawlFinal. now rewrite P.
Qed.

(** X14.  The Puppeteer crawl keeps the page limit: it returns at most
    [maxPages] records. *)
Theorem puppeteer_crawl_page_limit (fuel : nat) (w : World) (domain : string)
    (md mp : Z) (ps : list PageRecord) :
  crawlWebsite fuel w domain md mp = Playwright.Returned ps ->
  (Z.of_nat (length ps) <= Z.max 0 mp)%Z.
Proof.
  intros H.
  destruct (pcrawlWebsite_final w domain md mp fuel ps H) as (st & F & <-).
  apply (puppeteer_pages_bound w domain md mp).
  now apply (pcrawlFinal_reachable w domain md mp fuel).
Qed.

Lemma puppeteer_crawl_page_limit_witness :
  exists ps, crawlWebsite 10 patchyWorld "a.com" 3 1 = Playwright.Returned ps /\
             length ps = 1 /\ (Z.of_nat (length ps) <= 1)%Z.
Proof.
  eexists. split; [vm_compute; reflexivity |].
  split; [reflexivity |].
  apply (puppeteer_crawl_page_limit 10 patchyWorld "a.com" 3 1).
  vm_compute. reflexivity.
Defined.

(** X15.  No URL is recorded twice by the Puppeteer crawl, and every record
    lies within the depth limit. *)
Theorem puppeteer_crawl_records (fuel : nat) (w : World) (domain : string)
    (md mp : Z) (ps : list PageRecord) :
  crawlWebsite fuel w domain md mp = Playwright.Returned ps ->
  NoDup (map page_url ps) /\
  Forall (fun p => (0 <= page_depth p <= md)%Z) ps.
Proof.
  intros H.
  destruct (pcrawlWebsite_final w domain md mp fuel ps H) as (st & F & <-).
  pose proof (preachable_kept w domain md mp st
                (pcrawlFinal_reachable w domain md mp fuel st F)) as K.
  split; [apply (kept_pages _ _ K) | apply (kept_depth _ _ K)].
Qed.

Lemma puppeteer_crawl_records_witness :
  exists ps,
    crawlWebsite 10 patchyWorld "a.com" 3 10 = Playwright.Returned ps /\
             length ps = 2 /\
             NoDup (map page_url ps) /\
             Forall (fun p => (0 <= page_depth p <= 3)%Z) ps.
Proof.
  eexists. split; [vm_compute; reflexivity |].
  split; [reflexivity |].
  apply (puppeteer_crawl_records 10 patchyWorld "a.com" 3 10).
  vm_compute. reflexivity.
Defined.

(** X16.  The rows the Puppeteer crawl stores: those with status [200] are the
    records it returns, in order, and every other row has one of the synthetic
    codes [403], [408] and [0]. *)
Theorem puppeteer_crawl_statuses (fuel : nat) (w : World) (domain : string)
    (md mp : Z) (st : CrawlState) :
  crawlFinal fuel w domain md mp = Playwright.Returned st ->
  filter isOk (rows st) = map storedRow (pages st) /\
  Forall (fun r => row_statusCode r = 200%Z \/
                   isErrorStatus (row_statusCode r)) (rows st).
Proof.
  intros F.
  pose proof (preachable_kept w domain md mp st
                (pcrawlFinal_reachable w domain md mp fuel st F)) as K.
  split; [apply (kept_rows _ _ K) | apply (kept_status _ _ K)].
Qed.

Lemma puppeteer_crawl_statuses_witness :
  exists st, crawlFinal 10 patchyWorld "a.com" 3 10 = Playwright.Returned st /\
    map row_statusCode (rows st) = [200%Z; 408%Z; 200%Z] /\
    filter isOk (rows st) = map storedRow (pages st) /\
    Forall (fun r => row_statusCode r = 200%Z \/
                     isErrorStatus (row_statusCode r)) (rows st).
Proof.
  eexists. split; [vm_compute; reflexivity |].
  split; [reflexivity |].
  apply (puppeteer_crawl_statuses 10 patchyWorld "a.com" 3 10).
  vm_compute. reflexivity.
Defined.

(** The serializer and the parser agree on a URL without a query. *)
Lemma parse_href (u : Url.URL) :
  wellFormed u -> Url.query u = None -> Url.parse (Url.href u) = Some u.
Proof.
  intros [K Hh (p & Ep & Lq & Lf) _] Q.
  destruct u as [sch h path q f]. cbn in *. subst q path.
  unfold Url.href, Url.origin. cbn.
  rewrite !append_assoc'.
  exact (parse_build sch h p f K Hh Lq Lf).
Qed.

(** X17.  The Puppeteer canonical form of a URL: the query is dropped,
    everything else is kept, the fragment too, and a second pass changes
    nothing. *)
Theorem puppeteer_normalize_settles (s : string) (u : Url.URL) :
  Url.parse s = Some u ->
  Url.parse (normalizeUrl s) = Some (Url.clearSearch u) /\
  normalizeUrl (normalizeUrl s) = normalizeUrl s.
Proof.
  intros P.
  assert (R : Url.parse (normalizeUrl s) = Some (Url.clearSearch u)).
  { unfold normalizeUrl. rewrite P. apply parse_href; [| reflexivity].
    destruct (parse_wellFormed s u P) as [K Hh Hp Hq].
    constructor; cbn; auto. discriminate. }
  split; [exact R |].
  unfold normalizeUrl at 1. rewrite R.
  unfold normalizeUrl. rewrite P. reflexivity.
Qed.

Lemma puppeteer_normalize_settles_witness :
  Url.parse (normalizeUrl "https://a.com/x?y=1#frag")
  = Some (Url.mkURL "https" "a.com" "/x" None (Some "frag")) /\
  normalizeUrl (normalizeUrl "https://a.com/x?y=1#frag")
  = normalizeUrl "https://a.com/x?y=1#frag".
Proof.
  apply (puppeteer_normalize_settles "https://a.com/x?y=1#frag"
           (Url.mkURL "https" "a.com" "/x" (Some "y=1") (Some "frag"))).
  reflexivity.
Defined.

End PuppeteerResults.

(** ** The labels of the tree *)

Section BuilderLabels.

Lemma truthy_nonempty (s : string) : truthy s = true <-> s <> "".
Proof. destruct s; cbn; split; intros; congruence. Qed.

Lemma cleanPage_labels (p : PageRecord) (j : nat) :
  clean_id (cleanPage p j) <> "" /\ clean_title (cleanPage p j) <> "" /\
  clean_status (cleanPage p j) = "ok".
Proof.
  unfold cleanPage. cbn [clean_id clean_title clean_status].
  repeat split.
  - apply truthy_nonempty, orElse_truthy. reflexivity.
  - apply truthy_nonempty.
    destruct (isErrorTitle (page_title p)) eqn:E;
      [apply titleFromUrl_truthy |].
    unfold isErrorTitle in E. repeat (apply orb_false_iff in E as [E _]).
    now apply negb_false_iff in E.
Qed.

Lemma cleanPagesFrom_In (i : nat) (pages : list PageRecord) (c : CleanPage) :
  In c (cleanPagesFrom i pages) -> exists p j, c = cleanPage p j.
Proof.
  revert i; induction pages as [|p ps IH]; intros i; [intros [] |].
  cbn [cleanPagesFrom].
  intros [<- | H]; [now exists p, i | now apply (IH (S i))].
Qed.

Lemma buildPageMap_pages (l : list CleanPage) (m : PageMap) (k : string)
    (n : PageNode) :
  (forall k' n', mapGet m k' = Some n' -> In (node_page n') l) ->
  forall l0, incl l0 l ->
  mapGet (fold_left
            (fun m page => mapSet m (clean_url page)
                             {| node_page := page; node_children := [] |})
            l0 m) k = Some n ->
  In (node_page n) l.
Proof.
  intros Hm l0. revert m Hm. induction l0 as [|c l0 IH]; intros m Hm I.
  - cbn [fold_left]. apply Hm.
  - cbn [fold_left]. apply IH.
    + intros k' n'. rewrite mapGet_mapSet.
      destruct (String.eqb k' (clean_url c)); [| apply Hm].
      intros [= <-]. cbn [node_page]. apply I. now left.
    + intros x Hx. apply I. now right.
Qed.

(** Every node of [pageMap] carries a cleaned page. *)
Lemma attached_pages (pages : list PageRecord) (k : string) (n : PageNode) :
  mapGet (attachedMap pages) k = Some n ->
  exists p j, node_page n = cleanPage p j.
Proof.
  rewrite attached_get.
  destruct (mapGet (buildPageMap (cleanPages pages)) k) as [n0|] eqn:G;
    [| discriminate].
  cbn [option_map]. intros [= <-]. cbn [addChildren node_page].
  apply (cleanPagesFrom_In 0 pages).
  refine (buildPageMap_pages (cleanPages pages) [] k n0 _
            (cleanPages pages) (incl_refl _) G).
  intros k' n'; discriminate.
Qed.

Lemma buildNode_labelled (pages : list PageRecord) (fuel : nat) (k : string)
    (t : SitemapNode) :
  buildNode fuel (attachedMap pages) k = Some t ->
  Forall labelled (tree_nodes t).
Proof.
  revert k t; induction fuel as [|fuel IH]; intros k t; [discriminate |].
  rewrite buildNode_step.
  destruct (mapGet (attachedMap pages) k) as [n|] eqn:G; [| discriminate].
  cbv zeta.
  destruct (sequence (map (buildNode fuel (attachedMap pages))
                          (node_children n))) as [ks|] eqn:S;
    [| discriminate].
  cbn [option_map]. intros [= <-].
  destruct (attached_pages pages k n G) as (p & j & E).
  destruct (cleanPage_labels p j) as (Li & Lt & Ls).
  assert (Kids : Forall labelled (flat_map tree_nodes ks)).
  { apply sequence_map_some in S. clear G E.
    induction S as [|c y cs ys Hc S IHS]; [constructor |].
    cbn [flat_map]. apply Forall_app. split; [now apply (IH c) | exact IHS]. }
  assert (Top : forall ch,
             labelled (Node (clean_id (node_page n)) (clean_url (node_page n))
                            (orElse (clean_title (node_page n))
                                    (clean_url (node_page n)))
                            (clean_depth (node_page n))
                            (orElse (clean_status (node_page n)) "ok") ch)).
  { intros ch. rewrite E. unfold labelled. cbn [sn_id sn_title sn_status].
    split; [exact Li |]. split.
    - unfold orElse. destruct (truthy (clean_title (cleanPage p j))) eqn:T;
        [exact Lt | apply truthy_nonempty in Lt; congruence].
    - rewrite Ls. reflexivity. }
  destruct ks as [|y ys]; cbn [tree_nodes]; constructor; auto.
Qed.

Lemma attachAll_fst (pages : list PageRecord) :
  fst (attachAll (cleanPages pages)) = attachedMap pages.
Proof.
  unfold attachAll, attachedMap. cbv zeta.
  destruct (fold_left _ _ _) as [m rn]. cbn [fst].
  destruct rn, (cleanPages pages); reflexivity.
Qed.

Lemma built_labels (fuel : nat) (pages : option (list PageRecord))
    (t : SitemapNode) :
  buildSitemapStructure fuel pages = Some t -> Forall labelled (tree_nodes t).
Proof.
  assert (E0 : Forall labelled (tree_nodes emptyRoot)).
  { repeat constructor; cbn; discriminate. }
  destruct pages as [[|p0 ps]|]; cbn [buildSitemapStructure];
    try (intros [= <-]; exact E0).
  cbv zeta. pose proof (attachAll_fst (p0 :: ps)) as F.
  destruct (attachAll (cleanPages (p0 :: ps))) as [m rn]. cbn [fst] in F.
  subst m.
  assert (Many : forall u ks,
    sequence (map (buildNode fuel (attachedMap (p0 :: ps))) rn) = Some ks ->
    Forall labelled (tree_nodes (Node "root" u "Root" 0 "ok" (Some ks)))).
  { intros u ks S. cbn [tree_nodes]. constructor.
    - repeat split; cbn; discriminate.
    - apply sequence_map_some in S.
      induction S as [|c y cs ys Hc S IHS]; [constructor |].
      cbn [flat_map]. apply Forall_app.
      split; [now apply (buildNode_labelled (p0 :: ps) fuel c) | exact IHS]. }
  destruct rn as [|r [|r' rn]].
  - destruct (sequence _) as [ks|] eqn:S; [| discriminate].
    intros [= <-]. now apply Many.
  - apply buildNode_labelled.
  - destruct (sequence _) as [ks|] eqn:S; [| discriminate].
    intros [= <-]. now apply Many.
Qed.

(** X11.  Every node of a returned tree has an id, a title and the status
    ["ok"]. *)
Theorem built_nodes_labelled (fuel : nat) (pages : option (list PageRecord))
    (t : SitemapNode) :
  buildSitemapStructure fuel pages = Some t -> Forall labelled (tree_nodes t).
Proof. apply built_labels. Qed.

Lemma built_nodes_labelled_witness :
  exists t, buildSitemapStructure 5 (Some smallSite) = Some t /\
            length (tree_nodes t) = 5 /\ Forall labelled (tree_nodes t).
Proof.
  eexists. split; [vm_compute; reflexivity |].
  split; [reflexivity |].
  apply (built_nodes_labelled 5 (Some smallSite)).
  vm_compute. reflexivity.
Defined.

End BuilderLabels.

(** ** The records behind the nodes *)

Section BuilderRecords.

Lemma cleanPagesFrom_origin (i : nat) (pages : list PageRecord)
    (c : CleanPage) :
  In c (cleanPagesFrom i pages) ->
  exists p j, In p pages /\ c = cleanPage p j.
Proof.
  revert i; induction pages as [|p ps IH]; intros i; [intros [] |].
  cbn [cleanPagesFrom]. intros [<- | H].
  - exists p, i. split; [now left | reflexivity].
  - destruct (IH (S i) H) as (q & j & Iq & E).
    exists q, j. split; [now right | exact E].
Qed.

Lemma attached_origin (pages : list PageRecord) (k : string) (n : PageNode) :
  mapGet (attachedMap pages) k = Some n ->
  exists p j, In p pages /\ node_page n = cleanPage p j.
Proof.
  rewrite attached_get.
  destruct (mapGet (buildPageMap (cleanPages pages)) k) as [n0|] eqn:G;
    [| discriminate].
  cbn [option_map]. intros [= <-]. cbn [addChildren node_page].
  apply (cleanPagesFrom_origin 0 pages).
  refine (buildPageMap_pages (cleanPages pages) [] k n0 _
            (cleanPages pages) (incl_refl _) G).
  intros k' n'; discriminate.
Qed.

Lemma cleanPage_carries (pages : list PageRecord) (p : PageRecord) (j : nat)
    (ch : option (list SitemapNode)) :
  In p pages ->
  carries pages
    (Node (clean_id (cleanPage p j)) (clean_url (cleanPage p j))
          (orElse (clean_title (cleanPage p j)) (clean_url (cleanPage p j)))
          (clean_depth (cleanPage p j))
          (orElse (clean_status (cleanPage p j)) "ok") ch).
Proof.
  intros I. exists p. cbn [sn_url sn_depth sn_id sn_title cleanPage
    clean_id clean_url clean_title clean_depth].
  repeat split; auto.
  - intros H. apply truthy_nonempty in H. unfold orElse. now rewrite H.
  - intros H. rewrite H. unfold orElse.
    unfold isErrorTitle in H. repeat (apply orb_false_iff in H as [H _]).
    apply negb_false_iff in H. now rewrite H.
Qed.

Lemma buildNode_carries (pages : list PageRecord) (fuel : nat) (k : string)
    (t : SitemapNode) :
  buildNode fuel (attachedMap pages) k = Some t ->
  Forall (carries pages) (tree_nodes t).
Proof.
  revert k t; induction fuel as [|fuel IH]; intros k t; [discriminate |].
  rewrite buildNode_step.
  destruct (mapGet (attachedMap pages) k) as [n|] eqn:G; [| discriminate].
  cbv zeta.
  destruct (sequence (map (buildNode fuel (attachedMap pages))
                          (node_children n))) as [ks|] eqn:S;
    [| discriminate].
  cbn [option_map]. intros [= <-].
  destruct (attached_origin pages k n G) as (p & j & Ip & E).
  assert (Kids : Forall (carries pages) (flat_map tree_nodes ks)).
  { apply sequence_map_some in S. clear G E.
    induction S as [|c y cs ys Hc S IHS]; [constructor |].
    cbn [flat_map]. apply Forall_app. split; [now apply (IH c) | exact IHS]. }
  rewrite E.
  destruct ks as [|y ys]; cbn [tree_nodes]; constructor; auto;
    now apply cleanPage_carries.
Qed.

Lemma tree_nodes_children (t : SitemapNode) :
  tree_nodes t = t :: flat_map tree_nodes (sn_children t).
Proof. destruct t as [i u ti d s [ks|]]; reflexivity. Qed.

(** X28.  No node of the tree is made up: every record node of a returned
    tree carries a record of the input, with its URL and depth, its id when
    it has one, and its title unless that is missing or an error title. *)
Theorem built_nodes_carry_records (fuel : nat) (pages : list PageRecord)
    (t : SitemapNode) :
  buildSitemapStructure fuel (Some pages) = Some t ->
  Forall (carries pages) (flat_map tree_nodes (recordNodes pages t)).
Proof.
  destruct pages as [|p0 ps].
  { cbn [buildSitemapStructure]. intros [= <-]. constructor. }
  cbn [buildSitemapStructure]. cbv zeta.
  pose proof (attachAll_fst (p0 :: ps)) as F.
  pose proof (attached_roots (p0 :: ps)) as R. cbv zeta in R.
  unfold attachAll in *. cbv zeta in *.
  destruct (fold_left _ _ _) as [m rn0]. cbn [snd] in R. subst rn0.
  unfold recordNodes.
  assert (Many : forall l ks,
    sequence (map (buildNode fuel (attachedMap (p0 :: ps))) l) = Some ks ->
    Forall (carries (p0 :: ps)) (flat_map tree_nodes ks)).
  { intros l ks S. apply sequence_map_some in S.
    induction S as [|c y cs ys Hc S IHS]; [constructor |].
    cbn [flat_map]. apply Forall_app.
    split; [now apply (buildNode_carries (p0 :: ps) fuel c) | exact IHS]. }
  destruct (topLevel (p0 :: ps)) as [|a [|b l]];
    cbn [map cleanPages cleanPagesFrom fst] in *; subst m.
  - intros B. apply buildNode_carries in B.
    rewrite tree_nodes_children in B. now inversion B.
  - intros B. cbn [flat_map]. rewrite app_nil_r.
    now apply (buildNode_carries _ fuel (page_url a)).
  - destruct (sequence _) as [ks|] eqn:S; [| discriminate].
    intros [= <-]. cbn [sn_children].
    apply (Many (page_url a :: page_url b :: map page_url l) ks). exact S.
Qed.

Lemma built_nodes_carry_records_witness :
  exists t, buildSitemapStructure 5 (Some smallSite) = Some t /\
    length (flat_map tree_nodes (recordNodes smallSite t)) = 4 /\
    Forall (carries smallSite) (flat_map tree_nodes (recordNodes smallSite t)).
Proof.
  eexists. split; [vm_compute; reflexivity |].
  split; [reflexivity |].
  apply (built_nodes_carry_records 5 smallSite).
  vm_compute. reflexivity.
Defined.

End BuilderRecords.

(** ** The returned tree, node by node *)

Section BuilderShape.

Lemma sequence_of_Forall2 {A B : Type} (g : A -> option B) (l : list A)
    (ys : list B) :
  Forall2 (fun x y => g x = Some y) l ys -> sequence (map g l) = Some ys.
Proof.
  induction 1 as [|x y l ys E _ IH]; simpl; [reflexivity |].
  now rewrite E, IH.
Qed.

Lemma Forall2_In_l {A B : Type} (R : A -> B -> Prop) (l : list A)
    (ys : list B) (x : A) :
  Forall2 R l ys -> In x l -> exists y, In y ys /\ R x y.
Proof.
  induction 1 as [|a b l ys Hab _ IH]; intros I; [destruct I |].
  destruct I as [<- | I].
  - exists b. split; [now left | exact Hab].
  - destruct (IH I) as (y & Hy & Hr). exists y. split; [now right | exact Hr].
Qed.

Lemma list_max_In (f : SitemapNode -> nat) (l : list SitemapNode)
    (x : SitemapNode) :
  In x l -> f x <= list_max (map f l).
Proof.
  induction l as [|a l IH]; intros I; [destruct I |].
  cbn [map list_max fold_right]. destruct I as [<- | I]; [lia |].
  specialize (IH I). unfold list_max in IH. lia.
Qed.

Lemma tree_height_child (t c : SitemapNode) :
  In c (sn_children t) -> tree_height c < tree_height t.
Proof.
  destruct t as [i u ti d s [ks|]]; cbn [sn_children]; [| intros []].
  intros I. cbn [tree_height].
  pose proof (list_max_In tree_height ks c I). lia.
Qed.

(** What one call of [buildNode] is made of. *)
Lemma buildNode_inv (m : PageMap) (fuel : nat) (k : string)
    (t : SitemapNode) :
  buildNode (S fuel) m k = Some t ->
  Forall2 (fun x y => buildNode fuel m x = Some y)
          (childrenOf m k) (sn_children t).
Proof.
  rewrite buildNode_step. unfold childrenOf.
  destruct (mapGet m k) as [n|]; [| discriminate].
  cbv zeta.
  destruct (sequence _) as [ks|] eqn:S; [| discriminate].
  intros [= <-]. rewrite sn_children_optional.
  now apply sequence_map_some.
Qed.

(** More fuel does not change what [buildNode] returns. *)
Lemma buildNode_mono (m : PageMap) (fuel : nat) (k : string)
    (t : SitemapNode) :
  buildNode fuel m k = Some t -> buildNode (S fuel) m k = Some t.
Proof.
  revert k t; induction fuel as [|fuel IH]; intros k t; [discriminate |].
  intros H. rewrite buildNode_step in H. rewrite buildNode_step.
  destruct (mapGet m k) as [n|]; [| discriminate].
  cbv zeta in H |- *.
  destruct (sequence (map (buildNode fuel m) (node_children n)))
    as [ks|] eqn:S; [| discriminate].
  apply sequence_map_some in S.
  rewrite (sequence_of_Forall2 (buildNode (Datatypes.S fuel) m) _ ks);
    [exact H |].
  eapply Forall2_impl; [| exact S]. intros x y. apply IH.
Qed.

(** A property of the node of every call holds of every node of the
    tree. *)
Lemma buildNode_every (m : PageMap) (P : SitemapNode -> Prop) :
  (forall fuel k t, buildNode fuel m k = Some t -> P t) ->
  forall fuel k t, buildNode fuel m k = Some t -> Forall P (tree_nodes t).
Proof.
  intros HP fuel. induction fuel as [|fuel IH]; intros k t H;
    [discriminate |].
  rewrite tree_nodes_children. constructor; [now apply (HP _ _ _ H) |].
  pose proof (buildNode_inv m fuel k t H) as F.
  induction F as [|x y l ys E _ IHF]; [constructor |].
  cbn [flat_map]. apply Forall_app. split; [now apply (IH x) | exact IHF].
Qed.

Lemma buildNode_nodeOf (pages : list PageRecord) (fuel : nat) (k : string)
    (t : SitemapNode) :
  buildNode fuel (attachedMap pages) k = Some t ->
  Forall (nodeOf pages) (tree_nodes t).
Proof.
  apply buildNode_every. clear. intros fuel k t H. repeat split.
  - pose proof (buildNode_carries pages fuel k t H) as F.
    rewrite tree_nodes_children in F. now inversion F.
  - pose proof (buildNode_labelled pages fuel k t H) as F.
    rewrite tree_nodes_children in F.
    apply Forall_inv in F. apply F.
  - pose proof (buildNode_labelled pages fuel k t H) as F.
    rewrite tree_nodes_children in F.
    apply Forall_inv in F. apply F.
  - pose proof (buildNode_labelled pages fuel k t H) as F.
    rewrite tree_nodes_children in F.
    apply Forall_inv in F. apply F.
  - rewrite (buildNode_children _ (attached_keyed pages) _ _ _ H).
    rewrite (buildNode_url _ (attached_keyed pages) _ _ _ H).
    apply attached_children.
Qed.

Lemma startUrls_top (pages : list PageRecord) :
  topLevel pages <> [] -> startUrls pages = map page_url (topLevel pages).
Proof.
  unfold startUrls. destruct (topLevel pages) as [|a l]; [congruence |].
  intros _. cbn [map]. now destruct pages.
Qed.

Lemma startUrls_first (p0 : PageRecord) (ps : list PageRecord) :
  topLevel (p0 :: ps) = [] -> startUrls (p0 :: ps) = [page_url p0].
Proof. unfold startUrls. now intros ->. Qed.

(** With no top-level record the tree is built from the first record. *)
Lemma buildSitemapStructure_fallback (fuel : nat) (p0 : PageRecord)
    (ps : list PageRecord) :
  topLevel (p0 :: ps) = [] ->
  buildSitemapStructure fuel (Some (p0 :: ps))
  = buildNode fuel (attachedMap (p0 :: ps)) (page_url p0).
Proof.
  intros T. cbn [buildSitemapStructure]. cbv zeta.
  pose proof (attachAll_fst (p0 :: ps)) as F.
  pose proof (attached_roots (p0 :: ps)) as R. cbv zeta in R.
  rewrite T in R. cbn [map] in R.
  unfold attachAll in *. cbv zeta in *.
  destruct (fold_left _ _ _) as [m rn]. cbn [snd] in R. subst rn.
  cbn [cleanPages cleanPagesFrom fst] in *. subst m.
  reflexivity.
Qed.

(** [buildSitemapStructure] on a non-empty input, by [rootNodes]. *)
Lemma buildSitemapStructure_starts (fuel : nat) (pages : list PageRecord) :
  pages <> [] ->
  buildSitemapStructure fuel (Some pages)
  = match startUrls pages with
    | [r] => buildNode fuel (attachedMap pages) r
    | rn =>
        option_map
          (fun ks => Node "root" (rootUrl pages) "Root" 0 "ok" (Some ks))
          (sequence (map (buildNode fuel (attachedMap pages)) rn))
    end.
Proof.
  intros Hne. destruct (topLevel pages) as [|a l] eqn:T.
  - destruct pages as [|p0 ps]; [congruence |].
    rewrite (startUrls_first p0 ps T).
    now apply buildSitemapStructure_fallback.
  - assert (Htop : topLevel pages <> []) by (rewrite T; discriminate).
    rewrite (startUrls_top pages Htop).
    now apply buildSitemapStructure_nonempty.
Qed.

Lemma startUrls_length (pages : list PageRecord) :
  pages <> [] -> 0 < length (startUrls pages).
Proof.
  intros Hne. unfold startUrls.
  destruct (map page_url (topLevel pages)) as [|a l]; [| simpl; lia].
  destruct pages; [congruence | simpl; lia].
Qed.

Lemma startUrls_incl (pages : list PageRecord) :
  incl (startUrls pages) (map page_url pages).
Proof.
  unfold startUrls. pose proof (topLevel_incl pages) as I.
  destruct (map page_url (topLevel pages)) as [|a l]; [| exact I].
  destruct pages as [|p0 ps]; [intros x [] |].
  intros x [<- | []]. now left.
Qed.

(** The calls of [buildNode] behind a returned tree. *)
Lemma built_calls (pages : list PageRecord) (fuel : nat) (t : SitemapNode) :
  pages <> [] ->
  buildSitemapStructure fuel (Some pages) = Some t ->
  (forall r, startUrls pages = [r] ->
     buildNode fuel (attachedMap pages) r = Some t) /\
  (1 < length (startUrls pages) ->
     exists kids,
       t = Node "root" (rootUrl pages) "Root" 0 "ok" (Some kids) /\
       Forall2 (fun x y => buildNode fuel (attachedMap pages) x = Some y)
               (startUrls pages) kids).
Proof.
  intros Hne B.
  rewrite (buildSitemapStructure_starts fuel _ Hne) in B.
  pose proof (startUrls_length pages Hne) as L.
  destruct (startUrls pages) as [|a [|b l]]; [simpl in L; lia | |].
  - split; [| simpl; lia]. now intros r [= <-].
  - split; [intros r [=] |]. intros _.
    destruct (sequence _) as [ks|] eqn:S; [| discriminate].
    injection B as <-. exists ks. split; [reflexivity |].
    now apply sequence_map_some in S.
Qed.

Lemma reached_in (pages : list PageRecord) (k : string) :
  reached pages k -> In k (map page_url pages).
Proof.
  intros [k' Hk | k' p _ Hp].
  - now apply startUrls_incl.
  - apply attachedTo_parent in Hp as (Hp & _). now apply in_map.
Qed.

(** With a rank that decreases below [rootNodes], the recursion ends. *)
Lemma buildNode_reached_total (rank : string -> nat)
    (pages : list PageRecord) :
  descends rank pages ->
  forall fuel k, reached pages k -> rank k < fuel ->
  exists t, buildNode fuel (attachedMap pages) k = Some t.
Proof.
  intros D fuel. induction fuel as [|fuel IH]; intros k R Hf; [lia |].
  rewrite buildNode_step.
  pose proof (attached_has pages k) as Hh.
  rewrite (in_urls_has _ _ (reached_in pages k R)) in Hh.
  pose proof (attached_children pages k) as Hc.
  unfold mapHas in Hh. unfold childrenOf in Hc.
  destruct (mapGet (attachedMap pages) k) as [n|]; [| discriminate].
  cbv zeta.
  destruct (sequence_map_total (buildNode fuel (attachedMap pages))
              (node_children n)) as [ks ->].
  - intros x Hx. rewrite Hc in Hx. apply in_map_iff in Hx as (p & <- & Hp).
    apply IH; [now apply (reached_child pages k) |].
    specialize (D k p R Hp). lia.
  - cbn [option_map]. eauto.
Qed.

Lemma descends_returns (rank : string -> nat) (pages : list PageRecord) :
  descends rank pages ->
  exists n, forall fuel, n <= fuel ->
  exists t, buildSitemapStructure fuel (Some pages) = Some t.
Proof.
  intros D.
  destruct pages as [|p0 ps]; [exists 0; intros; now exists emptyRoot |].
  set (pages := p0 :: ps) in *.
  assert (Hne : pages <> []) by discriminate.
  exists (S (list_max (map rank (startUrls pages)))).
  intros fuel Hf.
  rewrite (buildSitemapStructure_starts fuel _ Hne).
  assert (All : forall x, In x (startUrls pages) ->
                exists t, buildNode fuel (attachedMap pages) x = Some t).
  { intros x Hx. apply (buildNode_reached_total rank); [exact D | |].
    - now constructor.
    - pose proof (proj1 (list_max_le (map rank (startUrls pages)) _)
                        (Nat.le_refl _)) as F.
      rewrite Forall_forall in F.
      specialize (F (rank x) (in_map rank _ _ Hx)). lia. }
  destruct (startUrls pages) as [|a [|b l]] eqn:T.
  - destruct (sequence_map_total _ _ All) as [ks ->]. cbn. eauto.
  - apply All. now left.
  - destruct (sequence_map_total _ _ All) as [ks ->]. cbn. eauto.
Qed.

(** When the builder returns, the height of the returned nodes is such a
    rank. *)
Lemma returns_descends (pages : list PageRecord) (fuel : nat)
    (t : SitemapNode) :
  buildSitemapStructure fuel (Some pages) = Some t ->
  exists rank, descends rank pages.
Proof.
  intros B.
  destruct pages as [|p0 ps].
  { exists (fun _ => 0). intros k p R []. }
  set (pages := p0 :: ps) in *.
  assert (Hne : pages <> []) by discriminate.
  set (m := attachedMap pages).
  assert (Top : forall k, In k (startUrls pages) ->
                exists y, buildNode fuel m k = Some y).
  { destruct (built_calls pages fuel t Hne B) as [One Many].
    intros k Hk.
    destruct (startUrls pages) as [|a [|b l]] eqn:T; [destruct Hk | |].
    - destruct Hk as [<- | []]. exists t. now apply One.
    - destruct Many as (kids & _ & F); [simpl; lia |].
      destruct (Forall2_In_l _ _ _ k F Hk) as (y & _ & Hy).
      now exists y. }
  assert (Kid : forall k p y,
            buildNode fuel m k = Some y -> In p (attachedTo pages k) ->
            exists c, In c (sn_children y) /\
                      buildNode fuel m (page_url p) = Some c).
  { intros k p y Hy Hp. destruct fuel as [|fuel']; [discriminate |].
    pose proof (buildNode_inv m fuel' k y Hy) as F.
    unfold m in F. rewrite attached_children in F. fold m in F.
    destruct (Forall2_In_l _ _ _ (page_url p) F (in_map page_url _ _ Hp))
      as (c & Hc & E).
    exists c. split; [exact Hc | now apply buildNode_mono]. }
  assert (All : forall k, reached pages k ->
                exists y, buildNode fuel m k = Some y).
  { intros k R. induction R as [k Hk | k p R [y Hy] Hp]; [now apply Top |].
    destruct (Kid k p y Hy Hp) as (c & _ & E). now exists c. }
  exists (fun k => match buildNode fuel m k with
                   | Some y => tree_height y
                   | None => 0
                   end).
  intros k p R Hp. destruct (All k R) as [y Hy].
  destruct (Kid k p y Hy Hp) as (c & Hc & E).
  rewrite Hy, E. now apply tree_height_child.
Qed.

(** *** Distinct URLs: the parent links lead up to a top-level record *)

Lemma rootAt_unique (par : string -> option string) (d d' : nat)
    (k : string) :
  rootAt par d k -> rootAt par d' k -> d = d'.
Proof.
  revert d' k; induction d as [|d IH]; intros [|d'] k; cbn [rootAt].
  - reflexivity.
  - intros E (q & E' & _). congruence.
  - intros (q & E' & _) E. congruence.
  - intros (q & E & H) (q' & E' & H').
    assert (q' = q) by congruence. subst q'. f_equal. now apply (IH d' q).
Qed.

Lemma chainUp_length (par : string -> option string) (d : nat) (k : string) :
  rootAt par d k -> length (chainUp par d k) = S d.
Proof.
  revert k; induction d as [|d IH]; intros k; cbn [rootAt chainUp];
    [reflexivity |].
  intros (q & -> & H). cbn [length]. now rewrite (IH q H).
Qed.

Lemma chainUp_rootAt (par : string -> option string) (d : nat)
    (k x : string) :
  rootAt par d k -> In x (chainUp par d k) ->
  exists j, j <= d /\ rootAt par j x.
Proof.
  revert k; induction d as [|d IH]; intros k; cbn [chainUp].
  - intros H [<- | []]. exists 0. split; [lia | exact H].
  - intros H I. destruct I as [<- | I].
    + exists (S d). split; [lia | exact H].
    + destruct H as (q & E & H). rewrite E in I.
      destruct (IH q H I) as (j & Hj & R). exists j. split; [lia | exact R].
Qed.

Lemma chainUp_NoDup (par : string -> option string) (d : nat) (k : string) :
  rootAt par d k -> NoDup (chainUp par d k).
Proof.
  revert k; induction d as [|d IH]; intros k H; cbn [chainUp].
  - repeat constructor. intros [].
  - pose proof H as H0. destruct H as (q & E & H). rewrite E.
    constructor; [| now apply IH].
    intros I. destruct (chainUp_rootAt par d q k H I) as (j & Hj & R).
    pose proof (rootAt_unique par _ _ k H0 R). lia.
Qed.

Lemma chainUp_incl (par : string -> option string) (l : list string) :
  (forall c q, par c = Some q -> In q l) ->
  forall d k, In k l -> incl (chainUp par d k) l.
Proof.
  intros C d. induction d as [|d IH]; intros k Hk x; cbn [chainUp].
  - intros [<- | []]. exact Hk.
  - intros [<- | I]; [exact Hk |].
    destruct (par k) as [q|] eqn:E; [| destruct I].
    apply (IH q); [now apply (C k) | exact I].
Qed.

Lemma depthWithin_rootAt (par : string -> option string) (d n : nat)
    (k : string) :
  rootAt par d k -> d <= n -> depthWithin par n k = d.
Proof.
  revert n k; induction d as [|d IH]; intros [|n] k; cbn [rootAt depthWithin].
  - reflexivity.
  - now intros ->.
  - lia.
  - intros (q & -> & H) L. f_equal. apply IH; [exact H | lia].
Qed.

Lemma parOf_in (pages : list PageRecord) (c q : string) :
  parOf pages c = Some q -> In q (map page_url pages).
Proof.
  unfold parOf.
  destruct (find _ pages) as [p|] eqn:F; [| discriminate].
  destruct (hasParent pages p) eqn:H; [| discriminate].
  intros E. now apply (hasParent_in pages p).
Qed.

Lemma reached_rootAt (pages : list PageRecord) (k : string) :
  NoDup (map page_url pages) -> topLevel pages <> [] -> reached pages k ->
  exists d, rootAt (parOf pages) d k.
Proof.
  intros N Htop R. induction R as [k Hk | k p R [d Hd] Hp].
  - rewrite (startUrls_top pages Htop) in Hk.
    apply in_map_iff in Hk as (p & <- & Hp).
    exists 0. cbn [rootAt]. apply filter_In in Hp as [Hp H].
    rewrite (parOf_page pages p N Hp).
    apply negb_true_iff in H. now rewrite H.
  - exists (S d). cbn [rootAt]. exists k. split; [| exact Hd].
    apply attachedTo_parent in Hp as (Hp & H & E).
    rewrite (parOf_page pages p N Hp). now rewrite H.
Qed.

(** With distinct URLs and a top-level record, the distance to the top is
    such a rank, counted down from the number of records. *)
Lemma distinct_descends (pages : list PageRecord) :
  NoDup (map page_url pages) -> topLevel pages <> [] ->
  descends (fun k => length pages
                     - depthWithin (parOf pages) (length pages) k) pages.
Proof.
  intros N Htop k p R Hp.
  pose proof (reached_child pages k p R Hp) as Rc.
  destruct (reached_rootAt pages k N Htop R) as [d Hd].
  assert (Hc : rootAt (parOf pages) (S d) (page_url p)).
  { cbn [rootAt]. exists k. split; [| exact Hd].
    apply attachedTo_parent in Hp as (Hp' & H & E).
    rewrite (parOf_page pages p N Hp'). now rewrite H. }
  assert (B : S (S d) <= length pages).
  { rewrite <- (length_map page_url pages).
    rewrite <- (chainUp_length (parOf pages) (S d) (page_url p) Hc).
    apply NoDup_incl_length; [now apply chainUp_NoDup |].
    apply chainUp_incl; [apply parOf_in | now apply reached_in]. }
  rewrite (depthWithin_rootAt _ _ _ _ Hc) by lia.
  rewrite (depthWithin_rootAt _ _ _ _ Hd) by lia.
  lia.
Qed.

(** C5.  Whenever the builder returns a tree: with exactly one top-level
    record the tree is the node of that record, returned as it is; with
    more than one it is the synthesized root, whose children are the nodes
    of the top-level records in the order of the input; with none, the one
    node of [rootNodes] is the first record and the tree is its node.  In
    every case each node below shows its record: it carries a record of the
    input, it is labelled, and its children are the records attached to its
    URL.  And the builder does return exactly when some rank decreases from
    every URL below [rootNodes] to the records attached to it; so it does
    whenever the input has a top-level record and its URLs are distinct.
    A cycle among records that hang below no node of [rootNodes] does not
    matter. *)
Theorem sitemap_root_shape (pages : list PageRecord) :
  (forall fuel t,
     buildSitemapStructure fuel (Some pages) = Some t ->
     (forall p, topLevel pages = [p] ->
        sn_url t = page_url p /\ Forall (nodeOf pages) (tree_nodes t)) /\
     (1 < length (topLevel pages) ->
        exists kids,
          t = Node "root" (rootUrl pages) "Root" 0 "ok" (Some kids) /\
          map sn_url kids = map page_url (topLevel pages) /\
          Forall (nodeOf pages) (flat_map tree_nodes kids)) /\
     (topLevel pages = [] -> forall p0 ps, pages = p0 :: ps ->
        sn_url t = page_url p0 /\ Forall (nodeOf pages) (tree_nodes t))) /\
  ((exists rank, descends rank pages) <->
   (exists n, forall fuel, n <= fuel ->
    exists t, buildSitemapStructure fuel (Some pages) = Some t)) /\
  (topLevel pages <> [] -> NoDup (map page_url pages) ->
     exists n, forall fuel, n <= fuel ->
     exists t, buildSitemapStructure fuel (Some pages) = Some t).
Proof.
  assert (One : forall fuel t r,
            buildNode fuel (attachedMap pages) r = Some t ->
            sn_url t = r /\ Forall (nodeOf pages) (tree_nodes t)).
  { intros fuel t r H. split.
    - now apply (buildNode_url _ (attached_keyed pages) _ _ _ H).
    - now apply (buildNode_nodeOf pages fuel r). }
  split; [| split].
  - intros fuel t B.
    destruct pages as [|p0 ps] eqn:Ep.
    { split; [intros p [=] |]. split; [simpl; lia |]. intros _ p1 ps1 [=]. }
    rewrite <- Ep in *.
    assert (Hne : pages <> []) by (rewrite Ep; discriminate).
    destruct (built_calls pages fuel t Hne B) as [Single Many].
    split; [| split].
    + intros p T. apply (One fuel). apply Single.
      rewrite startUrls_top by (rewrite T; discriminate). now rewrite T.
    + intros L.
      assert (Htop : topLevel pages <> []).
      { intros E. rewrite E in L. simpl in L. lia. }
      rewrite (startUrls_top pages Htop) in Many.
      destruct Many as (kids & E & F); [now rewrite length_map |].
      exists kids. split; [exact E |].
      clear - F One. induction F as [|x y l' ys Hxy _ [IH1 IH2]];
        [split; constructor |].
      destruct (One fuel y x Hxy) as [U N]. split.
      * cbn [map]. now rewrite U, IH1.
      * cbn [flat_map]. apply Forall_app. now split.
    + intros T p1 ps1 E. apply (One fuel). apply Single.
      rewrite E in T |- *. now apply startUrls_first.
  - split.
    + intros [rank D]. now apply (descends_returns rank).
    + intros [n H]. destruct (H n (le_n n)) as [t B].
      now apply (returns_descends pages n t).
  - intros Htop N.
    apply (descends_returns _ pages (distinct_descends pages N Htop)).
Qed.

Lemma sitemap_root_shape_witness :
  (exists kids,
     buildSitemapStructure 3 (Some twoRoots)
     = Some (Node "root" "https://a.com" "Root" 0 "ok" (Some kids)) /\
     map sn_url kids = ["https://a.com"; "https://a.com/blog"] /\
     Forall (nodeOf twoRoots) (flat_map tree_nodes kids)) /\
  (exists n, forall fuel, n <= fuel ->
     exists t, buildSitemapStructure fuel (Some twoRoots) = Some t) /\
  (exists t,
     buildSitemapStructure 1 (Some sideLoop) = Some t /\
     sn_url t = "https://a.com" /\
     Forall (nodeOf sideLoop) (tree_nodes t)) /\
  (exists rank, descends rank sideLoop) /\
  (exists t,
     buildSitemapStructure 1 (Some belowLoop) = Some t /\
     sn_url t = "https://a.com/c" /\
     Forall (nodeOf belowLoop) (tree_nodes t)).
Proof.
  split; [| split; [| split; [| split]]].
  - destruct (sitemap_root_shape twoRoots) as [S _].
    destruct (S 3 _ eq_refl) as (_ & Many & _).
    destruct Many as (kids & E & U & F); [simpl; lia |].
    exists kids. injection E as <-. repeat split; auto.
  - destruct (sitemap_root_shape twoRoots) as (_ & _ & R).
    apply R; [discriminate |].
    repeat constructor; simpl; intuition discriminate.
  - destruct (sitemap_root_shape sideLoop) as [S _].
    eexists. split; [reflexivity |].
    now destruct (S 1 _ eq_refl) as [One _];
      destruct (One _ eq_refl) as [U F].
  - destruct (sitemap_root_shape sideLoop) as (_ & R & _).
    apply R.
    exists 1. intros [|fuel] L; [lia |]. eexists. reflexivity.
  - destruct (sitemap_root_shape belowLoop) as [S _].
    eexists. split; [reflexivity |].
    destruct (S 1 _ eq_refl) as (_ & _ & First).
    exact (First eq_refl _ _ eq_refl).
Defined.

End BuilderShape.

(** ** Cyclic input *)

Section BuilderCycles.

Lemma sequence_none {A : Type} (l : list (option A)) :
  In None l -> sequence l = None.
Proof.
  induction l as [|[x|] l IH]; intros H; [destruct H | | reflexivity].
  cbn [sequence]. destruct H as [H | H]; [discriminate |].
  now rewrite (IH H).
Qed.

(** [buildNode] does not return on a node that has a descendant chain
    without end. *)
Lemma buildNode_endless (m : PageMap) (cyc : list string) :
  (forall k, In k cyc -> exists c, In c cyc /\ In c (childrenOf m k)) ->
  forall fuel k, In k cyc -> buildNode fuel m k = None.
Proof.
  intros H fuel. induction fuel as [|fuel IH]; intros k Hk; [reflexivity |].
  rewrite buildNode_step.
  destruct (H k Hk) as (c & Hc & Ic). unfold childrenOf in Ic.
  destruct (mapGet m k) as [n|]; [| reflexivity].
  cbv zeta. rewrite sequence_none; [reflexivity |].
  apply in_map_iff. exists c. split; [now apply IH | exact Ic].
Qed.

(** X12.  When no record is top-level the builder starts from the first record;
    if that record lies on a cycle of parent references, the recursion of
    [buildNode] has no end: no fuel gives a tree. *)
Theorem builder_never_returns_on_cycle (p0 : PageRecord)
    (ps : list PageRecord) (cyc : list string) :
  topLevel (p0 :: ps) = [] ->
  parentCycle (p0 :: ps) cyc -> In (page_url p0) cyc ->
  forall fuel, buildSitemapStructure fuel (Some (p0 :: ps)) = None.
Proof.
  intros T C I fuel.
  cbn [buildSitemapStructure]. cbv zeta.
  pose proof (attachAll_fst (p0 :: ps)) as F.
  pose proof (attached_roots (p0 :: ps)) as R. cbv zeta in R.
  rewrite T in R. cbn [map] in R.
  unfold attachAll in *. cbv zeta in *.
  destruct (fold_left _ _ _) as [m rn]. cbn [snd] in R. subst rn.
  cbn [cleanPages cleanPagesFrom fst] in *. subst m.
  cbn [cleanPage clean_url].
  apply (buildNode_endless (attachedMap (p0 :: ps)) cyc); [| exact I].
  intros k Hk. destruct (C k Hk) as (p & Ip & Ic & Ep & Hp).
  exists (page_url p). split; [exact Ic |].
  rewrite attached_children. apply in_map. unfold attachedTo.
  apply filter_In. split; [exact Ip |].
  rewrite Hp, Ep. cbn. apply String.eqb_refl.
Qed.

Lemma builder_never_returns_on_cycle_witness :
  topLevel mutualPages = [] /\
  (forall fuel, buildSitemapStructure fuel (Some mutualPages) = None).
Proof.
  split; [reflexivity |].
  apply (builder_never_returns_on_cycle _ _
           ["https://a.com/a"; "https://a.com/b"]).
  - reflexivity.
  - intros k [<- | [<- | []]].
    + exists (mkPage "2" "https://a.com/b" 1 (Some "https://a.com/a") "B").
      cbn. tauto.
    + exists (mkPage "1" "https://a.com/a" 1 (Some "https://a.com/b") "A").
      cbn. tauto.
  - simpl. tauto.
Defined.

(** Distinct URLs matter: when a URL comes twice, once as its own parent,
    a cycle hangs below the home page and no fuel gives a tree. *)
Example repeated_url_loops :
  map page_url (topLevel repeatedUrl) = ["https://a.com"] /\
  ~ NoDup (map page_url repeatedUrl) /\
  forall fuel, buildSitemapStructure fuel (Some repeatedUrl) = None.
Proof.
  split; [reflexivity |]. split.
  { intros N. inversion N as [|x l _ N']. inversion N' as [|y l' I _].
    apply I. now left. }
  intros fuel.
  rewrite buildSitemapStructure_nonempty by discriminate.
  change (map page_url (topLevel repeatedUrl)) with ["https://a.com"].
  set (m := attachedMap repeatedUrl).
  assert (U : forall f, buildNode f m "https://a.com/x" = None).
  { intros f. apply (buildNode_endless m ["https://a.com/x"]); [| now left].
    intros k [<- | []]. exists "https://a.com/x". split; [now left |].
    unfold m. rewrite attached_children. now left. }
  destruct fuel as [|fuel]; [reflexivity |].
  rewrite buildNode_step.
  pose proof (attached_children repeatedUrl "https://a.com") as C.
  fold m in C. unfold childrenOf in C.
  destruct (mapGet m "https://a.com") as [n|]; [| reflexivity].
  cbv zeta. rewrite C.
  change (map page_url (attachedTo repeatedUrl "https://a.com"))
    with ["https://a.com/x"].
  cbn [map sequence]. now rewrite U.
Qed.

End BuilderCycles.

(** ** The sitemap generator *)

Section GeneratorFacts.

Import SitemapGenerator.

Local Open Scope string_scope.

Lemma replaceAll_app (c : ascii) (r a b : string) :
  replaceAll c r (a ++ b) = replaceAll c r a ++ replaceAll c r b.
Proof.
  induction a as [|x a IH]; [reflexivity |].
  cbn [append replaceAll]. now rewrite IH, append_assoc'.
Qed.

Lemma escapeChar_chain (a : ascii) :
  replaceAll "'" "&apos;"
    (replaceAll "034" "&quot;"
       (replaceAll ">" "&gt;"
          (replaceAll "<" "&lt;"
             (replaceAll "&" "&amp;" (String a EmptyString)))))
  = escapeChar a.
Proof.
  destruct a as [[] [] [] [] [] [] [] []]; reflexivity.
Qed.

(** The five replacements one after the other escape every character on
    its own: no replacement touches what an earlier one has written. *)
Lemma escapeXML_each (s : string) : escapeXML s = escapeEach s.
Proof.
  unfold escapeXML. destruct s as [|a0 s0]; [reflexivity |].
  cbn [truthy isEmpty negb].
  generalize (String a0 s0). clear. intros s.
  induction s as [|a s IH]; [reflexivity |].
  change (String a s) with (String a EmptyString ++ s).
  rewrite !replaceAll_app, IH, escapeChar_chain. reflexivity.
Qed.

Lemma escapeChar_markup_free (a : ascii) :
  lacks "<" (escapeChar a) = true /\ lacks ">" (escapeChar a) = true /\
  lacks "034" (escapeChar a) = true /\ lacks "'" (escapeChar a) = true.
Proof.
  destruct a as [[] [] [] [] [] [] [] []]; repeat split; reflexivity.
Qed.

Lemma escapeEach_markup_free (s : string) :
  lacks "<" (escapeEach s) = true /\ lacks ">" (escapeEach s) = true /\
  lacks "034" (escapeEach s) = true /\ lacks "'" (escapeEach s) = true.
Proof.
  induction s as [|a s (I1 & I2 & I3 & I4)]; [repeat split |].
  cbn [escapeEach]. rewrite !lacks_app, I1, I2, I3, I4.
  destruct (escapeChar_markup_free a) as (-> & -> & -> & ->). repeat split.
Qed.

Lemma escapeChar_plain (a : ascii) :
  (Ascii.eqb a "&" || Ascii.eqb a "<" || Ascii.eqb a ">"
   || Ascii.eqb a "034" || Ascii.eqb a "'") = false ->
  escapeChar a = String a EmptyString.
Proof.
  intros H. unfold escapeChar.
  repeat (apply orb_false_iff in H as [H ?]).
  repeat match goal with E : _ = false |- _ => rewrite E; clear E end.
  reflexivity.
Qed.

(** X18.  [escapeXML] leaves no markup character in its result: no angle
    bracket and no quote of either kind; a string without any of the five
    special characters is returned unchanged. *)
Theorem escapeXML_markup_free (s : string) :
  lacks "<" (escapeXML s) = true /\ lacks ">" (escapeXML s) = true /\
  lacks "034" (escapeXML s) = true /\ lacks "'" (escapeXML s) = true /\
  (lacks "&" s = true -> lacks "<" s = true -> lacks ">" s = true ->
   lacks "034" s = true -> lacks "'" s = true -> escapeXML s = s).
Proof.
  rewrite escapeXML_each.
  destruct (escapeEach_markup_free s) as (H1 & H2 & H3 & H4).
  repeat split; auto.
  induction s as [|a s IH]; [reflexivity |].
  cbn [lacks escapeEach]. intros L1 L2 L3 L4 L5.
  apply andb_true_iff in L1 as [A1 L1]. apply andb_true_iff in L2 as [A2 L2].
  apply andb_true_iff in L3 as [A3 L3]. apply andb_true_iff in L4 as [A4 L4].
  apply andb_true_iff in L5 as [A5 L5].
  destruct (escapeEach_markup_free s) as (G1 & G2 & G3 & G4).
  rewrite (IH G1 G2 G3 G4 L1 L2 L3 L4 L5).
  rewrite escapeChar_plain; [reflexivity |].
  apply negb_true_iff in A1, A2, A3, A4, A5.
  now rewrite A1, A2, A3, A4, A5.
Qed.

Lemma escapeChar_cases (a : ascii) :
  (a = "&"%char /\ escapeChar a = "&amp;") \/
  (a = "<"%char /\ escapeChar a = "&lt;") \/
  (a = ">"%char /\ escapeChar a = "&gt;") \/
  (a = "034"%char /\ escapeChar a = "&quot;") \/
  (a = "'"%char /\ escapeChar a = "&apos;") \/
  (a <> "&"%char /\ escapeChar a = String a EmptyString).
Proof.
  destruct a as [[] [] [] [] [] [] [] []];
    first [ left; split; reflexivity
          | right; left; split; reflexivity
          | right; right; left; split; reflexivity
          | right; right; right; left; split; reflexivity
          | right; right; right; right; left; split; reflexivity
          | right; right; right; right; right; split;
            [discriminate | reflexivity] ].
Qed.

Lemma escapeChar_prefix (a b : ascii) (x y : string) :
  escapeChar a ++ x = escapeChar b ++ y -> a = b /\ x = y.
Proof.
  destruct (escapeChar_cases a) as [[-> ->] | [[-> ->] | [[-> ->] | [[-> ->] |
    [[-> ->] | [Na ->]]]]]];
  destruct (escapeChar_cases b) as [[-> ->] | [[-> ->] | [[-> ->] | [[-> ->] |
    [[-> ->] | [Nb ->]]]]]];
  cbn [append]; intros H;
  try discriminate H;
  try (injection H as H; split; [reflexivity | exact H]);
  try (injection H as H1 H2; congruence).
  injection H as H1 H2. now split.
Qed.

(** X19.  [escapeXML] is injective: two strings with the same escaped text are
    the same string. *)
Theorem escapeXML_injective (s t : string) :
  escapeXML s = escapeXML t -> s = t.
Proof.
  rewrite !escapeXML_each. revert t.
  induction s as [|a s IH]; intros [|b t]; cbn [escapeEach]; intros H.
  - reflexivity.
  - exfalso. destruct (escapeChar_cases b)
      as [[_ E] | [[_ E] | [[_ E] | [[_ E] | [[_ E] | [_ E]]]]]];
      rewrite E in H; discriminate H.
  - exfalso. destruct (escapeChar_cases a)
      as [[_ E] | [[_ E] | [[_ E] | [[_ E] | [[_ E] | [_ E]]]]]];
      rewrite E in H; discriminate H.
  - apply escapeChar_prefix in H as [-> H]. now rewrite (IH t H).
Qed.

Lemma escapeXML_injective_witness :
  escapeXML "a&b" = "a&amp;b" /\ escapeXML "a&amp;b" = "a&amp;amp;b" /\
  ("a&b" = "a&b").
Proof.
  split; [reflexivity |]. split; [reflexivity |].
  apply (escapeXML_injective "a&b" "a&b"). reflexivity.
Defined.


Lemma countChar_app (c : ascii) (a b : string) :
  countChar c (a ++ b) = countChar c a + countChar c b.
Proof.
  induction a as [|x a IH]; [reflexivity |].
  cbn [append countChar]. rewrite IH. lia.
Qed.

Lemma lacks_countChar (c : ascii) (s : string) :
  lacks c s = true -> countChar c s = 0.
Proof.
  induction s as [|a s IH]; [reflexivity |].
  cbn [lacks countChar]. intros H. apply andb_true_iff in H as [A L].
  apply negb_true_iff in A. rewrite A, (IH L). reflexivity.
Qed.

Section Markup.

Variable today : string.
Variable calculatePriority : Z -> string.
Variable c : ascii.
Hypothesis bracket : c = "<"%char \/ c = ">"%char.
Hypothesis today_plain : lacks c today = true.
Hypothesis priority_plain : forall d, lacks c (calculatePriority d) = true.

Lemma escapeXML_no_bracket (s : string) : countChar c (escapeXML s) = 0.
Proof.
  apply lacks_countChar. rewrite escapeXML_each.
  destruct (escapeEach_markup_free s) as (H1 & H2 & _).
  now destruct bracket as [-> | ->].
Qed.

Lemma xml_entries_count (pages : list PageRecord) (xml : string) :
  countChar c
    (fold_left
       (fun xml page =>
          let xml := xml ++ "  <url>" ++ newline in
          let xml := xml ++ "    <loc>" ++ escapeXML (page_url page)
                     ++ "</loc>" ++ newline in
          let xml := xml ++ "    <lastmod>" ++ today ++ "</lastmod>"
                     ++ newline in
          let xml := xml ++ "    <changefreq>weekly</changefreq>"
                     ++ newline in
          let xml := xml ++ "    <priority>"
                     ++ calculatePriority (page_depth page)
                     ++ "</priority>" ++ newline in
          xml ++ "  </url>" ++ newline)
       pages xml)
  = countChar c xml + 10 * length pages.
Proof.
  revert xml; induction pages as [|p pages IH]; intros xml;
    [cbn [fold_left length]; lia |].
  cbn [fold_left length]. rewrite IH. cbv zeta.
  rewrite !countChar_app, escapeXML_no_bracket.
  rewrite (lacks_countChar c today today_plain).
  rewrite (lacks_countChar c _ (priority_plain (page_depth p))).
  destruct bracket as [-> | ->]; cbn; lia.
Qed.

Lemma xml_count (pages : list PageRecord) (baseUrl xml : string) :
  generateXMLSitemap today calculatePriority pages baseUrl = Some xml ->
  countChar c xml = 3 + 10 * length pages.
Proof.
  unfold generateXMLSitemap.
  destruct (Url.parse baseUrl); [| discriminate].
  cbv zeta. intros [= <-].
  rewrite countChar_app, xml_entries_count.
  destruct bracket as [-> | ->]; cbn; lia.
Qed.

End Markup.

(** X20.  The markup of the XML sitemap does not depend on the URLs: whatever
    the pages are, the text has three tags around ten tags per page, so no URL
    opens or closes a tag of its own. *)
Theorem xml_sitemap_markup_fixed (today : string)
    (calculatePriority : Z -> string) (pages : list PageRecord)
    (baseUrl xml : string) :
  lacks "<" today = true -> lacks ">" today = true ->
  (forall d, lacks "<" (calculatePriority d) = true) ->
  (forall d, lacks ">" (calculatePriority d) = true) ->
  generateXMLSitemap today calculatePriority pages baseUrl = Some xml ->
  countChar "<" xml = 3 + 10 * length pages /\
  countChar ">" xml = 3 + 10 * length pages.
Proof.
  intros T1 T2 P1 P2 G. split.
  - apply (xml_count today calculatePriority "<" (or_introl eq_refl) T1 P1
             pages baseUrl xml G).
  - apply (xml_count today calculatePriority ">" (or_intror eq_refl) T2 P2
             pages baseUrl xml G).
Qed.

Lemma xml_sitemap_markup_fixed_witness :
  exists xml,
    generateXMLSitemap "2024-05-01" (fun _ => "0.8")
      [mkPage "" "https://a.com/?q=<b>&r='x'" 1 None "Search"]
      "https://a.com" = Some xml /\
    countChar "<" xml = 13 /\ countChar ">" xml = 13.
Proof.
  eexists. split; [vm_compute; reflexivity |].
  apply (xml_sitemap_markup_fixed "2024-05-01" (fun _ => "0.8")
           [mkPage "" "https://a.com/?q=<b>&r='x'" 1 None "Search"]
           "https://a.com");
    try reflexivity.
Defined.

(** The XML generator parses [baseUrl] although it does not use the
    result: with a base URL that is not a URL it throws, even for no pages
    at all. *)
Lemma xml_sitemap_needs_base (today : string) (calculatePriority : Z -> string)
    (pages : list PageRecord) (baseUrl : string) :
  generateXMLSitemap today calculatePriority pages baseUrl = None
  <-> Url.parse baseUrl = None.
Proof.
  unfold generateXMLSitemap.
  destruct (Url.parse baseUrl); split; intros H; congruence.
Qed.

Lemma titleOf_truthy (url : string) : truthy (titleOf url) = true.
Proof.
  unfold titleOf.
  destruct (Url.parse url) as [u|]; [| reflexivity].
  cbv zeta.
  destruct (truthy (drop 1 (Url.hash u)) && _).
  { now apply orElse_truthy. }
  destruct (filter truthy (split "/" (Url.pathname u))) as [|x xs] eqn:F;
    [reflexivity |].
  rewrite humanize_truthy.
  assert (I : In (last (x :: xs) "")
                 (filter truthy (split "/" (Url.pathname u)))).
  { rewrite F. apply last_In. discriminate. }
  apply filter_In in I. apply I.
Qed.

(** X21.  The JSON sitemap holds every page, in order, with its URL, depth
    and parent unchanged; [totalPages] is their number; no title is empty,
    and a title is replaced only when it is missing or one of the three
    error titles. *)
Theorem json_sitemap_complete (now : string) (pages : list PageRecord) :
  let sitemap := generateJSONSitemap now pages in
  json_totalPages sitemap = length pages /\
  map json_url (json_pages sitemap) = map page_url pages /\
  map json_depth (json_pages sitemap) = map page_depth pages /\
  map json_parentUrl (json_pages sitemap) = map page_parentUrl pages /\
  Forall (fun j => json_title j <> "") (json_pages sitemap) /\
  Forall2 (fun p j => Playwright.needsTitle (page_title p) = false ->
                      json_title j = page_title p)
          pages (json_pages sitemap).
Proof.
  cbv zeta. unfold generateJSONSitemap.
  cbn [json_totalPages json_pages]. rewrite length_map, !map_map.
  cbn [json_url json_depth json_parentUrl].
  repeat split; try reflexivity.
  - apply Forall_forall. intros j Hj.
    apply in_map_iff in Hj as (p & <- & _). cbn [json_title].
    apply truthy_nonempty.
    destruct (negb (truthy (page_title p)) || _ || _ || _) eqn:E;
      [apply titleOf_truthy |].
    repeat (apply orb_false_iff in E as [E _]).
    now apply negb_false_iff in E.
  - induction pages as [|p pages IH]; cbn [map]; constructor; [| exact IH].
    cbn [json_title]. unfold Playwright.needsTitle. now intros ->.
Qed.

End GeneratorFacts.

(** ** The AI processor *)

Section AiFacts.

Import AiProcessor.

(** [compressNode] on a string that is not empty: the string has its first
    character as an entry, and that character is again such a string, so
    the recursion has no end. *)
Lemma compress_string_endless (fuel : nat) (a : ascii) (s path : string) :
  compressNode fuel (JStr (String a s)) path = Playwright.OutOfFuel.
Proof.
  revert a s path; induction fuel as [|fuel IH]; intros a s path;
    [reflexivity |].
  cbn [compressNode getProp entries chars indexedFrom compressEntries].
  change (startsWith (natToString 0) "_") with false. cbv iota zeta.
  now rewrite IH.
Qed.

(** The same for an object whose first field is such a string under a key
    that does not begin with an underscore. *)
Lemma compress_field_endless (fuel : nat) (k : string) (a : ascii)
    (s path : string) (fields : list (string * JsValue)) :
  startsWith k "_" = false ->
  compressNode fuel (JObj ((k, JStr (String a s)) :: fields)) path
  = Playwright.OutOfFuel.
Proof.
  intros K. destruct fuel as [|fuel]; [reflexivity |].
  cbn [compressNode getProp entries compressEntries].
  rewrite K. cbv zeta. now rewrite compress_string_endless.
Qed.

Lemma compress_tree_endless (stack : nat) (t : SitemapNode) :
  sn_id t <> "" ->
  compressSitemap stack (toJson t) = Playwright.OutOfFuel.
Proof.
  destruct t as [id url title depth status children]. cbn [sn_id].
  destruct id as [|a id]; [congruence |]. intros _.
  unfold compressSitemap. cbn [toJson app].
  now apply compress_field_endless.
Qed.


(** X23.  The AI improvement of a stored sitemap finds nothing. The tree of the
    worker has strings in its fields, [compressNode] descends into a string
    character by character without end, the stack runs out, and
    [processSitemap] catches the error and returns no recommendation, whatever
    the language model would have answered. *)
Theorem stored_sitemap_gets_no_recommendation (fuel : nat)
    (pages : option (list PageRecord)) (t : SitemapNode) :
  buildSitemapStructure fuel pages = Some t ->
  forall stack ai,
    compressSitemap stack (toJson t) = Playwright.OutOfFuel /\
    processSitemap stack ai (toJson t) = [].
Proof.
  intros B stack ai.
  pose proof (built_labels fuel pages t B) as L.
  assert (I : sn_id t <> "").
  { destruct t. cbn [tree_nodes] in L. inversion L as [|x l [H _] _]; subst.
    exact H. }
  pose proof (compress_tree_endless stack t I) as C.
  split; [exact C |]. unfold processSitemap. now rewrite C.
Qed.

Lemma stored_sitemap_gets_no_recommendation_witness :
  exists t, buildSitemapStructure 5 (Some smallSite) = Some t /\
  forall stack ai,
    compressSitemap stack (toJson t) = Playwright.OutOfFuel /\
    processSitemap stack ai (toJson t) = [].
Proof.
  eexists. split; [vm_compute; reflexivity |].
  apply (stored_sitemap_gets_no_recommendation 5 (Some smallSite)).
  vm_compute. reflexivity.
Defined.

Lemma compressEntries_directory
    (f : JsValue -> string -> Playwright.Outcome Compressed) (path : string)
    (fields : list (string * JsValue)) :
  (forall k x p, In (k, x) fields -> startsWith k "_" = false ->
                 exists c, f x p = Playwright.Returned c) ->
  exists cs,
    compressEntries f path fields = Playwright.Returned cs /\
    map fst cs = filter (fun k => negb (startsWith k "_")) (map fst fields).
Proof.
  induction fields as [|[k x] fields IH]; intros H.
  - exists []. split; reflexivity.
  - destruct IH as (cs & E & K).
    { intros k' x' p I. apply H. now right. }
    cbn [compressEntries map fst filter].
    destruct (startsWith k "_") eqn:U; cbn [negb].
    + exists cs. split; [exact E | exact K].
    + cbv zeta.
      match goal with
      | |- context [f x ?p] =>
          destruct (H k x p (or_introl eq_refl) U) as [c ->]
      end.
      rewrite E. exists ((k, c) :: cs). cbn [map fst]. now rewrite K.
Qed.

Lemma compressNode_directory (fuel : nat) (v : JsValue) (path : string) :
  isDirectory v = true -> height v <= fuel ->
  exists c,
    compressNode fuel v path = Playwright.Returned c /\
    map fst (c_children c) = subdirectories v /\
    (forall fields, v = JObj fields ->
       c_count c = orValue (lookup fields "_count") (JNum 0) /\
       c_depth c = orValue (lookup fields "_depth") (JNum 0)).
Proof.
  revert v path; induction fuel as [|fuel IH]; intros v path D H;
    destruct v as [| | | | | |fields]; try discriminate D;
    cbn [height] in H; [lia |].
  cbn [isDirectory] in D. rewrite forallb_forall in D.
  cbn [compressNode getProp entries].
  destruct (compressEntries_directory (compressNode fuel) path fields)
    as (cs & E & K).
  { intros k x p I U. specialize (D _ I). cbn beta iota in D.
    rewrite U in D. cbn [orb] in D.
    destruct (IH x p D) as (c & -> & _); [| now exists c].
    assert (M : height x <= list_max (map (fun kv : string * JsValue =>
                                             let (k, x) := kv in height x)
                                          fields)).
    { pose proof (proj1 (list_max_le _ _) (Nat.le_refl
                   (list_max (map (fun kv : string * JsValue =>
                                     let (k, x) := kv in height x)
                                  fields)))) as F.
      rewrite Forall_forall in F. apply F.
      apply in_map_iff. now exists (k, x). }
    lia. }
  rewrite E. eexists. split; [reflexivity |].
  cbn [c_children c_count c_depth subdirectories].
  split; [exact K |]. intros fields' [= <-]. now split.
Qed.

(** X24.  On a sitemap in the directory format the first two stages work as
    meant: with a stack as deep as the tree [compressSitemap] returns, the
    result has one child per directory, and [chunkSitemap] makes one chunk per
    top-level directory under the path of its name, or the single chunk ["/"]
    when there is none. *)
Theorem directory_sitemap_is_chunked (stack : nat) (sitemap : JsValue) :
  isDirectory sitemap = true -> height sitemap <= stack ->
  exists compressed,
    compressSitemap stack sitemap = Playwright.Returned compressed /\
    map fst (c_children compressed) = subdirectories sitemap /\
    map chunk_path (chunkSitemap compressed)
    = match subdirectories sitemap with
      | [] => ["/"]
      | dirs => map (fun d => ("/" ++ d)%string) dirs
      end.
Proof.
  intros D H.
  destruct (compressNode_directory stack sitemap "" D H) as (c & E & K & _).
  exists c. split; [exact E |]. split; [exact K |].
  rewrite <- K. unfold chunkSitemap. cbv zeta.
  destruct (c_children c) as [|e es]; [reflexivity |].
  cbn [map chunk_path fst]. f_equal. rewrite !map_map. reflexivity.
Qed.

Lemma directory_sitemap_is_chunked_witness :
  exists compressed,
    compressSitemap 3 directorySitemap = Playwright.Returned compressed /\
    map fst (c_children compressed) = ["blog"; "about"] /\
    map chunk_path (chunkSitemap compressed) = ["/blog"; "/about"].
Proof.
  apply (directory_sitemap_is_chunked 3 directorySitemap).
  - reflexivity.
  - vm_compute. lia.
Defined.


Lemma orValue_truthy (a b : JsValue) :
  isTruthy b = true -> isTruthy (orValue a b) = true.
Proof. unfold orValue. destruct (isTruthy a) eqn:E; auto. Qed.

Lemma recommend_labels (opt : JsValue) (r : Recommendation) :
  recommend opt = Some r ->
  isTruthy (rec_category r) = true /\ isTruthy (rec_explanation r) = true.
Proof.
  unfold recommend.
  destruct (getProp opt "category"), (getProp opt "before"),
    (getProp opt "after"), (getProp opt "explanation"); try discriminate.
  intros [= <-]. cbn [rec_category rec_explanation].
  split; now apply orValue_truthy.
Qed.

Lemma extractRecommendations_shape (plan : JsValue)
    (recs : list Recommendation) :
  extractRecommendations plan = Some recs ->
  Forall (fun r => isTruthy (rec_category r) = true /\
                   isTruthy (rec_explanation r) = true) recs /\
  (forall opts, getProp plan "optimizations" = Some (JArr opts) ->
                length recs = length opts).
Proof.
  unfold extractRecommendations.
  destruct (getProp plan "optimizations") as [o|]; [| discriminate].
  destruct (isTruthy o) eqn:T.
  2:{ intros [= <-]. split; [constructor |].
      intros opts [= ->]. discriminate T. }
  destruct (iterate o) as [opts|] eqn:I; [| discriminate].
  intros S. apply sequence_map_some in S. split.
  - clear I. induction S as [|x r xs rs Hx S IH]; constructor; auto.
    now apply (recommend_labels x).
  - intros opts' [= ->]. cbn [iterate] in I. injection I as <-.
    clear T. induction S; cbn [length]; auto.
Qed.

(** X25.  Every recommendation that [processSitemap] returns has a category and
    an explanation: a missing or empty one is replaced by its default. *)
Theorem recommendations_are_labelled (stack : nat) (ai : Oracle)
    (sitemap : JsValue) :
  Forall (fun r => isTruthy (rec_category r) = true /\
                   isTruthy (rec_explanation r) = true)
         (processSitemap stack ai sitemap).
Proof.
  unfold processSitemap.
  destruct (compressSitemap stack sitemap) as [c| |]; try constructor.
  cbv zeta. destruct (mergeInsights ai _ c) as [plan|]; [| constructor].
  destruct (extractRecommendations plan) as [recs|] eqn:E; [| constructor].
  apply (extractRecommendations_shape plan recs E).
Qed.

End AiFacts.

(** ** The tree diagram *)

Section DiagramMap.

Import SitemapGenerator.

Lemma asNode_urls (pages : list PageRecord) :
  map clean_url (map asNode pages) = map page_url pages.
Proof. rewrite map_map. reflexivity. Qed.

Lemma asNode_filter (P' : CleanPage -> bool) (P : PageRecord -> bool)
    (pages : list PageRecord) :
  (forall p, P' (asNode p) = P p) ->
  map clean_url (filter P' (map asNode pages)) = map page_url (filter P pages).
Proof.
  intros H. induction pages as [|p ps IH]; [reflexivity |].
  cbn [map filter]. rewrite H. destruct (P p); cbn [map]; now rewrite IH.
Qed.

Lemma parentRefIn_asNode (pages : list PageRecord) (p : PageRecord) :
  parentRefIn (buildPageMap (map asNode pages)) (asNode p)
  = if hasParent pages p then page_parentUrl p else None.
Proof.
  unfold parentRefIn, hasParent. cbn [asNode clean_parentUrl].
  destruct (page_parentUrl p) as [q|]; [| reflexivity].
  now rewrite buildPageMap_has, asNode_urls.
Qed.

Lemma diagram_roots (pages : list PageRecord) :
  let nodes := map asNode pages in
  snd (fold_left (attach (findRootPage nodes)) nodes (buildPageMap nodes, []))
  = map page_url (topLevel pages).
Proof.
  cbv zeta.
  destruct (attach_fold (findRootPage (map asNode pages)) (map asNode pages)
              (buildPageMap (map asNode pages)) []) as [H _].
  rewrite H. cbn [app]. apply asNode_filter.
  intros p. rewrite parentRefIn_asNode. unfold hasParent.
  destruct (page_parentUrl p) as [q|]; [| reflexivity].
  now destruct (truthy q && existsb _ _).
Qed.

Lemma diagram_get (pages : list PageRecord) (k : string) :
  mapGet (diagramMap pages) k
  = option_map (addChildren (map page_url (attachedTo pages k)))
               (mapGet (buildPageMap (map asNode pages)) k).
Proof.
  unfold diagramMap. cbv zeta.
  destruct (attach_fold (findRootPage (map asNode pages)) (map asNode pages)
              (buildPageMap (map asNode pages)) []) as [_ H].
  rewrite H. f_equal. f_equal. apply asNode_filter.
  intros p. rewrite parentRefIn_asNode.
  destruct (hasParent pages p); reflexivity.
Qed.

Lemma diagram_has (pages : list PageRecord) (k : string) :
  mapHas (diagramMap pages) k = existsb (String.eqb k) (map page_url pages).
Proof.
  unfold mapHas. rewrite diagram_get.
  pose proof (buildPageMap_has (map asNode pages) k) as H.
  unfold mapHas in H. rewrite asNode_urls in H. rewrite <- H.
  now destruct (mapGet (buildPageMap (map asNode pages)) k).
Qed.

Lemma diagram_keyed (pages : list PageRecord) (k : string) (n : PageNode) :
  mapGet (diagramMap pages) k = Some n -> clean_url (node_page n) = k.
Proof.
  rewrite diagram_get.
  destruct (mapGet (buildPageMap (map asNode pages)) k) as [n0|] eqn:E;
    [| discriminate].
  intros [= <-]. cbn [addChildren node_page].
  now apply (buildPageMap_fresh (map asNode pages) k n0).
Qed.

(** The two attachment passes give the same [children] arrays in the
    diagram as in the tree builder. *)
Lemma diagram_children (pages : list PageRecord) (k : string) :
  childrenOf (diagramMap pages) k = childrenOf (attachedMap pages) k.
Proof.
  rewrite attached_children. unfold childrenOf. rewrite diagram_get.
  destruct (mapGet (buildPageMap (map asNode pages)) k) as [n0|] eqn:E.
  - cbn [option_map addChildren node_children].
    now destruct (buildPageMap_fresh (map asNode pages) k n0 E) as [_ ->].
  - cbn [option_map]. destruct (attachedTo pages k) as [|p l] eqn:A;
      [reflexivity |].
    exfalso.
    assert (Hp : In p (attachedTo pages k)) by (rewrite A; now left).
    apply attachedTo_parent in Hp as (_ & H1 & H2).
    pose proof (in_urls_has _ _ (hasParent_in pages p k H1 H2)) as H.
    pose proof (buildPageMap_has (map asNode pages) k) as B.
    rewrite asNode_urls, H in B.
    unfold mapHas in B. rewrite E in B. discriminate B.
Qed.

Lemma diagram_attachAll (p0 : PageRecord) (ps : list PageRecord) :
  topLevel (p0 :: ps) <> [] ->
  attachAll (map asNode (p0 :: ps))
  = (diagramMap (p0 :: ps), map page_url (topLevel (p0 :: ps))).
Proof.
  intros T. pose proof (diagram_roots (p0 :: ps)) as R. cbv zeta in R.
  unfold attachAll, diagramMap. cbv zeta.
  destruct (fold_left _ _ _) as [m rn]. cbn [fst snd] in *. subst rn.
  destruct (topLevel (p0 :: ps)) as [|r rs]; [congruence |]. reflexivity.
Qed.

End DiagramMap.

Section DiagramText.

Import SitemapGenerator.

Local Open Scope string_scope.

Variable elbow : string.
Variable tee : string.
Variable pipe : string.
Variable icon : string.

Lemma includes_app_l (a b p : string) :
  includes a p = true -> includes (a ++ b) p = true.
Proof.
  assert (S : forall s, startsWith s p = true -> startsWith (s ++ b) p = true).
  { clear. induction p as [|c p IH]; intros s H; [reflexivity |].
    destruct s as [|x s]; [discriminate |].
    cbn [append startsWith] in *.
    destruct (Ascii.eqb x c); [now apply IH | discriminate]. }
  induction a as [|x a IH]; intros H.
  - cbn [includes] in H. rewrite orb_false_r in H.
    apply includes_startsWith. now apply (S "").
  - cbn [append includes] in *. apply orb_true_iff in H as [H | H].
    + change (String x (a ++ b)) with (String x a ++ b).
      now rewrite (S _ H).
    + rewrite (IH H). apply orb_true_r.
Qed.

Lemma includes_refl (p : string) : includes p p = true.
Proof.
  apply includes_startsWith. rewrite <- (append_empty_r p) at 1.
  apply startsWith_app.
Qed.

Lemma forEachLast_includes (f : string -> bool -> option string)
    (l : list string) (text x k : string) :
  forEachLast f l = Some text -> In k l ->
  (forall b part, f k b = Some part -> includes part x = true) ->
  includes text x = true.
Proof.
  revert text; induction l as [|k' l IH]; intros text E I F; [destruct I |].
  cbn [forEachLast] in E.
  destruct (f k' _) as [a|] eqn:Fa; [| discriminate].
  destruct (forEachLast f l) as [rest|] eqn:Fr; [| discriminate].
  injection E as <-.
  destruct I as [-> | I].
  - apply includes_app_l. exact (F _ _ Fa).
  - apply includes_app_r. now apply IH.
Qed.

Lemma forEachLast_total (f : string -> bool -> option string)
    (l : list string) :
  (forall k b, In k l -> exists part, f k b = Some part) ->
  exists text, forEachLast f l = Some text.
Proof.
  induction l as [|k l IH]; intros H; [now exists "" |].
  cbn [forEachLast].
  destruct (H k (match l with [] => true | _ => false end)
              (or_introl eq_refl)) as [a ->].
  destruct IH as [rest ->]; [intros k' b I; apply H; now right |].
  now exists (a ++ rest).
Qed.

Section OneMap.

Variable pageMap : PageMap.

Hypothesis keyed :
  forall k n, mapGet pageMap k = Some n -> clean_url (node_page n) = k.

(** The text of a node shows the URL of every node its recursion meets. *)
Lemma text_includes (fuel : nat) (k prefix : string) (isLast : bool)
    (text x : string) :
  buildTreeTextFromNode elbow tee pipe icon fuel pageMap k prefix isLast
  = Some text ->
  In x (walk (childrenOf pageMap) fuel k) -> mapHas pageMap x = true ->
  includes text (urlLine x) = true.
Proof.
  revert k prefix isLast text;
    induction fuel as [|fuel IH]; intros k prefix isLast text;
    [discriminate |].
  cbn [buildTreeTextFromNode walk].
  destruct (mapGet pageMap k) as [n|] eqn:G.
  - assert (Ck : childrenOf pageMap k = node_children n)
      by (unfold childrenOf; now rewrite G).
    rewrite Ck. clear Ck. cbv zeta.
    destruct (forEachLast _ (node_children n)) as [below|] eqn:B;
      [| discriminate].
    intros [= <-] [<- | I] Hx.
    + apply includes_app_l. rewrite (keyed k n G).
      apply includes_app_r. apply includes_app_r. apply includes_app_r.
      apply includes_refl.
    + apply includes_app_r. apply in_flat_map in I as (c & Ic & Iw).
      apply (forEachLast_includes _ _ _ _ c B Ic).
      intros b part P. exact (IH _ _ _ _ P Iw Hx).
  - assert (Ck : childrenOf pageMap k = [])
      by (unfold childrenOf; now rewrite G).
    rewrite Ck. intros _ [<- | []] Hx. unfold mapHas in Hx.
    now rewrite G in Hx.
Qed.

Variable rank : string -> nat.
Variable bound : nat.

Hypothesis rank_bound : forall k, mapHas pageMap k = true -> rank k <= bound.
Hypothesis children_deeper :
  forall k c, In c (childrenOf pageMap k) ->
              mapHas pageMap c = true /\ rank k < rank c.

Lemma text_total (fuel : nat) (k prefix : string) (isLast : bool) :
  mapHas pageMap k = true -> bound < fuel + rank k ->
  exists text,
    buildTreeTextFromNode elbow tee pipe icon fuel pageMap k prefix isLast
    = Some text.
Proof.
  revert k prefix isLast; induction fuel as [|fuel IH];
    intros k prefix isLast Hk Hf.
  - specialize (rank_bound k Hk). lia.
  - cbn [buildTreeTextFromNode].
    pose proof (children_deeper k) as Hc. unfold childrenOf in Hc.
    destruct (mapGet pageMap k) as [n|]; [| now exists ""].
    cbv zeta.
    match goal with
    | |- context [forEachLast ?f ?l] =>
        destruct (forEachLast_total f l) as [below ->]; [| eauto]
    end.
    intros c b Ic. destruct (Hc c Ic) as [Hm Hr].
    apply IH; [exact Hm | lia].
Qed.

End OneMap.

Lemma walk_ext (kids kids' : string -> list string) (fuel : nat) (k : string) :
  (forall x, kids x = kids' x) -> walk kids fuel k = walk kids' fuel k.
Proof.
  intros E. revert k; induction fuel as [|fuel IH]; intros k; [reflexivity |].
  cbn [walk]. rewrite E. f_equal.
  induction (kids' k) as [|c l IHl]; [reflexivity |].
  cbn [flat_map]. now rewrite IH, IHl.
Qed.

(** With distinct URLs and acyclic parent references, walking down from the
    top-level records meets every record. *)
Lemma roots_reach_all (rank : string -> nat) (pages : list PageRecord)
    (fuel : nat) (p : PageRecord) :
  NoDup (map page_url pages) -> acyclicBy rank pages ->
  list_max (map rank (map page_url pages)) < fuel -> In p pages ->
  In (page_url p)
     (flat_map (walk (childrenOf (attachedMap pages)) fuel)
               (map page_url (topLevel pages))).
Proof.
  intros N Hacy Hf Hp.
  assert (Hrank : forall k, In k (map page_url pages) -> rank k < fuel).
  { intros k Hk.
    pose proof (proj1 (list_max_le (map rank (map page_url pages)) _)
                      (Nat.le_refl _)) as F.
    rewrite Forall_forall in F.
    specialize (F (rank k) (in_map rank _ _ Hk)). lia. }
  pose proof (walk_roots_all (childrenOf (attachedMap pages))
                (map page_url pages) (parOf pages) rank N
                (fun k => attached_kids_spec pages k N)
                (parOf_acyclic rank pages N Hacy) fuel Hrank) as W.
  rewrite <- (topLevel_roots pages N) in W.
  apply (Permutation_in _ (Permutation_sym W)). now apply in_map.
Qed.

(** X22.  The tree diagram shows every page. For pages with distinct URLs and
    acyclic parent references and a base URL that parses, the generator returns
    (enough fuel for its recursion exists) a text that begins with the origin
    of the base URL and holds, for every page, the line with its URL. *)
Theorem tree_diagram_shows_every_page (rank : string -> nat)
    (pages : list PageRecord) (baseUrl : string) (u : Url.URL) :
  pages <> [] -> Url.parse baseUrl = Some u ->
  NoDup (map page_url pages) -> acyclicBy rank pages ->
  exists n, forall fuel, n <= fuel ->
  exists text,
    generateTreeDiagram elbow tee pipe icon fuel (Some pages) baseUrl
    = Playwright.Returned text /\
    startsWith text (Url.origin u ++ newline) = true /\
    forall p, In p pages -> includes text (urlLine (page_url p)) = true.
Proof.
  intros Hne P N Hacy.
  exists (S (list_max (map rank (map page_url pages)))).
  intros fuel Hf.
  destruct pages as [|p0 ps]; [congruence |].
  pose proof (topLevel_nonempty rank _ Hne Hacy) as Htop.
  pose proof (topLevel_incl (p0 :: ps)) as Hincl.
  cbn [generateTreeDiagram]. rewrite P. cbv zeta.
  rewrite (diagram_attachAll p0 ps Htop).
  set (pages := p0 :: ps) in *.
  assert (Has : forall k, In k (map page_url pages) ->
                          mapHas (diagramMap pages) k = true).
  { intros k Hk. rewrite diagram_has. now apply in_urls_has. }
  assert (Tot : forall k b, In k (map page_url (topLevel pages)) ->
            exists part,
              buildTreeTextFromNode elbow tee pipe icon fuel
                (diagramMap pages) k "" b = Some part).
  { intros k b Hk.
    apply (text_total (diagramMap pages) rank
             (list_max (map rank (map page_url pages)))).
    - intros k' H. rewrite diagram_has in H. apply has_in_urls in H.
      pose proof (proj1 (list_max_le (map rank (map page_url pages)) _)
                        (Nat.le_refl _)) as F.
      rewrite Forall_forall in F. apply F. now apply in_map.
    - intros k' c Hc. rewrite diagram_children, attached_children in Hc.
      apply in_map_iff in Hc as (p & <- & Hp).
      apply attachedTo_parent in Hp as (Hp & H1 & H2).
      split; [| now apply Hacy].
      apply Has. now apply in_map.
    - apply Has. now apply Hincl.
    - lia. }
  destruct (forEachLast_total
              (fun node isLast =>
                 buildTreeTextFromNode elbow tee pipe icon fuel
                   (diagramMap pages) node "" isLast)
              (map page_url (topLevel pages))) as [text E].
  { intros k b Hk. now apply Tot. }
  rewrite E. eexists. split; [reflexivity |].
  split; [apply startsWith_app |].
  intros p Hp. apply includes_app_r.
  pose proof (roots_reach_all rank pages fuel p N Hacy) as Rch.
  specialize (Rch ltac:(lia) Hp).
  apply in_flat_map in Rch as (r & Hr & Hw).
  apply (forEachLast_includes _ _ _ _ r E Hr).
  intros b part Hpart.
  apply (text_includes (diagramMap pages) (diagram_keyed pages)
           fuel r "" b part (page_url p) Hpart).
  - rewrite (walk_ext _ (childrenOf (attachedMap pages))); [exact Hw |].
    intros x. apply diagram_children.
  - apply Has. now apply in_map.
Qed.

End DiagramText.

Lemma tree_diagram_shows_every_page_witness :
  exists n, forall fuel, n <= fuel ->
  exists text,
    SitemapGenerator.generateTreeDiagram "`-- " "|-- " "|   " "*" fuel
      (Some smallSite) "https://a.com/index"
    = Playwright.Returned text /\
    startsWith text ("https://a.com" ++ SitemapGenerator.newline)%string
    = true /\
    forall p, In p smallSite ->
              includes text (urlLine (page_url p)) = true.
Proof.
  apply (tree_diagram_shows_every_page "`-- " "|-- " "|   " "*"
           (fun u => String.length u) smallSite "https://a.com/index"
           (Url.mkURL "https" "a.com" "/index" None None)).
  - discriminate.
  - reflexivity.
  - repeat constructor; simpl; intuition discriminate.
  - intros p q Hp E H.
    repeat (destruct Hp as [<- | Hp]; [try discriminate H;
      injection E as <-; simpl; lia |]).
    destruct Hp.
Defined.

(** ** The canonical form at work *)

Lemma normalize_strips_query_and_anchor_witness :
  exists u',
    Url.parse "https://a.com/x" = Some u' /\ Url.query u' = None /\
    (startsWith
       (Url.hash (Url.mkURL "https" "a.com" "/x/" (Some "q=1") (Some "top")))
       "#/" = false ->
     Url.fragment u' = None).
Proof.
  apply (normalize_strips_query_and_anchor "https://a.com/x/?q=1#top"
           "https://a.com/x"
           (Url.mkURL "https" "a.com" "/x/" (Some "q=1") (Some "top")));
    reflexivity.
Defined.

Lemma normalize_keeps_settled_route_witness :
  exists v u',
    Playwright.normalize "https://a.com/?tab=1#/products" = Some v /\
    Url.parse v = Some u' /\ Url.fragment u' = Some "/products".
Proof.
  apply (normalize_keeps_settled_route "https://a.com/?tab=1#/products"
           "products"
           (Url.mkURL "https" "a.com" "/" (Some "tab=1") (Some "/products")));
    reflexivity.
Defined.
